(** * Reactive core of vue-code: dependency tracking, watchers, the tick
  mechanism, deep traversal and path getters.

  The development embeds, function by function,
  - [src/core/observer/dep.js] and [src/core/observer/watcher.js]
    (module [Observer]),
  - [src/core/util/next-tick.js] (module [Tick]),
  - [src/core/observer/traverse.js] (module [Traverse]),
  - [parsePath] of [src/core/util/lang.js] (module [Path]),
  and proves the properties the specification states about them. *)

From Stdlib Require Import ZArith Ascii String Wellfounded DecimalString.
From stdpp Require Import gmap strings list fin_maps.

(** ** JavaScript values *)

Module Js.

(** What a JavaScript expression can evaluate to, as far as the reactive
    core looks at it.  Numbers are the integers plus [NaN]; functions and
    objects are references. *)
Inductive value : Type :=
| VUndefined
| VNull
| VBool (b : bool)
| VNum (n : Z)
| VNaN
| VStr (s : string)
| VFun (f : nat)
| VObj (r : nat).

Inductive error : Type :=
| TypeError
| UserError (n : nat).

(** The completion of a call: a returned value or a thrown exception. *)
Inductive completion (A : Type) : Type :=
| Normal (a : A)
| Throw (e : error).
Arguments Normal {A} a.
Arguments Throw {A} e.

(** [!!v] *)
Definition truthy (v : value) : bool :=
  match v with
  | VUndefined | VNull | VNaN => false
  | VBool b => b
  | VNum n => negb (n =? 0)%Z
  | VStr s => negb (String.eqb s "")
  | VFun _ | VObj _ => true
  end.

(** [a === b] *)
Definition strict_eq (a b : value) : bool :=
  match a, b with
  | VUndefined, VUndefined => true
  | VNull, VNull => true
  | VBool x, VBool y => Bool.eqb x y
  | VNum x, VNum y => (x =? y)%Z
  | VStr x, VStr y => String.eqb x y
  | VFun x, VFun y => Nat.eqb x y
  | VObj x, VObj y => Nat.eqb x y
  | _, _ => false
  end.

(** Modelled from the spec: [isObject] of [shared/util], which is not under
    src/; the spec calls its positive case "a structured (non-primitive)
    value": [obj !== null && typeof obj === 'object']. *)
Definition isObject (v : value) : bool :=
  match v with
  | VObj _ => true
  | _ => false
  end.

(** [obj[key]]: a [TypeError] on [undefined] and [null]; on everything
    else what the host's property lookup [prop] does there: the value of
    a data property, own or inherited, [undefined] for an absent one,
    and for an accessor property, as the proxies and the computed
    properties of a component instance are, what its getter returns or
    throws. *)
Definition get_prop (prop : value -> string -> completion value)
           (obj : value) (key : string) : completion value :=
  match obj with
  | VUndefined | VNull => Throw TypeError
  | _ => prop obj key
  end.

End Js.

(** ** [parsePath] *)

Module Path.
Import Js.

Definition is_digit (c : ascii) : bool :=
  let n := nat_of_ascii c in (48 <=? n)%nat && (n <=? 57)%nat.
Definition is_upper (c : ascii) : bool :=
  let n := nat_of_ascii c in (65 <=? n)%nat && (n <=? 90)%nat.
Definition is_lower (c : ascii) : bool :=
  let n := nat_of_ascii c in (97 <=? n)%nat && (n <=? 122)%nat.

(** [\w] *)
Definition is_word (c : ascii) : bool :=
  is_digit c || is_upper c || is_lower c || Ascii.eqb c "_"%char.

(** The class [[\w.$]] that [bailRE] negates. *)
Definition path_char (c : ascii) : bool :=
  is_word c || Ascii.eqb c "."%char || Ascii.eqb c "$"%char.

(** [bailRE.test(path)] with [bailRE = /[^\w.$]/]: some character lies
    outside the class. *)
Fixpoint bailRE_test (path : string) : bool :=
  match path with
  | EmptyString => false
  | String c rest => negb (path_char c) || bailRE_test rest
  end.

(** [path.split(sep)] for a one-character separator. *)
Fixpoint split (sep : ascii) (s : string) : list string :=
  match s with
  | EmptyString => [EmptyString]
  | String c rest =>
      if Ascii.eqb c sep then EmptyString :: split sep rest
      else match split sep rest with
           | [] => [String c EmptyString]
           | seg :: segs => String c seg :: segs
           end
  end.

(** The closure [parsePath] returns, over its captured [segments]:
    [for (i...) { if (!obj) return; obj = obj[segments[i]] } return obj]. *)
Fixpoint path_getter (prop : value -> string -> completion value)
         (segments : list string) (obj : value) : completion value :=
  match segments with
  | [] => Normal obj
  | seg :: rest =>
      if negb (truthy obj) then Normal VUndefined
      else match get_prop prop obj seg with
           | Throw e => Throw e
           | Normal o => path_getter prop rest o
           end
  end.

(** [parsePath]: [None] is the bare [return] (undefined); [Some segments]
    is the closure, given by the segments it captures. *)
Definition parsePath (path : string) : option (list string) :=
  if bailRE_test path then None else Some (split "."%char path).

(** [segments.join(sep)] *)
Fixpoint join (sep : string) (segments : list string) : string :=
  match segments with
  | [] => EmptyString
  | [seg] => seg
  | seg :: rest => seg +:+ sep +:+ join sep rest
  end.

(** The characters of a property name in a path: [\w] and [$]. *)
Definition name_char (c : ascii) : bool :=
  is_word c || Ascii.eqb c "$"%char.

End Path.

(** ** [Dep] and [Watcher] *)

Module Observer.
Import Js.

(** [Dep.target : ?Watcher].  It starts as [null]; [targetStack.pop()] on
    an empty stack and [pushTarget()] without argument make it
    [undefined]. *)
Inductive target_ref : Type :=
| TNull
| TUndefined
| TWatcher (w : nat).

(** What [this.getter] is after the constructor ran. *)
Inductive getter_fn : Type :=
| GFunction (f : nat)
| GPath (segments : list string)
| GNoop.

(** The fields of a [Watcher] instance.  [deps] and [newDeps] hold [Dep]
    objects, given here by their [id]; [depIds] and [newDepIds] are the
    two [Set] objects. *)
Record watcher : Type := Watcher {
  vm : nat;
  expression : string;
  id : nat;
  deep : bool;
  user : bool;
  lazy : bool;
  sync : bool;
  dirty : bool;
  active : bool;
  deps : list nat;
  newDeps : list nat;
  depIds : gset nat;
  newDepIds : gset nat;
  before : option nat;
  getter : getter_fn;
  value : Js.value
}.

(** The part of a component instance the watcher touches. *)
Record component : Type := Component {
  _watcher : option nat;
  _watchers : list nat;
  _isBeingDestroyed : bool
}.

(** What can be observed of a watcher from outside. *)
Inductive event : Type :=
| EvGetter (w : nat)
| EvCallback (w : nat) (newValue oldValue : Js.value).

(** The module-level state of [dep.js] and [watcher.js] and the objects
    they reach: [Dep.target], [targetStack], every [Dep] (its [subs], by
    [id]; a [Dep] without entry has no subscriber), every [Watcher], every
    component, the [uid] counter of watchers, what [handleError] received,
    the scheduler's queue and the trace of getter and callback calls.
    A method called on an id that names no watcher has no counterpart in
    the source; it changes nothing here. *)
Record state : Type := State {
  target : target_ref;
  targetStack : list nat;
  subs : gmap nat (list nat);
  watchers : gmap nat watcher;
  components : gmap nat component;
  uid : nat;
  errors : list (error * string);
  queue : list nat;
  events : list event
}.

Definition init : state :=
  State TNull [] ∅ ∅ ∅ 0 [] [] [].

(** *** Field updates *)

Definition set_target (t : target_ref) (stack : list nat) (st : state) : state :=
  State t stack (subs st) (watchers st) (components st) (uid st)
        (errors st) (queue st) (events st).

Definition set_subs (m : gmap nat (list nat)) (st : state) : state :=
  State (target st) (targetStack st) m (watchers st) (components st) (uid st)
        (errors st) (queue st) (events st).

Definition set_watchers (m : gmap nat watcher) (st : state) : state :=
  State (target st) (targetStack st) (subs st) m (components st) (uid st)
        (errors st) (queue st) (events st).

Definition set_components (m : gmap nat component) (st : state) : state :=
  State (target st) (targetStack st) (subs st) (watchers st) m (uid st)
        (errors st) (queue st) (events st).

Definition set_uid (n : nat) (st : state) : state :=
  State (target st) (targetStack st) (subs st) (watchers st) (components st) n
        (errors st) (queue st) (events st).

Definition set_queue (q : list nat) (st : state) : state :=
  State (target st) (targetStack st) (subs st) (watchers st) (components st)
        (uid st) (errors st) q (events st).

Definition emit (e : event) (st : state) : state :=
  State (target st) (targetStack st) (subs st) (watchers st) (components st)
        (uid st) (errors st) (queue st) (events st ++ [e]).

(** Modelled from the spec: [handleError] of [util/error], which is not
    under src/; the spec's "error-reporting sink
    [report(error, context, info-string)]".  It records and returns. *)
Definition handleError (e : error) (info : string) (st : state) : state :=
  State (target st) (targetStack st) (subs st) (watchers st) (components st)
        (uid st) (errors st ++ [(e, info)]) (queue st) (events st).

(** [this.f = ...] on the watcher [w]. *)
Definition update_watcher (w : nat) (f : watcher -> watcher) (st : state) : state :=
  set_watchers (alter f w (watchers st)) st.

Definition with_collecting (ds : list nat) (ids : gset nat) (x : watcher) : watcher :=
  Watcher (vm x) (expression x) (id x) (deep x) (user x) (lazy x) (sync x)
          (dirty x) (active x) (deps x) ds (depIds x) ids
          (before x) (getter x) (value x).

Definition with_swapped (x : watcher) : watcher :=
  Watcher (vm x) (expression x) (id x) (deep x) (user x) (lazy x) (sync x)
          (dirty x) (active x) (newDeps x) [] (newDepIds x) ∅
          (before x) (getter x) (value x).

Definition with_active (b : bool) (x : watcher) : watcher :=
  Watcher (vm x) (expression x) (id x) (deep x) (user x) (lazy x) (sync x)
          (dirty x) b (deps x) (newDeps x) (depIds x) (newDepIds x)
          (before x) (getter x) (value x).

Definition with_dirty (b : bool) (x : watcher) : watcher :=
  Watcher (vm x) (expression x) (id x) (deep x) (user x) (lazy x) (sync x)
          b (active x) (deps x) (newDeps x) (depIds x) (newDepIds x)
          (before x) (getter x) (value x).

Definition with_value (v : Js.value) (x : watcher) : watcher :=
  Watcher (vm x) (expression x) (id x) (deep x) (user x) (lazy x) (sync x)
          (dirty x) (active x) (deps x) (newDeps x) (depIds x) (newDepIds x)
          (before x) (getter x) v.

(** *** dep.js *)

(** Modelled from the spec: [remove] of [shared/util], which is not under
    src/; the spec's "[unsubscribe(unit)]: remove unit; no-op if absent".
    The first occurrence goes. *)
Fixpoint remove (x : nat) (l : list nat) : list nat :=
  match l with
  | [] => []
  | y :: l' => if decide (x = y) then l' else y :: remove x l'
  end.

(** [dep.subs] of the [Dep] with id [d]. *)
Definition subs_of (st : state) (d : nat) : list nat :=
  default [] (subs st !! d).

(** [addSub (sub) { this.subs.push(sub) }] *)
Definition addSub (d sub : nat) (st : state) : state :=
  set_subs (<[d := subs_of st d ++ [sub]]> (subs st)) st.

(** [removeSub (sub) { remove(this.subs, sub) }] *)
Definition removeSub (d sub : nat) (st : state) : state :=
  set_subs (alter (remove sub) d (subs st)) st.

(** [pushTarget]: the old target is pushed only when it is truthy. *)
Definition pushTarget (_target : target_ref) (st : state) : state :=
  match target st with
  | TWatcher old => set_target _target (targetStack st ++ [old]) st
  | _ => set_target _target (targetStack st) st
  end.

(** [popTarget]: [Dep.target = targetStack.pop()]. *)
Definition popTarget (st : state) : state :=
  match last (targetStack st) with
  | Some w => set_target (TWatcher w) (removelast (targetStack st)) st
  | None => set_target TUndefined (targetStack st) st
  end.

(** *** watcher.js *)

(** [addDep (dep)] *)
Definition addDep (w d : nat) (st : state) : state :=
  match watchers st !! w with
  | None => st
  | Some this =>
      if decide (d ∈ newDepIds this) then st
      else
        let st1 :=
          update_watcher w
            (with_collecting (newDeps this ++ [d]) (newDepIds this ∪ {[d]})) st in
        if decide (d ∈ depIds this) then st1 else addSub d w st1
  end.

(** [Dep.prototype.depend]: [if (Dep.target) Dep.target.addDep(this)]. *)
Definition depend (d : nat) (st : state) : state :=
  match target st with
  | TWatcher w => addDep w d st
  | _ => st
  end.

(** [while (i--) { ... removeSub ... }] over [deps], last element first,
    keeping the deps whose id satisfies [keep]. *)
Definition unsubscribe (w : nat) (keep : nat -> bool) (ds : list nat)
           (st : state) : state :=
  fold_left (fun s d => if keep d then s else removeSub d w s) (reverse ds) st.

(** [cleanupDeps ()] *)
Definition cleanupDeps (w : nat) (st : state) : state :=
  match watchers st !! w with
  | None => st
  | Some this =>
      let st1 :=
        unsubscribe w (fun d => bool_decide (d ∈ newDepIds this)) (deps this) st in
      update_watcher w with_swapped st1
  end.

(** One call of [this.getter] as this module sees it, for a getter that
    reaches the two classes through [dep.depend()] only: the
    [Dep.depend()] calls that reactive accessors make while it runs and
    how it completes; and, for a deep watcher, the [Dep.depend()] calls
    made while [traverse(value)] reads through the value, for a
    [traverse] that returns.  A getter that also reads computed
    properties or creates components is a list of [call]s, and
    [traverse] may not return there: [get_calling] below. *)
Record evaluation : Type := Evaluation {
  reads : list nat;
  result : completion Js.value;
  deep_reads : list nat
}.

Definition dquote : string := String (ascii_of_nat 34) EmptyString.

Definition getter_info (this : watcher) : string :=
  "getter for watcher " +:+ dquote +:+ expression this +:+ dquote.

Definition callback_info (this : watcher) : string :=
  "callback for watcher " +:+ dquote +:+ expression this +:+ dquote.

(** [this.getter.call(vm, vm)]: [noop] reads nothing and returns
    [undefined]; any other getter does what [ev] says. *)
Definition call_getter (this : watcher) (ev : evaluation)
  : list nat * completion Js.value :=
  match getter this with
  | GNoop => ([], Normal VUndefined)
  | _ => (reads ev, result ev)
  end.

Definition depend_all (ds : list nat) (st : state) : state :=
  fold_left (fun s d => depend d s) ds st.

(** [traverse(value)] inside [get], when it returns: nothing on a value
    that is no object, otherwise the reads of [ev]. *)
Definition traverse_reads (ev : evaluation) (v : Js.value) : list nat :=
  if isObject v then deep_reads ev else [].

(** [get ()] with a getter that is an [evaluation]. *)
Definition get (w : nat) (ev : evaluation) (st : state)
  : completion Js.value * state :=
  match watchers st !! w with
  | None => (Normal VUndefined, st)
  | Some this =>
      let st1 := pushTarget (TWatcher w) st in
      let '(rs, res) := call_getter this ev in
      let st2 := depend_all rs (emit (EvGetter w) st1) in
      let '(value, thrown, st3) :=
        match res with
        | Normal v => (v, None, st2)
        | Throw e =>
            if user this
            then (VUndefined, None, handleError e (getter_info this) st2)
            else (VUndefined, Some e, st2)
        end in
      let st4 :=
        if deep this then depend_all (traverse_reads ev value) st3 else st3 in
      let st5 := cleanupDeps w (popTarget st4) in
      match thrown with
      | Some e => (Throw e, st5)
      | None => (Normal value, st5)
      end
  end.

(** Modelled from the spec: [queueWatcher] of the scheduler, which is not
    under src/; the spec's "[enqueue(unit)] — if the unit's identifier is
    not already present in the pending queue, add it". *)
Definition queueWatcher (w : nat) (st : state) : state :=
  if bool_decide (w ∈ queue st) then st else set_queue (queue st ++ [w]) st.

(** [run ()]; [cb] is how [this.cb.call(this.vm, value, oldValue)]
    completes when it is called. *)
Definition run (w : nat) (ev : evaluation) (cb : completion unit) (st : state)
  : completion unit * state :=
  match watchers st !! w with
  | None => (Normal tt, st)
  | Some this =>
      if active this then
        match get w ev st with
        | (Throw e, st1) => (Throw e, st1)
        | (Normal v, st1) =>
            match watchers st1 !! w with
            | None => (Normal tt, st1)
            | Some this1 =>
                if negb (strict_eq v (value this1)) || isObject v || deep this1
                then
                  let oldValue := value this1 in
                  let st2 := update_watcher w (with_value v) st1 in
                  let st3 := emit (EvCallback w v oldValue) st2 in
                  if user this1 then
                    match cb with
                    | Normal _ => (Normal tt, st3)
                    | Throw e =>
                        (Normal tt, handleError e (callback_info this1) st3)
                    end
                  else
                    match cb with
                    | Normal _ => (Normal tt, st3)
                    | Throw e => (Throw e, st3)
                    end
                else (Normal tt, st1)
            end
        end
      else (Normal tt, st)
  end.

(** [update ()] *)
Definition update (w : nat) (ev : evaluation) (cb : completion unit)
           (st : state) : completion unit * state :=
  match watchers st !! w with
  | None => (Normal tt, st)
  | Some this =>
      if lazy this then (Normal tt, update_watcher w (with_dirty true) st)
      else if sync this then run w ev cb st
      else (Normal tt, queueWatcher w st)
  end.

(** [evaluate ()] *)
Definition evaluate (w : nat) (ev : evaluation) (st : state)
  : completion unit * state :=
  match get w ev st with
  | (Throw e, st1) => (Throw e, st1)
  | (Normal v, st1) =>
      (Normal tt,
       update_watcher w (fun x => with_dirty false (with_value v x)) st1)
  end.

(** [Watcher.prototype.depend]: [while (i--) this.deps[i].depend()]. *)
Definition watcher_depend (w : nat) (st : state) : state :=
  match watchers st !! w with
  | None => st
  | Some this => depend_all (reverse (deps this)) st
  end.

(** [if (!this.vm._isBeingDestroyed) remove(this.vm._watchers, this)] *)
Definition forget_watcher (w : nat) (this : watcher) (st : state) : state :=
  match components st !! vm this with
  | Some c =>
      if _isBeingDestroyed c then st
      else set_components
             (<[vm this :=
                  Component (_watcher c) (remove w (_watchers c))
                            (_isBeingDestroyed c)]> (components st)) st
  | None => st
  end.

(** [teardown ()] *)
Definition teardown (w : nat) (st : state) : state :=
  match watchers st !! w with
  | None => st
  | Some this =>
      if active this then
        let st1 := forget_watcher w this st in
        let st2 := unsubscribe w (fun _ => false) (deps this) st1 in
        update_watcher w (with_active false) st2
      else st
  end.

(** The constructor's [options], after the [!!] coercions. *)
Record options : Type := Options {
  opt_deep : bool;
  opt_user : bool;
  opt_lazy : bool;
  opt_sync : bool;
  opt_before : option nat
}.

Inductive expOrFn : Type :=
| EFunction (f : nat)
| EString (s : string).

(** [expOrFn.toString()]; the text of a function is not modelled. *)
Definition expression_of (e : expOrFn) : string :=
  match e with
  | EFunction _ => "function"
  | EString s => s
  end.

(** [this.getter] as the constructor chooses it: the function, the closure
    of [parsePath], or [noop] when [parsePath] returned nothing. *)
Definition getter_of (e : expOrFn) : getter_fn :=
  match e with
  | EFunction f => GFunction f
  | EString s =>
      match Path.parsePath s with
      | Some segments => GPath segments
      | None => GNoop
      end
  end.

(** [new Watcher(vm, expOrFn, cb, options, isRenderWatcher)]: the new
    watcher's id and the state, or the exception of the first [get]. *)
Definition new_Watcher (vmid : nat) (e : expOrFn) (opts : option options)
           (isRenderWatcher : bool) (ev : evaluation) (st : state)
  : completion nat * state :=
  let w := S (uid st) in
  let c := default (Component None [] false) (components st !! vmid) in
  let c1 :=
    Component (if isRenderWatcher then Some w else _watcher c)
              (_watchers c ++ [w]) (_isBeingDestroyed c) in
  let o := default (Options false false false false None) opts in
  let this :=
    Watcher vmid (expression_of e) w (opt_deep o) (opt_user o) (opt_lazy o)
            (opt_sync o) (opt_lazy o) true [] [] ∅ ∅ (opt_before o)
            (getter_of e) VUndefined in
  let st1 :=
    set_uid w
      (set_watchers (<[w := this]> (watchers st))
         (set_components (<[vmid := c1]> (components st)) st)) in
  if opt_lazy o then (Normal w, st1)
  else
    match get w ev st1 with
    | (Throw err, st2) => (Throw err, st2)
    | (Normal v, st2) => (Normal w, update_watcher w (with_value v) st2)
    end.

(** [Vue.prototype.$watch (expOrFn, cb, options)] with a function for
    [cb]: the watcher is created with [options.user = true]; with
    [options.immediate] the callback is called at once with the value.
    The function returned, [unwatchFn], is given by the id of the watcher
    it tears down. *)
Definition vm_watch (vmid : nat) (e : expOrFn) (opts : option options)
           (immediate : bool) (ev : evaluation) (cb : completion unit)
           (st : state) : completion nat * state :=
  let o := default (Options false false false false None) opts in
  let o1 := Options (opt_deep o) true (opt_lazy o) (opt_sync o) (opt_before o) in
  match new_Watcher vmid e (Some o1) false ev st with
  | (Throw err, st1) => (Throw err, st1)
  | (Normal w, st1) =>
      if immediate then
        let v := from_option value VUndefined (watchers st1 !! w) in
        let st2 := emit (EvCallback w v VUndefined) st1 in
        match cb with
        | Normal _ => (Normal w, st2)
        | Throw err => (Throw err, st2)
        end
      else (Normal w, st1)
  end.

(** [unwatchFn ()] *)
Definition unwatchFn (w : nat) (st : state) : state := teardown w st.

(** *** Vocabulary of the properties *)

(** The fields of a watcher that dependency collection leaves alone, and
    those of every watcher. *)
Definition config_of (x : watcher) :=
  (vm x, expression x, id x, deep x, user x, lazy x, sync x, dirty x,
   active x, before x, getter x, value x).

Definition configs (st : state) :=
  config_of <$> watchers st.

(** [active] of every watcher. *)
Definition actives (st : state) : gmap nat bool :=
  active <$> watchers st.

(** What a watcher is from its creation to its [teardown]: every field
    but the dependency lists, [dirty] and [value]; and that of every
    watcher. *)
Definition kind_of (x : watcher) :=
  (vm x, expression x, id x, deep x, user x, lazy x, sync x, active x,
   before x, getter x).

Definition kinds (st : state) :=
  kind_of <$> watchers st.

(** Everything of the state but the [Dep]s and the watchers. *)
Definition rest_of (st : state) :=
  (target st, targetStack st, components st, uid st, errors st, queue st,
   events st).

(** An update of a watcher that leaves its dependency lists alone. *)
Definition keeps_deps (f : watcher -> watcher) : Prop :=
  forall x,
    deps (f x) = deps x /\ newDeps (f x) = newDeps x /\
    depIds (f x) = depIds x /\ newDepIds (f x) = newDepIds x.

Definition add_errors (l : list (error * string)) (st : state) : state :=
  State (target st) (targetStack st) (subs st) (watchers st) (components st)
        (uid st) (errors st ++ l) (queue st) (events st).

(** The bookkeeping the two classes keep between them: watcher ids come
    from [uid]; each id set mirrors its array, which holds no [Dep] twice;
    no [subs] holds a watcher twice; and a [Dep] has a watcher in [subs]
    only if the watcher has the [Dep] in [deps] or [newDeps]. *)
Definition wf (st : state) : Prop :=
  (forall w this,
     watchers st !! w = Some this ->
     w <= uid st /\
     NoDup (deps this) /\ NoDup (newDeps this) /\
     depIds this = list_to_set (deps this) /\
     newDepIds this = list_to_set (newDeps this)) /\
  (forall d, NoDup (subs_of st d)) /\
  (forall d w,
     w ∈ subs_of st d ->
     exists this,
       watchers st !! w = Some this /\ (d ∈ deps this \/ d ∈ newDeps this)).

(** What a call into the two classes keeps: the bookkeeping, and what
    every watcher is. *)
Definition kept (st st' : state) : Prop :=
  (wf st -> wf st') /\ kinds st' = kinds st.

(** No pass of the watcher is under way. *)
Definition quiescent (this : watcher) : Prop :=
  newDeps this = [] /\ newDepIds this = ∅.

(** A watcher that has the [noop] getter, the value [undefined] and no
    dependency, recorded or pending. *)
Definition inert (this : watcher) : Prop :=
  getter this = GNoop /\ value this = VUndefined /\
  deps this = [] /\ newDeps this = [] /\ depIds this = ∅ /\ newDepIds this = ∅.

(** The [Dep.depend()] calls of one pass of [get]: those of the getter,
    then those of [traverse(value)] when the watcher is deep. *)
Definition pass_reads (this : watcher) (ev : evaluation) : list nat :=
  let value :=
    match snd (call_getter this ev) with
    | Normal v => v
    | Throw _ => VUndefined
    end in
  fst (call_getter this ev) ++
  (if deep this then traverse_reads ev value else []).

(** How [get] completes, and what it hands to [handleError]. *)
Definition get_outcome (this : watcher) (ev : evaluation) : completion Js.value :=
  match snd (call_getter this ev) with
  | Normal v => Normal v
  | Throw e => if user this then Normal VUndefined else Throw e
  end.

Definition get_reports (this : watcher) (ev : evaluation)
  : list (error * string) :=
  match snd (call_getter this ev) with
  | Normal _ => []
  | Throw e => if user this then [(e, getter_info this)] else []
  end.

(** [Dep.target] and [targetStack] after a [pushTarget] of a watcher and
    the [popTarget] that answers it. *)
Definition target_after_get (st : state) : target_ref * list nat :=
  match target st with
  | TWatcher x => (TWatcher x, targetStack st)
  | _ =>
      match last (targetStack st) with
      | Some y => (TWatcher y, removelast (targetStack st))
      | None => (TUndefined, targetStack st)
      end
  end.


(** The watcher an event belongs to, and the getter and callback calls of
    watcher [w] so far. *)
Definition event_of (w : nat) (e : event) : bool :=
  match e with
  | EvGetter x => bool_decide (x = w)
  | EvCallback x _ _ => bool_decide (x = w)
  end.

Definition events_of (w : nat) (st : state) : list event :=
  filter (fun e => event_of w e = true) (events st).

(** From [st] to [st'] only events of watcher [x] were added. *)
Definition only_events_of (x : nat) (st st' : state) : Prop :=
  exists l,
    events st' = events st ++ l /\ Forall (fun e => event_of x e = true) l.

(** The watcher exists and its [active] flag is down. *)
Definition torn_down (w : nat) (st : state) : Prop :=
  actives st !! w = Some false.

(** The calls the rest of the program can make into the two classes. *)
Inductive op : Type :=
| OpNew (vmid : nat) (e : expOrFn) (opts : option options)
        (isRenderWatcher : bool) (ev : evaluation)
| OpGet (w : nat) (ev : evaluation)
| OpRun (w : nat) (ev : evaluation) (cb : completion unit)
| OpUpdate (w : nat) (ev : evaluation) (cb : completion unit)
| OpEvaluate (w : nat) (ev : evaluation)
| OpWatcherDepend (w : nat)
| OpTeardown (w : nat)
| OpAddDep (w d : nat)
| OpCleanupDeps (w : nat)
| OpDepend (d : nat)
| OpRemoveSub (d w : nat)
| OpPushTarget (t : target_ref)
| OpPopTarget.

Definition step (st : state) (o : op) : state :=
  match o with
  | OpNew vmid e opts r ev => snd (new_Watcher vmid e opts r ev st)
  | OpGet w ev => snd (get w ev st)
  | OpRun w ev cb => snd (run w ev cb st)
  | OpUpdate w ev cb => snd (update w ev cb st)
  | OpEvaluate w ev => snd (evaluate w ev st)
  | OpWatcherDepend w => watcher_depend w st
  | OpTeardown w => teardown w st
  | OpAddDep w d => addDep w d st
  | OpCleanupDeps w => cleanupDeps w st
  | OpDepend d => depend d st
  | OpRemoveSub d w => removeSub d w st
  | OpPushTarget t => pushTarget t st
  | OpPopTarget => popTarget st
  end.

Definition exec (ops : list op) (st : state) : state := fold_left step ops st.

(** The calls that evaluate watcher [w] on demand, not in reaction to a
    change. *)
Definition evaluates_directly (w : nat) (o : op) : bool :=
  match o with
  | OpGet x _ => bool_decide (x = w)
  | OpEvaluate x _ => bool_decide (x = w)
  | _ => false
  end.

(** *** Some states and getters *)

(** A getter that reads nothing and returns [undefined]; one that reads
    the [Dep]s [3] and [5]; one that reads [5] and [8]; one that returns
    another number; one that throws. *)
Definition idle : evaluation := Evaluation [] (Normal VUndefined) [].

Definition reads_3_5 : evaluation := Evaluation [3; 5; 3] (Normal (VNum 1)) [].

Definition reads_5_8 : evaluation := Evaluation [5; 8; 5] (Normal (VNum 1)) [].

Definition returns_2 : evaluation := Evaluation [3] (Normal (VNum 2)) [].

Definition throws : evaluation := Evaluation [3] (Throw (UserError 9)) [].

(** One component with one internal watcher, which read the [Dep]s [3]
    and [5] when it was created. *)
Definition one_watcher : state :=
  snd (new_Watcher 0 (EFunction 0) None false reads_3_5 init).

Definition its_watcher : watcher :=
  Watcher 0 "function" 1 false false false false false true [3; 5] []
          {[3; 5]} ∅ None (GFunction 0) (VNum 1).

(** The same with a user-defined watcher. *)
Definition one_user_watcher : state :=
  snd (new_Watcher 0 (EFunction 0) (Some (Options false true false false None))
         false reads_3_5 init).

Definition its_user_watcher : watcher :=
  Watcher 0 "function" 1 false true false false false true [3; 5] []
          {[3; 5]} ∅ None (GFunction 0) (VNum 1).

(** Two lazy watchers [1] and [2] of one component; watcher [1] is being
    evaluated ([pushTarget(this)] of its [get]) and [getData] has called
    [pushTarget()] to switch collection off around a [data()] call. *)
Definition inside_getData : state :=
  let lazy_opts := Some (Options false false true false None) in
  pushTarget TUndefined
    (pushTarget (TWatcher 1)
       (snd (new_Watcher 0 (EFunction 1) lazy_opts false idle
          (snd (new_Watcher 0 (EFunction 0) lazy_opts false idle init))))).

(** A lazy watcher, never evaluated and so still dirty, torn down. *)
Definition torn_down_lazy : state :=
  teardown 1
    (snd (new_Watcher 0 (EFunction 0)
            (Some (Options false false true false None)) false idle init)).


(** The options of a synchronous watcher. *)
Definition sync_opts : option options :=
  Some (Options false false false true None).

(** *** [Dep.notify] and the callers in [instance/state.js] *)

(** [subs.sort((a, b) => a.id - b.id)] *)
Fixpoint insert_by_id (x : nat) (l : list nat) : list nat :=
  match l with
  | [] => [x]
  | y :: l' => if (x <=? y)%nat then x :: y :: l' else y :: insert_by_id x l'
  end.

Definition sort_by_id (l : list nat) : list nat :=
  fold_right insert_by_id [] l.

(** [for (...) subs[i].update()]: the first exception ends the loop.
    [how w] tells what the getter and the callback of watcher [w] do if
    they are called. *)
Fixpoint update_each (ws : list nat)
         (how : nat -> evaluation * completion unit) (st : state)
  : completion unit * state :=
  match ws with
  | [] => (Normal tt, st)
  | w :: ws' =>
      match update w (fst (how w)) (snd (how w)) st with
      | (Throw e, st1) => (Throw e, st1)
      | (Normal _, st1) => update_each ws' how st1
      end
  end.

(** [notify ()]: the subscribers are copied first; [sorted] is
    [process.env.NODE_ENV !== 'production' && !config.async]. *)
Definition notify (d : nat) (sorted : bool)
           (how : nat -> evaluation * completion unit) (st : state)
  : completion unit * state :=
  let subs := subs_of st d in
  let subs := if sorted then sort_by_id subs else subs in
  update_each subs how st.

(** [computedGetter ()] of [createComputedGetter(key)], for the watcher
    that [this._computedWatchers[key]] holds; without one it returns
    [undefined]. *)
Definition computedGetter (w : nat) (ev : evaluation) (st : state)
  : completion Js.value * state :=
  match watchers st !! w with
  | None => (Normal VUndefined, st)
  | Some this =>
      let '(r, st1) :=
        if dirty this then evaluate w ev st else (Normal tt, st) in
      match r with
      | Throw e => (Throw e, st1)
      | Normal _ =>
          let st2 :=
            match target st1 with
            | TWatcher _ => watcher_depend w st1
            | _ => st1
            end in
          (Normal (from_option value VUndefined (watchers st2 !! w)), st2)
      end
  end.

(** One call of a component's [data] function as this module sees it,
    for a function that reaches the two classes through [dep.depend()]
    only: the [Dep.depend()] calls made while it runs and how it
    completes.  A [data] function that also reads computed properties
    is a list of [call]s: [getData_calling] below. *)
Record data_call : Type := DataCall {
  data_reads : list nat;
  data_result : completion Js.value
}.

(** What [getData] returns: what [data] returned, or a fresh [{}]. *)
Inductive data_value : Type :=
| DataReturned (v : Js.value)
| DataEmpty.

(** [getData (data, vm)] with a [data] function that is a
    [data_call]. *)
Definition getData (dc : data_call) (st : state) : data_value * state :=
  let st1 := pushTarget TUndefined st in
  let st2 := depend_all (data_reads dc) st1 in
  match data_result dc with
  | Normal v => (DataReturned v, popTarget st2)
  | Throw e => (DataEmpty, popTarget (handleError e "data()" st2))
  end.



(** [subs] of a [Dep] without the entries of watcher [w]. *)
Definition subs_without (w : nat) (st : state) (d : nat) : list nat :=
  filter (fun x => x <> w) (subs_of st d).

(** What [notify] leaves of a watcher that is subscribed to the [Dep] and
    neither runs nor is queued: a lazy one is marked dirty. *)
Definition marked (ws : list nat) (x : nat) (this : watcher) : watcher :=
  if bool_decide (x ∈ ws) && lazy this then with_dirty true this else this.

(** The subscribers of [Dep] [d] that [update] runs at once. *)
Definition runs_at_once (this : watcher) : bool :=
  negb (lazy this) && sync this.

(** *** Getters and [data] functions that call back into the module *)

(** [get], [computedGetter] and [getData] above are for a getter, or a
    [data] function, whose reads reach this module only through
    [dep.depend()]: an [evaluation] lists those calls.  What follows is
    the same three functions for a function that also reads computed
    properties and creates components: the same code runs, with other
    calls into the module between its [pushTarget] and its
    [popTarget]. *)

(** How [traverse(value)] goes inside [get] on an object: it returns,
    after the [dep.depend()] calls of the observed values it went
    through; or a property that it reads throws, after such calls; or it
    does not come to an end, on a value without observer that refers to
    itself. *)
Inductive traversal : Type :=
| Walked (ds : list nat)
| WalkThrew (ds : list nat) (e : error)
| WalkEndless.

(** What a getter, or a [data] function, makes happen in this module
    while it runs: a reactive accessor calls [dep.depend()]; a computed
    property is read, which is a call of [computedGetter] and, when its
    watcher is dirty, of that watcher's getter; [getData] is called, as
    the creation of a child component does with its [data] function.
    The function called is given in turn by its calls in order and by
    how it completes after them, a getter also by how [traverse(value)]
    goes.  A call that throws ends the function around it with that
    exception. *)
Inductive call : Type :=
| CallDepend (d : nat)
| CallComputed (w : nat) (getter_calls : list call)
               (res : completion Js.value) (walk : traversal)
| CallGetData (data_calls : list call) (res : completion Js.value).

(** The calls of a function in order, up to the first that throws;
    [None] when one does not return. *)
Definition in_order (f : call -> state -> option (completion unit * state))
  : list call -> state -> option (completion unit * state) :=
  fix go (calls : list call) (st : state) :=
    match calls with
    | [] => Some (Normal tt, st)
    | c :: rest =>
        match f c st with
        | Some (Normal _, st1) => go rest st1
        | r => r
        end
    end.

(** One run of a function that makes [calls] and then completes with
    [res]. *)
Definition run_fn (f : call -> state -> option (completion unit * state))
           (calls : list call) (res : completion Js.value) (st : state)
  : option (completion Js.value * state) :=
  match in_order f calls st with
  | Some (Normal _, st1) => Some (res, st1)
  | Some (Throw e, st1) => Some (Throw e, st1)
  | None => None
  end.

(** [get ()], the getter given by what it does; [f] is what a call
    does.  [traverse(value)] is called in [finally]: its exception
    leaves [get] before [popTarget()] and [cleanupDeps()], and in place
    of the exception of the getter. *)
Definition get_by (f : call -> state -> option (completion unit * state))
           (w : nat) (calls : list call) (res : completion Js.value)
           (walk : traversal) (st : state)
  : option (completion Js.value * state) :=
  match watchers st !! w with
  | None => Some (Normal VUndefined, st)
  | Some this =>
      let st1 := emit (EvGetter w) (pushTarget (TWatcher w) st) in
      let called :=
        match getter this with
        | GNoop => Some (Normal VUndefined, st1)
        | _ => run_fn f calls res st1
        end in
      match called with
      | None => None
      | Some (r, st2) =>
          let '(value, thrown, st3) :=
            match r with
            | Normal v => (v, None, st2)
            | Throw e =>
                if user this
                then (VUndefined, None, handleError e (getter_info this) st2)
                else (VUndefined, Some e, st2)
            end in
          let finish (st4 : state) :=
            Some (match thrown with
                  | Some e => Throw e
                  | None => Normal value
                  end, cleanupDeps w (popTarget st4)) in
          if deep this && isObject value then
            match walk with
            | Walked ds => finish (depend_all ds st3)
            | WalkThrew ds e => Some (Throw e, depend_all ds st3)
            | WalkEndless => None
            end
          else finish st3
      end
  end.

(** [computedGetter ()], with [watcher.evaluate()] in it. *)
Definition computedGetter_by
           (f : call -> state -> option (completion unit * state))
           (w : nat) (calls : list call) (res : completion Js.value)
           (walk : traversal) (st : state)
  : option (completion Js.value * state) :=
  match watchers st !! w with
  | None => Some (Normal VUndefined, st)
  | Some this =>
      let evaluated :=
        if dirty this then
          match get_by f w calls res walk st with
          | None => None
          | Some (Throw e, st1) => Some (Throw e, st1)
          | Some (Normal v, st1) =>
              Some (Normal tt,
                    update_watcher w
                      (fun x => with_dirty false (with_value v x)) st1)
          end
        else Some (Normal tt, st) in
      match evaluated with
      | None => None
      | Some (Throw e, st1) => Some (Throw e, st1)
      | Some (Normal _, st1) =>
          let st2 :=
            match target st1 with
            | TWatcher _ => watcher_depend w st1
            | _ => st1
            end in
          Some (Normal (from_option value VUndefined (watchers st2 !! w)), st2)
      end
  end.

(** [getData (data, vm)] *)
Definition getData_by (f : call -> state -> option (completion unit * state))
           (calls : list call) (res : completion Js.value) (st : state)
  : option (data_value * state) :=
  let st1 := pushTarget TUndefined st in
  match run_fn f calls res st1 with
  | None => None
  | Some (Normal v, st2) => Some (DataReturned v, popTarget st2)
  | Some (Throw e, st2) =>
      Some (DataEmpty, popTarget (handleError e "data()" st2))
  end.

(** What one call does. *)
Fixpoint do_call (c : call) (st : state) {struct c}
  : option (completion unit * state) :=
  match c with
  | CallDepend d => Some (Normal tt, depend d st)
  | CallComputed w calls res walk =>
      match computedGetter_by do_call w calls res walk st with
      | None => None
      | Some (Normal _, st1) => Some (Normal tt, st1)
      | Some (Throw e, st1) => Some (Throw e, st1)
      end
  | CallGetData calls res =>
      match getData_by do_call calls res st with
      | None => None
      | Some (_, st1) => Some (Normal tt, st1)
      end
  end.

Definition get_calling := get_by do_call.

Definition computedGetter_calling := computedGetter_by do_call.

Definition getData_calling := getData_by do_call.

(** [new Watcher(vm, expOrFn, cb, options, isRenderWatcher)] with such a
    getter. *)
Definition new_Watcher_calling
           (vmid : nat) (e : expOrFn) (opts : option options)
           (isRenderWatcher : bool) (calls : list call)
           (res : completion Js.value) (walk : traversal) (st : state)
  : option (completion nat * state) :=
  let w := S (uid st) in
  let c := default (Component None [] false) (components st !! vmid) in
  let c1 :=
    Component (if isRenderWatcher then Some w else _watcher c)
              (_watchers c ++ [w]) (_isBeingDestroyed c) in
  let o := default (Options false false false false None) opts in
  let this :=
    Watcher vmid (expression_of e) w (opt_deep o) (opt_user o) (opt_lazy o)
            (opt_sync o) (opt_lazy o) true [] [] ∅ ∅ (opt_before o)
            (getter_of e) VUndefined in
  let st1 :=
    set_uid w
      (set_watchers (<[w := this]> (watchers st))
         (set_components (<[vmid := c1]> (components st)) st)) in
  if opt_lazy o then Some (Normal w, st1)
  else
    match get_calling w calls res walk st1 with
    | None => None
    | Some (Throw err, st2) => Some (Throw err, st2)
    | Some (Normal v, st2) =>
        Some (Normal w, update_watcher w (with_value v) st2)
    end.

(** [Vue.prototype.$watch (expOrFn, cb, options)] with such a getter. *)
Definition vm_watch_calling
           (vmid : nat) (e : expOrFn) (opts : option options)
           (immediate : bool) (calls : list call) (res : completion Js.value)
           (walk : traversal) (cb : completion unit) (st : state)
  : option (completion nat * state) :=
  let o := default (Options false false false false None) opts in
  let o1 := Options (opt_deep o) true (opt_lazy o) (opt_sync o) (opt_before o) in
  match new_Watcher_calling vmid e (Some o1) false calls res walk st with
  | None => None
  | Some (Throw err, st1) => Some (Throw err, st1)
  | Some (Normal w, st1) =>
      if immediate then
        let v := from_option value VUndefined (watchers st1 !! w) in
        let st2 := emit (EvCallback w v VUndefined) st1 in
        match cb with
        | Normal _ => Some (Normal w, st2)
        | Throw err => Some (Throw err, st2)
        end
      else Some (Normal w, st1)
  end.

(** A function that reaches the module through [dep.depend()] only. *)
Definition direct (c : call) : bool :=
  match c with
  | CallDepend _ => true
  | _ => false
  end.

(** The [Dep]s of the [dep.depend()] calls a function makes itself. *)
Definition own_reads (calls : list call) : list nat :=
  omap (fun c => match c with
                 | CallDepend d => Some d
                 | _ => None
                 end) calls.

(** The watcher of [one_watcher] and a computed property of the
    component with the lazy watcher [2], not read yet. *)
Definition with_computed : state :=
  snd (new_Watcher 0 (EFunction 1)
         (Some (Options false false true false None)) false idle one_watcher).

(** A getter that reads the [Dep] [3], creates a child component whose
    [data] function reads the computed property, whose getter reads
    the [Dep] [7], and then the [Dep] [9], and last reads the [Dep]
    [5]. *)
Definition through_getData : list call :=
  [CallDepend 3;
   CallGetData
     [CallComputed 2 [CallDepend 7] (Normal (VNum 0)) (Walked []);
      CallDepend 9]
     (Normal (VObj 0));
   CallDepend 5].

(** A getter that reads the computed property and then the [Dep]
    [5]. *)
Definition through_computed : list call :=
  [CallComputed 2 [CallDepend 7] (Normal (VNum 0)) (Walked []); CallDepend 5].

End Observer.

(** ** The tick mechanism: [nextTick] and [flushCallbacks] *)

Module Tick.
Import Js.

(** A callback handed to [nextTick], by what one call of it does: it may
    call [nextTick] again, and it may throw, which ends it. *)
Inductive job : Type :=
| Job (label : nat) (body : list step)
with step : Type :=
| SNextTick (cb : option job) (ctx : nat)
| SThrow (e : error).

(** The arrow function [nextTick] pushes, by what it closes over: [cb],
    [ctx] and whether [_resolve] got assigned. *)
Record entry : Type := Entry {
  entry_cb : option job;
  entry_ctx : nat;
  entry_resolve : bool
}.

(** What the host was asked to do later. *)
Inductive task : Type :=
| SetImmediate
| PostMessage
| SetTimeout
| PromiseThen
| SetTimeoutNoop.

(** The capabilities probed when the module is loaded. *)
Record host : Type := Host {
  nativeSetImmediate : bool;
  nativeMessageChannel : bool;
  nativePromise : bool;
  hasPromise : bool;
  isIOS : bool
}.

(** [callbacks], [pending], [useMacroTask]; the tasks handed to the host;
    what [handleError] received; the labels of the callbacks called and
    the contexts the promises were resolved with. *)
Record state : Type := State {
  callbacks : list entry;
  pending : bool;
  useMacroTask : bool;
  tasks : list task;
  errors : list (error * nat * string);
  called : list nat;
  resolved : list nat
}.

Definition init : state := State [] false false [] [] [] [].

(** Modelled from the spec: [handleError] of [util/error], which is not
    under src/; the spec's "error-reporting sink
    [report(error, context, info-string)]".  It records and returns. *)
Definition handleError (e : error) (ctx : nat) (info : string) (st : state)
  : state :=
  State (callbacks st) (pending st) (useMacroTask st) (tasks st)
        (errors st ++ [(e, ctx, info)]) (called st) (resolved st).

Definition request (ts : list task) (st : state) : state :=
  State (callbacks st) (pending st) (useMacroTask st) (tasks st ++ ts)
        (errors st) (called st) (resolved st).

(** [macroTimerFunc], as chosen at load time. *)
Definition macroTimerFunc (h : host) (st : state) : state :=
  if nativeSetImmediate h then request [SetImmediate] st
  else if nativeMessageChannel h then request [PostMessage] st
  else request [SetTimeout] st.

(** [microTimerFunc], as chosen at load time. *)
Definition microTimerFunc (h : host) (st : state) : state :=
  if nativePromise h then
    request (PromiseThen :: (if isIOS h then [SetTimeoutNoop] else [])) st
  else macroTimerFunc h st.

(** The tasks that will run [flushCallbacks]. *)
Definition is_flush (t : task) : bool :=
  match t with
  | SetTimeoutNoop => false
  | _ => true
  end.

Definition flushes (st : state) : nat := length (filter is_flush (tasks st)).

(** [nextTick (cb, ctx)]; the boolean tells whether a promise is
    returned. *)
Definition nextTick (h : host) (cb : option job) (ctx : nat) (st : state)
  : bool * state :=
  let promise := negb (bool_decide (is_Some cb)) && hasPromise h in
  let st1 :=
    State (callbacks st ++ [Entry cb ctx promise]) (pending st)
          (useMacroTask st) (tasks st) (errors st) (called st) (resolved st) in
  let st2 :=
    if pending st1 then st1
    else
      let st' :=
        State (callbacks st1) true (useMacroTask st1) (tasks st1)
              (errors st1) (called st1) (resolved st1) in
      if useMacroTask st' then macroTimerFunc h st' else microTimerFunc h st' in
  (promise, st2).

(** [cb.call(ctx)] up to its first exception, inside
    [try { ... } catch (e) { handleError(e, ctx, 'nextTick') }]. *)
Fixpoint call_cb (h : host) (ctx : nat) (body : list step) (st : state)
  : state :=
  match body with
  | [] => st
  | SNextTick cb' ctx' :: rest => call_cb h ctx rest (snd (nextTick h cb' ctx' st))
  | SThrow e :: _ => handleError e ctx "nextTick" st
  end.

(** One call of a pushed arrow function. *)
Definition call_entry (h : host) (e : entry) (st : state) : state :=
  match entry_cb e with
  | Some (Job label body) =>
      call_cb h (entry_ctx e) body
        (State (callbacks st) (pending st) (useMacroTask st) (tasks st)
               (errors st) (called st ++ [label]) (resolved st))
  | None =>
      if entry_resolve e then
        State (callbacks st) (pending st) (useMacroTask st) (tasks st)
              (errors st) (called st) (resolved st ++ [entry_ctx e])
      else st
  end.

(** [flushCallbacks ()] *)
Definition flushCallbacks (h : host) (st : state) : state :=
  let copies := callbacks st in
  fold_left (fun s e => call_entry h e s) copies
    (State [] false (useMacroTask st) (tasks st) (errors st) (called st)
           (resolved st)).

(** *** What one drain does, read off the callbacks *)

(** The [nextTick] calls a callback makes before it ends. *)
Fixpoint ticks_of_body (body : list step) : list (option job * nat) :=
  match body with
  | [] => []
  | SNextTick cb ctx :: rest => (cb, ctx) :: ticks_of_body rest
  | SThrow _ :: _ => []
  end.

(** The exception a callback ends with, if any. *)
Fixpoint thrown_of_body (body : list step) : option error :=
  match body with
  | [] => None
  | SNextTick _ _ :: rest => thrown_of_body rest
  | SThrow e :: _ => Some e
  end.

Definition body_of (e : entry) : list step :=
  match entry_cb e with
  | Some (Job _ body) => body
  | None => []
  end.

(** The arrow function pushed by [nextTick(cb, ctx)]. *)
Definition entry_of (h : host) (c : option job * nat) : entry :=
  Entry (fst c) (snd c) (negb (bool_decide (is_Some (fst c))) && hasPromise h).

(** The entries pushed while the callbacks of [batch] run. *)
Definition pushed_during (h : host) (batch : list entry) : list entry :=
  flat_map (fun e => map (entry_of h) (ticks_of_body (body_of e))) batch.

(** The labels of the callbacks of [batch]. *)
Definition labels (batch : list entry) : list nat :=
  flat_map (fun e => match entry_cb e with
                     | Some (Job l _) => [l]
                     | None => []
                     end) batch.

(** What [handleError] receives while the callbacks of [batch] run. *)
Definition reports (batch : list entry) : list (error * nat * string) :=
  flat_map (fun e => match thrown_of_body (body_of e) with
                     | Some err => [(err, entry_ctx e, "nextTick")]
                     | None => []
                     end) batch.

(** The tasks one call of the timer function hands to the host. *)
Definition timer_tasks (h : host) (macro : bool) : list task :=
  let macro_tasks :=
    if nativeSetImmediate h then [SetImmediate]
    else if nativeMessageChannel h then [PostMessage]
    else [SetTimeout] in
  if macro then macro_tasks
  else if nativePromise h
       then PromiseThen :: (if isIOS h then [SetTimeoutNoop] else [])
       else macro_tasks.

(** The state after the [nextTick] calls [cs], made in a row. *)
Definition after_ticks (h : host) (cs : list (option job * nat)) (st : state)
  : state :=
  match cs with
  | [] => st
  | _ :: _ =>
      State (callbacks st ++ map (entry_of h) cs) true (useMacroTask st)
            (tasks st ++
               (if pending st then [] else timer_tasks h (useMacroTask st)))
            (errors st) (called st) (resolved st)
  end.


(** [pending] and the tasks requested after the entries [pushed] were
    pushed one after the other, starting with [pending = p]. *)
Definition pending_after (p : bool) (pushed : list entry) : bool :=
  match pushed with
  | [] => p
  | _ :: _ => true
  end.

Definition tasks_after (h : host) (p macro : bool) (pushed : list entry)
  : list task :=
  match pushed with
  | [] => []
  | _ :: _ => if p then [] else timer_tasks h macro
  end.


(** A host with native promises; a callback that calls [nextTick] and then
    throws, and one that does nothing; the state after [nextTick] was
    called with the two. *)
Definition promise_host : host := Host false false true true false.

Definition noisy : job :=
  Job 1 [SNextTick (Some (Job 3 [])) 0; SThrow (UserError 1); SNextTick None 0].

Definition quiet : job := Job 2 [].

Definition two_pending : state :=
  snd (nextTick promise_host (Some quiet) 0
         (snd (nextTick promise_host (Some noisy) 0 init))).

(** *** [withMacroTask], promises and the module as the host drives it *)

(** [fn.apply(null, arguments)] of a wrapped function, by the [nextTick]
    calls it makes before it returns or throws. *)
Fixpoint apply_fn (h : host) (body : list step) (st : state)
  : completion unit * state :=
  match body with
  | [] => (Normal tt, st)
  | SNextTick cb ctx :: rest => apply_fn h rest (snd (nextTick h cb ctx st))
  | SThrow e :: _ => (Throw e, st)
  end.

Definition set_useMacroTask (b : bool) (st : state) : state :=
  State (callbacks st) (pending st) b (tasks st) (errors st) (called st)
        (resolved st).

(** One call of the function that [withMacroTask(fn)] returns. *)
Definition withMacroTask (h : host) (body : list step) (st : state)
  : completion unit * state :=
  let st1 := set_useMacroTask true st in
  match apply_fn h body st1 with
  | (Normal res, st2) => (Normal res, set_useMacroTask false st2)
  | (Throw e, st2) => (Throw e, st2)
  end.

(** The contexts the promises of [batch] are resolved with. *)
Definition resolutions (batch : list entry) : list nat :=
  flat_map (fun e => match entry_cb e with
                     | Some _ => []
                     | None => if entry_resolve e then [entry_ctx e] else []
                     end) batch.

(** What happens to the module from outside: the program calls
    [nextTick] or a function wrapped by [withMacroTask], or the host runs
    the next task it was asked for that calls [flushCallbacks]. *)
Inductive host_op : Type :=
| HNextTick (cb : option job) (ctx : nat)
| HWithMacroTask (body : list step)
| HTask.

(** The state of the module and the number of flushing tasks the host has
    run so far; the host runs a task only if one is outstanding. *)
Definition host_step (h : host) (s : state * nat) (o : host_op) : state * nat :=
  match o with
  | HNextTick cb ctx => (snd (nextTick h cb ctx (fst s)), snd s)
  | HWithMacroTask body => (snd (withMacroTask h body (fst s)), snd s)
  | HTask =>
      if (snd s <? flushes (fst s))%nat
      then (flushCallbacks h (fst s), S (snd s))
      else s
  end.

Definition host_run (h : host) (ops : list host_op) : state * nat :=
  fold_left (host_step h) ops (init, 0%nat).

(** The flushing tasks asked for and not run yet. *)
Definition outstanding (s : state * nat) : nat := (flushes (fst s) - snd s)%nat.

End Tick.

(** ** Deep traversal *)

Module Traverse.
Import Js.

(** An object of the heap as [_traverse] looks at it: whether it is an
    array, frozen, a [VNode]; the id of [__ob__.dep] when it has an
    observer; and the values [val[i]], or [val[keys[i]]] in the order of
    [Object.keys]. *)
Record object : Type := Obj {
  isArray : bool;
  frozen : bool;
  isVNode : bool;
  __ob__ : option nat;
  fields : list value
}.

Definition Array_isArray (h : gmap nat object) (val : value) : bool :=
  match val with
  | VObj r => from_option isArray false (h !! r)
  | _ => false
  end.

Definition Object_isFrozen (h : gmap nat object) (val : value) : bool :=
  match val with
  | VObj r => from_option frozen true (h !! r)
  | _ => true
  end.

Definition instanceof_VNode (h : gmap nat object) (val : value) : bool :=
  match val with
  | VObj r => from_option isVNode false (h !! r)
  | _ => false
  end.

(** [val.__ob__] and, when there, [val.__ob__.dep.id]. *)
Definition ob_dep_id (h : gmap nat object) (val : value) : option nat :=
  match val with
  | VObj r => h !! r ≫= __ob__
  | _ => None
  end.

Definition fields_of (h : gmap nat object) (val : value) : list value :=
  match val with
  | VObj r => from_option fields [] (h !! r)
  | _ => []
  end.

(** The calls [f(v, seen)] for the values of [l] in order, each on the
    [seen] the one before left; [None] once one did not return. *)
Definition walk (f : value -> gset nat -> option (gset nat))
           (l : list value) (acc : option (gset nat)) : option (gset nat) :=
  fold_left (fun a v => a ≫= f v) l acc.

(** [while (i--) _traverse(val[i], seen)] *)
Definition each (f : value -> gset nat -> option (gset nat))
           (vs : list value) (seen : gset nat) : option (gset nat) :=
  walk f (reverse vs) (Some seen).

(** [_traverse (val, seen)]; [None] when the calls nest deeper than
    [fuel]. *)
Fixpoint _traverse (fuel : nat) (h : gmap nat object) (val : value)
         (seen : gset nat) : option (gset nat) :=
  match fuel with
  | O => None
  | S fuel' =>
      let isA := Array_isArray h val in
      if (negb isA && negb (isObject val)) || Object_isFrozen h val
         || instanceof_VNode h val
      then Some seen
      else
        match ob_dep_id h val with
        | Some depId =>
            if decide (depId ∈ seen) then Some seen
            else each (_traverse fuel' h) (fields_of h val) (seen ∪ {[depId]})
        | None => each (_traverse fuel' h) (fields_of h val) seen
        end
  end.

(** [traverse (val)]: [_traverse(val, seenObjects); seenObjects.clear()];
    the result is [seenObjects] afterwards. *)
Definition traverse (fuel : nat) (h : gmap nat object) (val : value)
           (seenObjects : gset nat) : option (gset nat) :=
  match _traverse fuel h val seenObjects with
  | Some _ => Some ∅
  | None => None
  end.

(** *** Vocabulary of the properties *)

(** An object that [_traverse] walks into without a visited-set check:
    neither frozen nor a [VNode], and without observer. *)
Definition unguarded (h : gmap nat object) (r : nat) : Prop :=
  exists o,
    h !! r = Some o /\ frozen o = false /\ isVNode o = false /\
    __ob__ o = None.

(** [c] is a field of [p], both unguarded. *)
Definition unguarded_child (h : gmap nat object) (c p : nat) : Prop :=
  unguarded h p /\ unguarded h c /\ VObj c ∈ fields_of h (VObj p).

(** The ids of the [Dep]s of the observers in the heap. *)
Definition dep_ids (h : gmap nat object) : gset nat :=
  list_to_set (omap (fun p => __ob__ (snd p)) (map_to_list h)).

(** An object without observer whose only field is itself. *)
Definition knot : gmap nat object :=
  {[ 0 := Obj false false false None [VObj 0] ]}.

(** An observed object whose only field is itself. *)
Definition observed_knot : gmap nat object :=
  {[ 0 := Obj false false false (Some 7) [VObj 0] ]}.

(** *** What [traverse] touches *)

(** An object [_traverse] does not return on at once. *)
Definition walkable (o : object) : Prop :=
  frozen o = false /\ isVNode o = false.

(** The object [r] is [val] or nested in it, under walkable objects
    only. *)
Inductive reach (h : gmap nat object) : value -> nat -> Prop :=
| reach_here (r : nat) (o : object) :
    h !! r = Some o -> walkable o -> reach h (VObj r) r
| reach_step (r : nat) (o : object) (c : value) (r' : nat) :
    h !! r = Some o -> walkable o -> c ∈ fields o -> reach h c r' ->
    reach h (VObj r) r'.

(** The value needs no further visit once the ids of [s] are recorded. *)
Inductive covered (h : gmap nat object) (s : gset nat) : value -> Prop :=
| covered_skip (v : value) :
    isObject v = false \/ Object_isFrozen h v = true \/
    instanceof_VNode h v = true ->
    covered h s v
| covered_seen (r : nat) (o : object) (i : nat) :
    h !! r = Some o -> __ob__ o = Some i -> i ∈ s -> covered h s (VObj r)
| covered_through (r : nat) (o : object) :
    h !! r = Some o -> walkable o -> __ob__ o = None ->
    (forall c, c ∈ fields o -> covered h s c) ->
    covered h s (VObj r).

(** The fields of every object recorded between [seen] and [s] need no
    further visit. *)
Definition closed (h : gmap nat object) (seen s : gset nat) : Prop :=
  forall r o i,
    h !! r = Some o -> walkable o -> __ob__ o = Some i ->
    i ∈ s -> i ∉ seen ->
    forall c, c ∈ fields o -> covered h s c.

(** Every observer has a [Dep] of its own: [uid++] in the constructor of
    [Dep]. *)
Definition distinct_dep_ids (h : gmap nat object) : Prop :=
  forall r1 r2 o1 o2 i,
    h !! r1 = Some o1 -> h !! r2 = Some o2 ->
    __ob__ o1 = Some i -> __ob__ o2 = Some i -> r1 = r2.

(** An observed array of an observed object twice, a frozen observed
    object and a number. *)
Definition nested : gmap nat object :=
  {[ 0 := Obj true false false (Some 10) [VObj 1; VObj 2; VNum 4; VObj 1];
     1 := Obj false false false (Some 11) [VObj 0];
     2 := Obj false true false (Some 12) [VObj 1] ]}.

End Traverse.

(** ** Normalization of the children of a VNode (vdom/helpers/normalize-children.js) *)

Module Normalize.

(** A [VNode] as this module reads and writes it; [ident] stands for the
    rest of the node. *)
Record vnode : Type := VNode {
  tag : option string;
  key : option string;
  text : option string;
  isComment : bool;
  ident : nat
}.

(** A member of a [children] array: [undefined] or [null]; a boolean; a
    string, or a number by its decimal form; a [VNode]; an array, with
    its [_isVList] mark. *)
Inductive child : Type :=
| CUndef
| CBool (b : bool)
| CPrim (s : string)
| CNode (v : vnode)
| CArray (_isVList : bool) (items : list child).

(** [isTextNode (node)], also on [undefined]. *)
Definition isTextNode (node : option vnode) : bool :=
  match node with
  | Some n => bool_decide (is_Some (text n)) && negb (isComment n)
  | None => false
  end.

(** [node.text] in a string concatenation. *)
Definition text_of (node : option vnode) : string :=
  default EmptyString (node ≫= text).

(** [res[lastIndex] = x] with [lastIndex = res.length - 1]. *)
Definition set_last (x : vnode) (res : list vnode) : list vnode :=
  <[pred (length res) := x]> res.

(** [c.key = key] *)
Definition with_key (k : string) (c : vnode) : vnode :=
  VNode (tag c) (Some k) (text c) (isComment c) (ident c).

(** [`${i}`] *)
Definition index_string (i : nat) : string :=
  NilZero.string_of_uint (Nat.to_uint i).

(** [for (i = 0; i < children.length; i++) { c = children[i]; ... }] with
    the body [f]. *)
Definition for_each (f : child -> nat -> list vnode -> list vnode)
  : list child -> nat -> list vnode -> list vnode :=
  fix go (children : list child) (i : nat) (res : list vnode) : list vnode :=
    match children with
    | [] => res
    | c :: rest => go rest (S i) (f c i res)
    end.

Section WithVNode.

(** [createTextVNode] of [core/vdom/vnode], which is not under src/. *)
Variable createTextVNode : string -> vnode.

(** The body of the loop of [normalizeArrayChildren (children,
    nestedIndex)] for the child [c = children[i]], with
    [children._isVList]. *)
Fixpoint visit (c : child) (_isVList : bool) (nestedIndex : option string)
         (i : nat) (res : list vnode) {struct c} : list vnode :=
  let last := last res in
  match c with
  | CUndef => res
  | CBool _ => res
  | CArray vl items =>
      match items with
      | [] => res
      | _ :: _ =>
          let c :=
            for_each
              (fun c0 j r =>
                 visit c0 vl
                       (Some (default EmptyString nestedIndex +:+ "_"
                                +:+ index_string i)) j r)
              items 0 [] in
          if isTextNode (head c) && isTextNode last then
            set_last (createTextVNode (text_of last +:+ text_of (head c))) res
              ++ tail c
          else res ++ c
      end
  | CPrim s =>
      if isTextNode last then
        set_last (createTextVNode (text_of last +:+ s)) res
      else if bool_decide (s <> EmptyString) then res ++ [createTextVNode s]
      else res
  | CNode v =>
      if isTextNode (Some v) && isTextNode last then
        set_last (createTextVNode (text_of last +:+ text_of (Some v))) res
      else
        res ++
        [if _isVList && bool_decide (is_Some (tag v))
            && negb (bool_decide (is_Some (key v)))
            && bool_decide (is_Some nestedIndex)
         then with_key ("__vlist" +:+ default EmptyString nestedIndex +:+ "_"
                          +:+ index_string i +:+ "__") v
         else v]
  end.

(** [normalizeArrayChildren (children, nestedIndex)] *)
Definition normalizeArrayChildren (_isVList : bool) (children : list child)
           (nestedIndex : option string) : list vnode :=
  for_each (fun c i res => visit c _isVList nestedIndex i res) children 0 [].

(** [normalizeChildren (children)]; [None] is [undefined]. *)
Definition normalizeChildren (children : child) : option (list vnode) :=
  match children with
  | CPrim s => Some [createTextVNode s]
  | CBool b => Some [createTextVNode (if b then "true" else "false")]
  | CArray vl items => Some (normalizeArrayChildren vl items None)
  | _ => None
  end.

End WithVNode.

(** [simpleNormalizeChildren (children)]:
    [Array.prototype.concat.apply([], children)] once a member is an
    array. *)
Definition isArray (c : child) : bool :=
  match c with
  | CArray _ _ => true
  | _ => false
  end.

Definition simpleNormalizeChildren (children : list child) : list child :=
  if existsb isArray children
  then flat_map (fun c => match c with
                          | CArray _ items => items
                          | _ => [c]
                          end) children
  else children.

(** *** Vocabulary of the properties *)

(** No two neighbours are text nodes. *)
Fixpoint text_merged (l : list vnode) : bool :=
  match l with
  | a :: (b :: _) as rest =>
      negb (isTextNode (Some a) && isTextNode (Some b)) && text_merged rest
  | _ => true
  end.

(** A text node as [createTextVNode] makes it in Vue:
    [new VNode(undefined, undefined, undefined, String(val))]. *)
Definition plain_text (s : string) : vnode :=
  VNode None None (Some s) false 0.

(** An element with a tag and no key. *)
Definition element (t : string) (n : nat) : vnode :=
  VNode (Some t) None None false n.

(** A [VNode] that is no text node. *)
Definition is_element (c : child) : bool :=
  match c with
  | CNode v => negb (isTextNode (Some v))
  | _ => false
  end.

(** A member that is an element or an array of elements that is no
    [v-for] list: what a functional component returns. *)
Definition one_level (c : child) : bool :=
  match c with
  | CArray vl items => negb vl && forallb is_element items
  | _ => is_element c
  end.

End Normalize.

(** ** Injections (instance/inject.js) *)

Module Inject.
Import Js.

(** A component instance as [resolveInject] reads it: [_provided], when
    set, and [$parent]. *)
Inductive component : Type :=
| Component (_provided : option (gmap string value))
            (parent : option component).

Definition _provided_of (c : component) : option (gmap string value) :=
  match c with
  | Component p _ => p
  end.

Definition parent_of (c : component) : option component :=
  match c with
  | Component _ p => p
  end.

(** A normalized entry [inject[key]]: [from] and, when the entry has a
    [default] property, its value. *)
Record injection : Type := Injection {
  from : string;
  default_of : option value
}.

(** [result] and the warnings given so far. *)
Record outcome : Type := Outcome {
  result : gmap string value;
  warnings : list string
}.

(** [while (source) { if (source._provided && hasOwn(source._provided,
    provideKey)) { ...; break }; source = source.$parent }]: the value
    found, or [None] when the loop ends with [source] unset. *)
Fixpoint provided_for (provideKey : string) (source : component)
  : option value :=
  match source with
  | Component p parent =>
      match p ≫= (fun m => m !! provideKey) with
      | Some v => Some v
      | None =>
          match parent with
          | Some source' => provided_for provideKey source'
          | None => None
          end
      end
  end.

Section WithCalls.

(** [provideDefault.call(vm)] for the function [f]. *)
Variable call : nat -> completion value.

(** [process.env.NODE_ENV !== 'production'] *)
Variable development : bool.

(** The loop of [resolveInject] over [keys]. *)
Fixpoint resolve_keys (keys : list (string * injection)) (vm : component)
         (acc : outcome) : completion outcome :=
  match keys with
  | [] => Normal acc
  | (key, entry) :: rest =>
      match provided_for (from entry) vm with
      | Some v =>
          resolve_keys rest vm (Outcome (<[key := v]> (result acc)) (warnings acc))
      | None =>
          match default_of entry with
          | Some (VFun f) =>
              match call f with
              | Normal v =>
                  resolve_keys rest vm
                    (Outcome (<[key := v]> (result acc)) (warnings acc))
              | Throw e => Throw e
              end
          | Some v =>
              resolve_keys rest vm
                (Outcome (<[key := v]> (result acc)) (warnings acc))
          | None =>
              resolve_keys rest vm
                (Outcome (result acc)
                   (if development then warnings acc ++ [key]
                    else warnings acc))
          end
      end
  end.

(** [resolveInject (inject, vm)], for the own enumerable keys of [inject]
    in their order; [Normal None] is the bare [undefined] for a missing
    [inject]. *)
Definition resolveInject (inject : option (list (string * injection)))
           (vm : component) : completion (option outcome) :=
  match inject with
  | None => Normal None
  | Some keys =>
      match resolve_keys keys vm (Outcome ∅ []) with
      | Normal o => Normal (Some o)
      | Throw e => Throw e
      end
  end.

End WithCalls.

(** *** Vocabulary of the properties *)

(** The component, its parent, the parent of that, and so on. *)
Fixpoint ancestors (c : component) : list component :=
  match c with
  | Component _ parent =>
      c :: match parent with
           | Some p => ancestors p
           | None => []
           end
  end.

(** The component provides something under the key. *)
Definition provides (k : string) (c : component) : option value :=
  _provided_of c ≫= (fun m => m !! k).

(** What a default gives when no ancestor provides the key. *)
Definition default_value (call : nat -> completion value) (entry : injection)
  : option (completion value) :=
  match default_of entry with
  | Some (VFun f) => Some (call f)
  | Some v => Some (Normal v)
  | None => None
  end.

(** A root that provides ["theme"] and ["lang"], a child that provides
    ["theme"] again, and a grandchild. *)
Definition root : component :=
  Component (Some {[ "theme" := VStr "light"; "lang" := VStr "en" ]}) None.

Definition middle : component :=
  Component (Some {[ "theme" := VStr "dark" ]}) (Some root).

Definition leaf : component := Component None (Some middle).

End Inject.

(** ** Namespaces of created elements (vdom/create-element.js) *)

Module CreateElement.

(** A [VNode] as [applyNS] reads and writes it.  The children of a node
    are taken to be distinct objects. *)
Inductive vnode : Type :=
| VNode (tag : option string) (ns : option string)
        (children : option (list vnode)).

Definition tag_of (v : vnode) : option string :=
  match v with
  | VNode tag _ _ => tag
  end.

Definition ns_of (v : vnode) : option string :=
  match v with
  | VNode _ ns _ => ns
  end.


(** [isDef(child.tag) && (isUndef(child.ns) || (isTrue(force) &&
    child.tag !== 'svg'))] *)
Definition visited (force : bool) (child : vnode) : bool :=
  bool_decide (is_Some (tag_of child)) &&
  (negb (bool_decide (is_Some (ns_of child))) ||
   (force && negb (bool_decide (tag_of child = Some "svg")))).

(** [applyNS (vnode, ns, force)]: the node afterwards. *)
Fixpoint applyNS (vnode : vnode) (ns : option string) (force : bool)
  : CreateElement.vnode :=
  match vnode with
  | VNode tag _ children =>
      let inner :=
        if bool_decide (tag = Some "foreignObject") then (None, true)
        else (ns, force) in
      VNode tag ns
        (option_map
           (map (fun child =>
                   if visited (snd inner) child
                   then applyNS child (fst inner) (snd inner)
                   else child))
           children)
  end.

(** *** Vocabulary of the properties *)







End CreateElement.

(** ** Props (util/props.js), as built for production: [assertProp] and
    the warnings are compiled out *)

Module Props.
Import Js.

(** [\s], on ASCII. *)
Definition is_space (c : ascii) : bool :=
  let n := nat_of_ascii c in
  (n =? 32)%nat || ((9 <=? n)%nat && (n <=? 13)%nat).

(** The parts of [/^\s*function (\w+)/]. *)
Fixpoint skip_spaces (s : string) : string :=
  match s with
  | String c rest => if is_space c then skip_spaces rest else s
  | EmptyString => EmptyString
  end.

Fixpoint strip_prefix (p s : string) : option string :=
  match p, s with
  | EmptyString, _ => Some s
  | String a p', String b s' =>
      if Ascii.eqb a b then strip_prefix p' s' else None
  | String _ _, EmptyString => None
  end.

Fixpoint take_word (s : string) : string :=
  match s with
  | String c rest =>
      if Path.is_word c then String c (take_word rest) else EmptyString
  | EmptyString => EmptyString
  end.

(** [text.match(/^\s*function (\w+)/)]: group 1 of the match, or [None]
    for [null]. *)
Definition match_function (text : string) : option string :=
  match strip_prefix "function " (skip_spaces text) with
  | Some rest =>
      match take_word rest with
      | EmptyString => None
      | name => Some name
      end
  | None => None
  end.

(** What [prop.type] can be: [null] or [undefined]; a constructor, by
    the text [toString()] gives for it; an array of constructors. *)
Inductive type_spec : Type :=
| TNull
| TOne (fn : string)
| TMany (fns : list string).

(** [fn.toString()] of a constructor or of an array of constructors:
    the array joins the texts of its members with commas. *)
Definition toString (t : type_spec) : string :=
  match t with
  | TNull => EmptyString
  | TOne fn => fn
  | TMany fns => Path.join "," fns
  end.

(** [getType (fn)] *)
Definition getType (fn : type_spec) : string :=
  match fn with
  | TNull => EmptyString
  | _ => default EmptyString (match_function (toString fn))
  end.

(** [isSameType (a, b)] *)
Definition isSameType (a b : type_spec) : bool :=
  String.eqb (getType a) (getType b).

(** The loop of [getTypeIndex] from index [i]. *)
Fixpoint first_same (type : type_spec) (expectedTypes : list string) (i : Z)
  : Z :=
  match expectedTypes with
  | [] => (-1)%Z
  | t :: rest =>
      if isSameType (TOne t) type then i else first_same type rest (i + 1)%Z
  end.

(** [getTypeIndex (type, expectedTypes)] *)
Definition getTypeIndex (type : type_spec) (expectedTypes : type_spec) : Z :=
  match expectedTypes with
  | TMany fns => first_same type fns 0%Z
  | _ => if isSameType expectedTypes type then 0%Z else (-1)%Z
  end.

(** The native constructors, by their text. *)
Definition Boolean : type_spec := TOne "function Boolean() { [native code] }".
Definition String' : type_spec := TOne "function String() { [native code] }".

(** [propOptions[key]]: [type], and [default] when the options have that
    property. *)
Record prop_options : Type := PropOptions {
  type : type_spec;
  default_of : option value
}.

(** The instance as [getPropDefaultValue] reads it:
    [vm.$options.propsData], when set, and [vm._props]. *)
Record instance : Type := Instance {
  propsData : option (gmap string value);
  _props : gmap string value
}.

(** The observer module as [validateProp] drives it: [shouldObserve] and
    the values [observe] was called on, each with the flag at the
    call. *)
Record observing : Type := Observing {
  shouldObserve : bool;
  observed : list (value * bool)
}.

Section WithHost.

(** [hyphenate] of [shared/util], which is not under src/, and
    [def.call(vm)] for the function [f]. *)
Variable hyphenate : string -> string.
Variable call : nat -> completion value.

(** [getPropDefaultValue (vm, prop, key)] *)
Definition getPropDefaultValue (vm : option instance) (prop : prop_options)
           (key : string) : completion value :=
  match default_of prop with
  | None => Normal VUndefined
  | Some def =>
      let kept :=
        match vm with
        | Some i =>
            match propsData i with
            | Some data =>
                match data !! key, _props i !! key with
                | (None | Some VUndefined), Some v =>
                    if strict_eq v VUndefined then None else Some v
                | _, _ => None
                end
            | None => None
            end
        | None => None
        end in
      match kept with
      | Some v => Normal v
      | None =>
          match def with
          | VFun f =>
              if negb (String.eqb (getType (type prop)) "Function")
              then call f else Normal def
          | _ => Normal def
          end
      end
  end.

(** The boolean casting of [validateProp]: [value] after it, from
    [propsData[key]], [None] when [propsData] has no such property. *)
Definition cast_boolean (key : string) (prop : prop_options)
           (passed : option value) : value :=
  let absent := negb (bool_decide (is_Some passed)) in
  let value := default VUndefined passed in
  let booleanIndex := getTypeIndex Boolean (type prop) in
  if (-1 <? booleanIndex)%Z then
    if absent && negb (bool_decide (is_Some (default_of prop))) then VBool false
    else if strict_eq value (VStr EmptyString)
            || strict_eq value (VStr (hyphenate key)) then
      let stringIndex := getTypeIndex String' (type prop) in
      if (stringIndex <? 0)%Z || (booleanIndex <? stringIndex)%Z
      then VBool true else value
    else value
  else value.

(** [validateProp (key, propOptions, propsData, vm)] *)
Definition validateProp (key : string) (prop : prop_options)
           (passed : option value) (vm : option instance) (o : observing)
  : completion value * observing :=
  let value := cast_boolean key prop passed in
  if strict_eq value VUndefined then
    match getPropDefaultValue vm prop key with
    | Throw e => (Throw e, o)
    | Normal value =>
        let prevShouldObserve := shouldObserve o in
        (Normal value,
         Observing prevShouldObserve (observed o ++ [(value, true)]))
    end
  else (Normal value, o).

End WithHost.

(** *** Vocabulary of the properties *)

(** The text of a function declared with the name. *)
Definition declares (name : string) (text : string) : Prop :=
  exists spaces rest,
    text = spaces +:+ "function " +:+ name +:+ rest /\
    (forall c, In c (list_ascii_of_string spaces) -> is_space c = true) /\
    name <> EmptyString /\
    (forall c, In c (list_ascii_of_string name) -> Path.is_word c = true) /\
    match rest with
    | String c _ => Path.is_word c = false
    | EmptyString => True
    end.

(** [hyphenate] as Vue has it on lower-case keys. *)
Definition no_hyphenation (s : string) : string := s.

End Props.

(** * Properties *)

(** ** [parsePath] *)

Module PathFacts.
Import Js Path.

Lemma bailRE_test_spec (path : string) :
  bailRE_test path = true <->
  exists c, In c (list_ascii_of_string path) /\ path_char c = false.
Proof.
  induction path as [|c rest IH]; simpl.
  - split; [discriminate | intros (c & [] & _)].
  - rewrite orb_true_iff, IH, negb_true_iff. split.
    + intros [Hc | (c' & Hin & Hc')]; [exists c | exists c']; auto.
    + intros (c' & [-> | Hin] & Hc'); [left | right; exists c']; auto.
Qed.

Lemma bailRE_test_false (path : string) :
  bailRE_test path = false <->
  forall c, In c (list_ascii_of_string path) -> path_char c = true.
Proof.
  rewrite <- not_true_iff_false, bailRE_test_spec. split.
  - intros Hno c Hin. destruct (path_char c) eqn:Hc; [done|].
    exfalso. apply Hno. eauto.
  - intros Hall (c & Hin & Hc). rewrite (Hall c Hin) in Hc. discriminate.
Qed.

Section Getter.
Variable prop : value -> string -> completion value.

Lemma get_prop_truthy (obj : value) (key : string) :
  truthy obj = true -> get_prop prop obj key = prop obj key.
Proof. destruct obj; simpl; congruence. Qed.

(** The closure raises nothing of its own: an exception it ends with is
    the exception of a property it read, on a truthy value. *)
Lemma path_getter_throws (segments : list string) (obj : value) (e : error) :
  path_getter prop segments obj = Throw e ->
  exists o key, truthy o = true /\ key ∈ segments /\ prop o key = Throw e.
Proof.
  revert obj. induction segments as [|seg rest IH]; intros obj; simpl; [done|].
  destruct (truthy obj) eqn:Ht; simpl; [|done].
  rewrite get_prop_truthy by done.
  destruct (prop obj seg) as [o|e'] eqn:Hp.
  - intros (o' & key & Ho' & Hkey & Hthrow)%IH.
    exists o', key. split; [done|]. split; [by right|done].
  - intros [= ->]. exists obj, seg. split; [done|]. split; [by left|done].
Qed.

(** When no property it reads throws, the closure returns. *)
Lemma path_getter_normal (segments : list string) (obj : value) :
  (forall o key, truthy o = true -> key ∈ segments ->
                 exists v, prop o key = Normal v) ->
  exists v, path_getter prop segments obj = Normal v.
Proof.
  intros Hquiet.
  destruct (path_getter prop segments obj) as [v|e] eqn:Hg; [by eauto|].
  apply path_getter_throws in Hg as (o & key & Ho & Hkey & Hthrow).
  destruct (Hquiet o key Ho Hkey) as (v & Hv). congruence.
Qed.

(** Once the walk reaches a falsy value with a segment still to read,
    the closure returns [undefined]. *)
Lemma path_getter_falsy (pre : list string) (seg : string)
      (post : list string) (obj v : value) :
  path_getter prop pre obj = Normal v ->
  truthy v = false ->
  path_getter prop (pre ++ seg :: post) obj = Normal VUndefined.
Proof.
  revert obj. induction pre as [|s pre IH]; intros obj Hwalk Hv; simpl in *.
  - injection Hwalk as ->. by rewrite Hv.
  - destruct (truthy obj) eqn:Ht; simpl in *; [|done].
    rewrite get_prop_truthy in * by done.
    destruct (prop obj s) as [o|e]; [by apply IH|done].
Qed.
End Getter.

Example parsePath_dotted : parsePath "a.b.c" = Some ["a"; "b"; "c"].
Proof. reflexivity. Qed.

Example parsePath_empty : parsePath "" = Some [""].
Proof. reflexivity. Qed.

Example parsePath_bracket : parsePath "a[0]" = None.
Proof. reflexivity. Qed.

Example path_getter_stops_at_zero :
  path_getter (fun _ _ => Normal (VNum 0)) ["a"; "b"] (VObj 0)
  = Normal VUndefined.
Proof. reflexivity. Qed.

Example path_getter_returns_last_falsy :
  path_getter (fun _ _ => Normal (VNum 0)) ["a"] (VObj 0) = Normal (VNum 0).
Proof. reflexivity. Qed.

End PathFacts.

(** ** The tick mechanism *)

Module TickFacts.
Import Js Tick.

Lemma tasks_macroTimerFunc (h : host) (st : state) :
  macroTimerFunc h st = request (timer_tasks h true) st.
Proof.
  unfold macroTimerFunc, timer_tasks.
  by destruct (nativeSetImmediate h), (nativeMessageChannel h).
Qed.

Lemma tasks_microTimerFunc (h : host) (st : state) :
  microTimerFunc h st = request (timer_tasks h false) st.
Proof.
  unfold microTimerFunc, timer_tasks.
  destruct (nativePromise h); [done|]. apply tasks_macroTimerFunc.
Qed.

(** Whatever the host offers, one call of the timer function asks for
    exactly one run of [flushCallbacks]. *)
Lemma timer_tasks_one_flush (h : host) (macro : bool) :
  length (filter is_flush (timer_tasks h macro)) = 1.
Proof.
  unfold timer_tasks.
  by destruct macro, (nativeSetImmediate h), (nativeMessageChannel h),
    (nativePromise h), (isIOS h).
Qed.

(** [nextTick] while a flush is pending: the entry is appended, nothing
    else moves. *)
Lemma nextTick_pending (h : host) (cb : option job) (ctx : nat) (st : state) :
  pending st = true ->
  snd (nextTick h cb ctx st) =
  State (callbacks st ++ [entry_of h (cb, ctx)]) true (useMacroTask st)
        (tasks st) (errors st) (called st) (resolved st).
Proof. intros Hp. unfold nextTick. simpl. by rewrite Hp. Qed.

(** [nextTick] while no flush is pending: the entry is appended, the flag
    is raised and the timer function is called once. *)
Lemma nextTick_idle (h : host) (cb : option job) (ctx : nat) (st : state) :
  pending st = false ->
  snd (nextTick h cb ctx st) =
  State (callbacks st ++ [entry_of h (cb, ctx)]) true (useMacroTask st)
        (tasks st ++ timer_tasks h (useMacroTask st)) (errors st) (called st)
        (resolved st).
Proof.
  intros Hp. unfold nextTick. simpl. rewrite Hp.
  destruct (useMacroTask st) eqn:Hm.
  - by rewrite tasks_macroTimerFunc.
  - by rewrite tasks_microTimerFunc.
Qed.

Lemma state_eta (st : state) :
  State (callbacks st) (pending st) (useMacroTask st) (tasks st) (errors st)
        (called st) (resolved st) = st.
Proof. by destruct st. Qed.

Lemma after_ticks_cons (h : host) (cb : option job) (ctx : nat)
      (cs : list (option job * nat)) (st : state) :
  after_ticks h cs (snd (nextTick h cb ctx st)) = after_ticks h ((cb, ctx) :: cs) st.
Proof.
  destruct (pending st) eqn:Hp.
  - rewrite nextTick_pending by done.
    destruct cs; simpl; rewrite ?Hp, ?app_nil_r; [done|].
    by rewrite <- app_assoc.
  - rewrite nextTick_idle by done.
    destruct cs; simpl; rewrite ?Hp, ?app_nil_r; [done|].
    by rewrite <- app_assoc.
Qed.

Lemma call_cb_spec (h : host) (ctx : nat) (body : list step) (st : state) :
  call_cb h ctx body st =
  match thrown_of_body body with
  | Some e => handleError e ctx "nextTick" (after_ticks h (ticks_of_body body) st)
  | None => after_ticks h (ticks_of_body body) st
  end.
Proof.
  revert st. induction body as [|[cb' ctx'|e] rest IH]; intros st;
    cbn [call_cb ticks_of_body thrown_of_body]; [done| |done].
  by rewrite IH, after_ticks_cons.
Qed.

Lemma pending_after_app (p : bool) (xs ys : list entry) :
  pending_after (pending_after p xs) ys = pending_after p (xs ++ ys).
Proof. by destruct xs, ys. Qed.

Lemma tasks_after_app (h : host) (p macro : bool) (xs ys : list entry) :
  tasks_after h p macro xs ++ tasks_after h (pending_after p xs) macro ys =
  tasks_after h p macro (xs ++ ys).
Proof. destruct xs, ys; simpl; rewrite ?app_nil_r; done. Qed.

Lemma labels_cons (e : entry) (batch : list entry) :
  labels (e :: batch) = labels [e] ++ labels batch.
Proof. unfold labels. simpl. by rewrite app_nil_r. Qed.

Lemma reports_cons (e : entry) (batch : list entry) :
  reports (e :: batch) = reports [e] ++ reports batch.
Proof. unfold reports. simpl. by rewrite app_nil_r. Qed.

(** The fields after one pushed arrow function ran. *)
Lemma call_entry_spec (h : host) (e : entry) (st : state) :
  let pushed := map (entry_of h) (ticks_of_body (body_of e)) in
  let st' := call_entry h e st in
  callbacks st' = callbacks st ++ pushed /\
  called st' = called st ++ labels [e] /\
  errors st' = errors st ++ reports [e] /\
  useMacroTask st' = useMacroTask st /\
  pending st' = pending_after (pending st) pushed /\
  tasks st' = tasks st ++ tasks_after h (pending st) (useMacroTask st) pushed.
Proof.
  unfold call_entry, labels, reports, body_of. simpl.
  destruct (entry_cb e) as [[l body]|]; simpl.
  - rewrite call_cb_spec.
    destruct (thrown_of_body body), (ticks_of_body body); simpl;
      rewrite ?app_nil_r; done.
  - destruct (entry_resolve e); simpl; rewrite ?app_nil_r; done.
Qed.

(** The fields after the arrow functions of [batch] ran in order. *)
Lemma drain_spec (h : host) (batch : list entry) (st : state) :
  let st' := fold_left (fun s e => call_entry h e s) batch st in
  callbacks st' = callbacks st ++ pushed_during h batch /\
  called st' = called st ++ labels batch /\
  errors st' = errors st ++ reports batch /\
  useMacroTask st' = useMacroTask st /\
  pending st' = pending_after (pending st) (pushed_during h batch) /\
  tasks st' =
    tasks st ++
    tasks_after h (pending st) (useMacroTask st) (pushed_during h batch).
Proof.
  revert st. induction batch as [|e batch IH]; intros st.
  - simpl. rewrite !app_nil_r. done.
  - cbn [fold_left].
    destruct (IH (call_entry h e st)) as (Hc & Hl & He & Hm & Hp & Ht).
    destruct (call_entry_spec h e st) as (Hc1 & Hl1 & He1 & Hm1 & Hp1 & Ht1).
    change (pushed_during h (e :: batch))
      with (map (entry_of h) (ticks_of_body (body_of e)) ++ pushed_during h batch).
    rewrite (labels_cons e batch), (reports_cons e batch).
    rewrite Hc, Hl, He, Hm, Hp, Ht, Hc1, Hl1, He1, Hm1, Hp1, Ht1.
    rewrite <- !app_assoc, pending_after_app, tasks_after_app. done.
Qed.

Lemma flushCallbacks_spec (h : host) (st : state) :
  let batch := callbacks st in
  let st' := flushCallbacks h st in
  callbacks st' = pushed_during h batch /\
  called st' = called st ++ labels batch /\
  errors st' = errors st ++ reports batch /\
  pending st' = pending_after false (pushed_during h batch) /\
  tasks st' =
    tasks st ++ tasks_after h false (useMacroTask st) (pushed_during h batch).
Proof.
  unfold flushCallbacks.
  destruct (drain_spec h (callbacks st)
              (State [] false (useMacroTask st) (tasks st) (errors st)
                     (called st) (resolved st)))
    as (Hc & Hl & He & _ & Hp & Ht).
  simpl in *. auto.
Qed.

(** C6. Draining copies and clears the live list and resets [pending]
    before the first copied callback runs: exactly the callbacks of the
    batch are called; those pushed by [nextTick] during the drain are not
    called in it but are the whole live list afterwards, and the first of
    them raised [pending] again and asked for exactly one new flush.
    While a flush is pending, [nextTick] appends and asks for nothing. *)
Theorem flush_starts_fresh_batch (h : host) (st : state) :
  let batch := callbacks st in
  let pushed := pushed_during h batch in
  let st' := flushCallbacks h st in
  called st' = called st ++ labels batch /\
  callbacks st' = pushed /\
  (pushed = [] -> pending st' = false /\ tasks st' = tasks st) /\
  (pushed <> [] ->
   pending st' = true /\
   tasks st' = tasks st ++ timer_tasks h (useMacroTask st) /\
   flushes st' = S (flushes st)) /\
  (forall cb ctx s,
     pending s = true ->
     let s' := snd (nextTick h cb ctx s) in
     callbacks s' = callbacks s ++ [entry_of h (cb, ctx)] /\
     pending s' = true /\ tasks s' = tasks s).
Proof.
  intros batch pushed st'.
  destruct (flushCallbacks_spec h st) as (Hc & Hl & _ & Hp & Ht).
  fold batch pushed st' in Hc, Hl, Hp, Ht.
  split; [done|]. split; [done|]. split; [|split].
  - intros Hnil. rewrite Hp, Ht, Hnil. simpl. by rewrite app_nil_r.
  - intros Hne. rewrite Hp, Ht. unfold flushes. rewrite Ht.
    destruct pushed; [done|]. simpl.
    rewrite filter_app, length_app, timer_tasks_one_flush.
    split; [done|split; [done|lia]].
  - intros cb ctx s Hs s'. subst s'. by rewrite nextTick_pending.
Qed.

Example two_pending_state :
  two_pending =
  State [Entry (Some noisy) 0 false; Entry (Some quiet) 0 false] true false
        [PromiseThen] [] [] [].
Proof. reflexivity. Qed.

Example drain_two_pending :
  flushCallbacks promise_host two_pending =
  State [Entry (Some (Job 3 [])) 0 false] true false
        [PromiseThen; PromiseThen] [(UserError 1, 0, "nextTick")] [1; 2] [].
Proof. reflexivity. Qed.

Lemma flush_starts_fresh_batch_witness :
  pushed_during promise_host (callbacks two_pending) <> [] /\
  pending two_pending = true /\
  (let st' := flushCallbacks promise_host two_pending in
   pending st' = true /\
   tasks st' =
     tasks two_pending ++ timer_tasks promise_host (useMacroTask two_pending) /\
   flushes st' = S (flushes two_pending)) /\
  (let s' := snd (nextTick promise_host None 0 two_pending) in
   callbacks s' = callbacks two_pending ++ [entry_of promise_host (None, 0)] /\
   pending s' = true /\ tasks s' = tasks two_pending).
Proof.
  destruct (flush_starts_fresh_batch promise_host two_pending)
    as (_ & _ & _ & Hfresh & Happend).
  split; [discriminate|]. split; [reflexivity|]. split.
  - apply Hfresh. discriminate.
  - apply Happend. reflexivity.
Defined.

End TickFacts.

(** ** [Dep] and [Watcher] *)

Module ObserverFacts.
Import Js Observer.

(** *** [remove] *)

Lemma remove_subseteq (x y : nat) (l : list nat) : y ∈ remove x l -> y ∈ l.
Proof.
  induction l as [|z l IH]; simpl; [done|].
  case_decide; set_solver.
Qed.

Lemma remove_other (x y : nat) (l : list nat) :
  y <> x -> y ∈ l -> y ∈ remove x l.
Proof.
  intros Hne. induction l as [|z l IH]; simpl; [done|].
  case_decide; set_solver.
Qed.

Lemma remove_NoDup (x : nat) (l : list nat) : NoDup l -> NoDup (remove x l).
Proof.
  induction 1 as [|z l Hz Hl IH]; simpl; [constructor|].
  case_decide; [done|]. constructor; [|done].
  intros Hin. by apply Hz, remove_subseteq with x.
Qed.

Lemma remove_gone (x : nat) (l : list nat) : NoDup l -> x ∉ remove x l.
Proof.
  induction 1 as [|z l Hz Hl IH]; simpl; [set_solver|].
  case_decide; set_solver.
Qed.

Lemma remove_absent (x : nat) (l : list nat) : x ∉ l -> remove x l = l.
Proof.
  induction l as [|z l IH]; simpl; [done|]. intros Hx.
  case_decide; [set_solver|]. f_equal. apply IH. set_solver.
Qed.

(** *** The [Dep]s *)

Lemma subs_of_addSub (d sub d' : nat) (st : state) :
  subs_of (addSub d sub st) d' =
  if decide (d = d') then subs_of st d ++ [sub] else subs_of st d'.
Proof.
  unfold subs_of, addSub. simpl. rewrite lookup_insert.
  by case_decide; subst.
Qed.

Lemma subs_of_removeSub (d sub d' : nat) (st : state) :
  subs_of (removeSub d sub st) d' =
  if decide (d = d') then remove sub (subs_of st d) else subs_of st d'.
Proof.
  unfold subs_of, removeSub. simpl. rewrite lookup_alter.
  case_decide; subst; [|done]. by destruct (subs st !! d').
Qed.

Lemma subs_of_update_watcher (w : nat) (f : watcher -> watcher) (st : state) (d : nat) :
  subs_of (update_watcher w f st) d = subs_of st d.
Proof. done. Qed.

Lemma unsubscribe_fold (w : nat) (keep : nat -> bool) (l : list nat) (st : state) :
  let st' := fold_left (fun s d => if keep d then s else removeSub d w s) l st in
  rest_of st' = rest_of st /\ watchers st' = watchers st /\
  (forall d x, x ∈ subs_of st' d -> x ∈ subs_of st d) /\
  (forall d x, x <> w -> x ∈ subs_of st d -> x ∈ subs_of st' d) /\
  (forall d, NoDup (subs_of st d) -> NoDup (subs_of st' d)) /\
  (forall d, NoDup (subs_of st d) -> d ∈ l -> keep d = false ->
             w ∉ subs_of st' d).
Proof.
  revert st. induction l as [|a l IH]; intros st; simpl.
  { repeat split; auto. intros d _ Hd. by apply not_elem_of_nil in Hd. }
  set (st1 := if keep a then st else removeSub a w st).
  destruct (IH st1) as (Hr & Hw & Hsub & Hoth & Hnd & Hgone).
  assert (rest_of st1 = rest_of st /\ watchers st1 = watchers st) as [Hr1 Hw1].
  { subst st1. by destruct (keep a). }
  assert (forall d x, x ∈ subs_of st1 d -> x ∈ subs_of st d) as Hsub1.
  { subst st1. intros d x. destruct (keep a); [done|].
    rewrite subs_of_removeSub. case_decide; subst; [|done].
    apply remove_subseteq. }
  assert (forall d x, x <> w -> x ∈ subs_of st d -> x ∈ subs_of st1 d) as Hoth1.
  { subst st1. intros d x Hx. destruct (keep a); [done|].
    rewrite subs_of_removeSub. case_decide; subst; [|done].
    by apply remove_other. }
  assert (forall d, NoDup (subs_of st d) -> NoDup (subs_of st1 d)) as Hnd1.
  { subst st1. intros d. destruct (keep a); [done|].
    rewrite subs_of_removeSub. case_decide; subst; [|done].
    apply remove_NoDup. }
  split; [congruence|]. split; [congruence|].
  split; [auto|]. split; [auto|]. split; [auto|].
  intros d Hd Hin Hk. apply elem_of_cons in Hin as [->|Hin]; [|auto].
  intros Hw'. apply Hsub in Hw'. subst st1. rewrite Hk in Hw'.
  rewrite subs_of_removeSub in Hw'. rewrite decide_True in Hw' by done.
  by apply remove_gone in Hw'.
Qed.

Lemma unsubscribe_spec (w : nat) (keep : nat -> bool) (ds : list nat) (st : state) :
  let st' := unsubscribe w keep ds st in
  rest_of st' = rest_of st /\ watchers st' = watchers st /\
  (forall d x, x ∈ subs_of st' d -> x ∈ subs_of st d) /\
  (forall d x, x <> w -> x ∈ subs_of st d -> x ∈ subs_of st' d) /\
  (forall d, NoDup (subs_of st d) -> NoDup (subs_of st' d)) /\
  (forall d, NoDup (subs_of st d) -> d ∈ ds -> keep d = false ->
             w ∉ subs_of st' d).
Proof.
  destruct (unsubscribe_fold w keep (reverse ds) st) as (H1 & H2 & H3 & H4 & H5 & H6).
  unfold unsubscribe. repeat split; auto.
  intros d Hd Hin. apply H6; [done|]. by apply elem_of_reverse.
Qed.

Lemma unsubscribe_keeps (w : nat) (keep : nat -> bool) (ds : list nat)
      (st : state) (d : nat) :
  keep d = true -> subs_of (unsubscribe w keep ds st) d = subs_of st d.
Proof.
  intros Hk. unfold unsubscribe. generalize (reverse ds). intros l.
  revert st. induction l as [|a l IH]; intros st; simpl; [done|].
  rewrite IH. destruct (keep a) eqn:Ha; [done|].
  rewrite subs_of_removeSub. destruct (decide (a = d)); [congruence|done].
Qed.

(** *** [addDep] *)

Lemma addDep_absent (w d : nat) (st : state) :
  watchers st !! w = None -> addDep w d st = st.
Proof. intros H. unfold addDep. by rewrite H. Qed.

Lemma addDep_known (w d : nat) (st : state) (this : watcher) :
  watchers st !! w = Some this -> d ∈ newDepIds this -> addDep w d st = st.
Proof. intros H Hd. unfold addDep. rewrite H. by rewrite decide_True. Qed.

Lemma addDep_fresh (w d : nat) (st : state) (this : watcher) :
  watchers st !! w = Some this ->
  d ∉ newDepIds this ->
  let st' := addDep w d st in
  let this' :=
    with_collecting (newDeps this ++ [d]) (newDepIds this ∪ {[d]}) this in
  rest_of st' = rest_of st /\
  watchers st' = <[w := this']> (watchers st) /\
  (forall d',
     subs_of st' d' =
     if decide (d = d' /\ d ∉ depIds this) then subs_of st d ++ [w]
     else subs_of st d').
Proof.
  intros H Hd. unfold addDep. rewrite H, decide_False by done.
  assert (alter (with_collecting (newDeps this ++ [d]) (newDepIds this ∪ {[d]}))
                w (watchers st)
          = <[w := with_collecting (newDeps this ++ [d]) (newDepIds this ∪ {[d]})
                     this]> (watchers st)) as Halt.
  { apply map_eq. intros i. rewrite lookup_alter, lookup_insert.
    case_decide; subst; [by rewrite H|done]. }
  destruct (decide (d ∈ depIds this)) as [Hin|Hnin]; simpl.
  - unfold update_watcher. simpl. rewrite Halt. repeat split.
    intros d'. rewrite decide_False by tauto. done.
  - unfold update_watcher. simpl. rewrite Halt. repeat split.
    intros d'. rewrite subs_of_addSub. unfold subs_of. simpl.
    destruct (decide (d = d')); subst.
    + by rewrite decide_True.
    + rewrite decide_False by tauto. done.
Qed.

Lemma rest_of_addDep (w d : nat) (st : state) :
  rest_of (addDep w d st) = rest_of st.
Proof.
  destruct (watchers st !! w) as [this|] eqn:H;
    [|by rewrite addDep_absent].
  destruct (decide (d ∈ newDepIds this)).
  - by rewrite (addDep_known _ _ _ this).
  - by destruct (addDep_fresh w d st this) as (-> & _).
Qed.

Lemma list_to_set_snoc (l : list nat) (d : nat) :
  list_to_set (C := gset nat) (l ++ [d]) = list_to_set l ∪ {[d]}.
Proof. rewrite list_to_set_app_L. simpl. by rewrite union_empty_r_L. Qed.

Lemma uid_rest (st st' : state) : rest_of st' = rest_of st -> uid st' = uid st.
Proof. unfold rest_of. congruence. Qed.

Lemma wf_addDep (w d : nat) (st : state) : wf st -> wf (addDep w d st).
Proof.
  intros Hwf.
  destruct (watchers st !! w) as [this|] eqn:H;
    [|by rewrite addDep_absent].
  destruct (decide (d ∈ newDepIds this)) as [Hin|Hnin];
    [by rewrite (addDep_known _ _ _ this)|].
  destruct (addDep_fresh w d st this H Hnin) as (Hr & Hw & Hs).
  destruct Hwf as (Hws & Hnd & Hreg).
  destruct (Hws w this H) as (Hle & Hd1 & Hd2 & He1 & He2).
  assert (d ∉ newDeps this) as Hnin'.
  { rewrite He2 in Hnin. by rewrite elem_of_list_to_set in Hnin. }
  split; [|split].
  - intros w' this'. rewrite Hw, lookup_insert, (uid_rest _ _ Hr).
    destruct (decide (w = w')) as [<-|Hww].
    + intros [= <-]. simpl. repeat split; try done.
      * apply NoDup_app. repeat split; [done| |apply NoDup_singleton].
        intros x Hx ->%list_elem_of_singleton. done.
      * by rewrite list_to_set_snoc, He2.
    + apply Hws.
  - intros d'. rewrite Hs.
    destruct (decide (d = d' /\ d ∉ depIds this)) as [Hc|]; [|done].
    destruct Hc as [<- Hnd']. apply NoDup_app.
    repeat split; [done| |apply NoDup_singleton].
    intros x Hx ->%list_elem_of_singleton.
    destruct (Hreg _ _ Hx) as (this0 & H0 & Hor).
    rewrite H in H0. injection H0 as <-.
    rewrite He1, elem_of_list_to_set in Hnd'. tauto.
  - intros d' w'. rewrite Hs, Hw. intros Hin.
    assert (w' ∈ subs_of st d' \/ (w' = w /\ d' = d)) as [Hold|[-> ->]].
    { destruct (decide (d = d' /\ d ∉ depIds this)) as [Hc|]; [|by left].
      destruct Hc as [<- _].
      apply elem_of_app in Hin as [? | ->%list_elem_of_singleton]; auto. }
    + destruct (Hreg _ _ Hold) as (this0 & H0 & Hor).
      destruct (decide (w' = w)) as [->|Hne].
      * rewrite lookup_insert_eq. eexists. split; [done|]. simpl.
        rewrite H in H0. injection H0 as <-.
        rewrite elem_of_app. tauto.
      * rewrite lookup_insert_ne by done. eauto.
    + rewrite lookup_insert_eq. eexists. split; [done|]. simpl.
      right. apply elem_of_app. right. by apply list_elem_of_singleton.
Qed.

(** *** Watchers as a map *)

Lemma alter_lookup_insert (f : watcher -> watcher) (w : nat)
      (m : gmap nat watcher) (this : watcher) :
  m !! w = Some this -> alter f w m = <[w := f this]> m.
Proof.
  intros H. apply map_eq. intros i. rewrite lookup_alter, lookup_insert.
  destruct (decide (w = i)); subst; [by rewrite H|done].
Qed.

Lemma configs_alter (f : watcher -> watcher) (w : nat) (m : gmap nat watcher) :
  (forall x, config_of (f x) = config_of x) ->
  config_of <$> alter f w m = config_of <$> m.
Proof.
  intros Hf. apply map_eq. intros i. rewrite !lookup_fmap, lookup_alter.
  destruct (decide (w = i)); subst; [|done].
  destruct (m !! i); simpl; [|done]. by rewrite Hf.
Qed.

Lemma configs_lookup (st : state) (w : nat) :
  configs st !! w = config_of <$> watchers st !! w.
Proof. apply lookup_fmap. Qed.

Lemma wf_ext (st st' : state) :
  watchers st' = watchers st -> subs st' = subs st -> uid st' = uid st ->
  wf st -> wf st'.
Proof.
  unfold wf, subs_of. intros -> -> ->. done.
Qed.

(** *** [pushTarget], [popTarget], [emit], [handleError] *)

Lemma wf_pushTarget (t : target_ref) (st : state) : wf st -> wf (pushTarget t st).
Proof. apply wf_ext; unfold pushTarget; by destruct (target st). Qed.

Lemma wf_popTarget (st : state) : wf st -> wf (popTarget st).
Proof. apply wf_ext; unfold popTarget; by destruct (last (targetStack st)). Qed.

Lemma wf_emit (e : event) (st : state) : wf st -> wf (emit e st).
Proof. by apply wf_ext. Qed.

Lemma wf_add_errors (l : list (error * string)) (st : state) :
  wf st -> wf (add_errors l st).
Proof. by apply wf_ext. Qed.

Lemma wf_removeSub (d w : nat) (st : state) : wf st -> wf (removeSub d w st).
Proof.
  intros (Hws & Hnd & Hreg). split; [done|]. split.
  - intros d'. rewrite subs_of_removeSub.
    destruct (decide (d = d')); [by apply remove_NoDup|done].
  - intros d' w'. rewrite subs_of_removeSub.
    destruct (decide (d = d')) as [<-|]; [|by apply Hreg].
    intros Hin%remove_subseteq. by apply Hreg.
Qed.

(** *** [cleanupDeps] *)

Lemma cleanupDeps_absent (w : nat) (st : state) :
  watchers st !! w = None -> cleanupDeps w st = st.
Proof. intros H. unfold cleanupDeps. by rewrite H. Qed.

Lemma cleanupDeps_spec (w : nat) (st : state) (this : watcher) :
  watchers st !! w = Some this ->
  let st' := cleanupDeps w st in
  rest_of st' = rest_of st /\
  watchers st' = <[w := with_swapped this]> (watchers st) /\
  (forall d x, x ∈ subs_of st' d -> x ∈ subs_of st d) /\
  (forall d x, x <> w -> x ∈ subs_of st d -> x ∈ subs_of st' d) /\
  (forall d, NoDup (subs_of st d) -> NoDup (subs_of st' d)) /\
  (forall d, NoDup (subs_of st d) -> d ∈ deps this -> d ∉ newDepIds this ->
             w ∉ subs_of st' d).
Proof.
  intros H. unfold cleanupDeps. rewrite H.
  destruct (unsubscribe_spec w (fun d => bool_decide (d ∈ newDepIds this))
              (deps this) st) as (Hr & Hw & H3 & H4 & H5 & H6).
  simpl. unfold update_watcher. simpl. rewrite Hw.
  rewrite (alter_lookup_insert _ _ _ this) by done.
  repeat split; auto.
  - intros d Hnd Hin Hnew. apply (H6 d); [done..|].
    by apply bool_decide_eq_false.
Qed.

Lemma rest_of_cleanupDeps (w : nat) (st : state) :
  rest_of (cleanupDeps w st) = rest_of st.
Proof.
  destruct (watchers st !! w) as [this|] eqn:H;
    [|by rewrite cleanupDeps_absent].
  by destruct (cleanupDeps_spec w st this H) as (-> & _).
Qed.

Lemma cleanupDeps_keeps (w : nat) (st : state) (this : watcher) (d : nat) :
  watchers st !! w = Some this ->
  d ∈ newDepIds this ->
  subs_of (cleanupDeps w st) d = subs_of st d.
Proof.
  intros H Hd. unfold cleanupDeps. rewrite H. rewrite subs_of_update_watcher.
  apply unsubscribe_keeps. by apply bool_decide_eq_true.
Qed.

Lemma wf_cleanupDeps (w : nat) (st : state) : wf st -> wf (cleanupDeps w st).
Proof.
  intros Hwf.
  destruct (watchers st !! w) as [this|] eqn:H;
    [|by rewrite cleanupDeps_absent].
  destruct (cleanupDeps_spec w st this H) as (Hr & Hw & Hsub & Hoth & Hnd' & Hgone).
  destruct Hwf as (Hws & Hnd & Hreg).
  destruct (Hws w this H) as (Hle & Hd1 & Hd2 & He1 & He2).
  split; [|split].
  - intros w' this'. rewrite Hw, lookup_insert, (uid_rest _ _ Hr).
    destruct (decide (w = w')) as [<-|Hww]; [|apply Hws].
    intros [= <-]. simpl. repeat split; try done. apply NoDup_nil_2.
  - intros d. apply Hnd', Hnd.
  - intros d w' Hin. rewrite Hw.
    destruct (Hreg _ _ (Hsub _ _ Hin)) as (this0 & H0 & Hor).
    destruct (decide (w' = w)) as [->|Hne].
    + rewrite lookup_insert_eq. eexists. split; [done|]. simpl. left.
      rewrite H in H0. injection H0 as <-.
      destruct (decide (d ∈ newDeps this)) as [|Hnew]; [done|].
      destruct Hor as [Hold|]; [|done]. exfalso.
      apply (Hgone d); [apply Hnd|done| |done].
      by rewrite He2, elem_of_list_to_set.
    + rewrite lookup_insert_ne by done. eauto.
Qed.

(** *** Dependency collection leaves the configuration alone *)

Lemma configs_addDep (w d : nat) (st : state) :
  configs (addDep w d st) = configs st.
Proof.
  unfold addDep. destruct (watchers st !! w) as [this|]; [|done].
  destruct (decide (d ∈ newDepIds this)); [done|].
  destruct (decide (d ∈ depIds this)); unfold configs; simpl;
    by apply configs_alter.
Qed.

Lemma configs_depend (d : nat) (st : state) : configs (depend d st) = configs st.
Proof. unfold depend. destruct (target st); auto using configs_addDep. Qed.

Lemma rest_of_depend (d : nat) (st : state) : rest_of (depend d st) = rest_of st.
Proof. unfold depend. destruct (target st); auto using rest_of_addDep. Qed.

Lemma wf_depend (d : nat) (st : state) : wf st -> wf (depend d st).
Proof. unfold depend. destruct (target st); auto using wf_addDep. Qed.

Lemma depend_all_preserves (ds : list nat) (st : state) :
  configs (depend_all ds st) = configs st /\
  rest_of (depend_all ds st) = rest_of st /\
  (wf st -> wf (depend_all ds st)).
Proof.
  unfold depend_all. revert st. induction ds as [|d ds IH]; intros st; simpl.
  - done.
  - destruct (IH (depend d st)) as (Hc & Hr & Hwf).
    rewrite Hc, Hr, configs_depend, rest_of_depend.
    split; [done|split; [done|]]. intros Hst. by apply Hwf, wf_depend.
Qed.

Lemma configs_cleanupDeps (w : nat) (st : state) :
  configs (cleanupDeps w st) = configs st.
Proof.
  destruct (watchers st !! w) as [this|] eqn:H;
    [|by rewrite cleanupDeps_absent].
  destruct (cleanupDeps_spec w st this H) as (_ & Hw & _).
  unfold configs. rewrite Hw. apply map_eq. intros i.
  rewrite !lookup_fmap, lookup_insert.
  destruct (decide (w = i)) as [<-|]; [|done]. by rewrite H.
Qed.

(** While the target is [w], [Dep.depend] is [w.addDep]. *)
Lemma depend_all_target (w : nat) (ds : list nat) (st : state) :
  target st = TWatcher w ->
  depend_all ds st = fold_left (fun s d => addDep w d s) ds st.
Proof.
  unfold depend_all. revert st. induction ds as [|d ds IH]; intros st Ht; simpl.
  - done.
  - unfold depend at 2. rewrite Ht. apply IH.
    pose proof (rest_of_addDep w d st) as Hr. unfold rest_of in Hr. congruence.
Qed.

(** What a run of [addDep] calls leaves in the watcher. *)
Lemma collect_spec (w : nat) (ds : list nat) (st : state) (this : watcher) :
  wf st ->
  watchers st !! w = Some this ->
  exists this',
    watchers (fold_left (fun s d => addDep w d s) ds st) !! w = Some this' /\
    deps this' = deps this /\ depIds this' = depIds this /\
    (forall d, d ∈ newDeps this' <-> d ∈ newDeps this \/ d ∈ ds).
Proof.
  revert st this. induction ds as [|d ds IH]; intros st this Hwf H; simpl.
  - exists this. repeat split; auto. set_solver.
  - destruct (decide (d ∈ newDepIds this)) as [Hin|Hnin].
    + rewrite (addDep_known _ _ _ this) by done.
      destruct (IH st this Hwf H) as (this' & H' & Hd & Hi & Hn).
      exists this'. repeat split; auto; rewrite Hn; [set_solver|].
      intros [|[->|]%elem_of_cons]; auto. left.
      destruct Hwf as (Hws & _). destruct (Hws w this H) as (_ & _ & _ & _ & He2).
      by rewrite He2, elem_of_list_to_set in Hin.
    + destruct (addDep_fresh w d st this H Hnin) as (_ & Hw & _).
      destruct (IH (addDep w d st)
                  (with_collecting (newDeps this ++ [d]) (newDepIds this ∪ {[d]}) this))
        as (this' & H' & Hd & Hi & Hn).
      { by apply wf_addDep. }
      { by rewrite Hw, lookup_insert_eq. }
      exists this'. repeat split; auto; rewrite Hn; simpl; set_solver.
Qed.

Lemma addDep_subs_mono (w d' d x : nat) (st : state) :
  x ∈ subs_of st d -> x ∈ subs_of (addDep w d' st) d.
Proof.
  intros Hx. destruct (watchers st !! w) as [this|] eqn:H;
    [|by rewrite addDep_absent].
  destruct (decide (d' ∈ newDepIds this)) as [Hin|Hnin];
    [by rewrite (addDep_known _ _ _ this)|].
  destruct (addDep_fresh w d' st this H Hnin) as (_ & _ & Hs).
  rewrite Hs. destruct (decide (d' = d /\ d' ∉ depIds this)) as [[<- _]|]; [|done].
  apply elem_of_app. by left.
Qed.

Lemma collect_subs_mono (w : nat) (ds : list nat) (d x : nat) (st : state) :
  x ∈ subs_of st d ->
  x ∈ subs_of (fold_left (fun s d => addDep w d s) ds st) d.
Proof.
  revert st. induction ds as [|a ds IH]; intros st Hx; simpl; [done|].
  by apply IH, addDep_subs_mono.
Qed.

(** A [Dep] read in the pass that was no dependency before has the
    watcher in [subs] when collection is over. *)
Lemma collect_subscribes (w : nat) (ds : list nat) (d : nat) (st : state)
      (this : watcher) :
  watchers st !! w = Some this ->
  d ∈ ds ->
  d ∉ depIds this ->
  (d ∈ newDepIds this -> w ∈ subs_of st d) ->
  w ∈ subs_of (fold_left (fun s d => addDep w d s) ds st) d.
Proof.
  revert st this. induction ds as [|a ds IH]; intros st this H Hin Hold Hnew;
    [by apply not_elem_of_nil in Hin|].
  simpl. destruct (decide (a ∈ newDepIds this)) as [Ha|Ha].
  - rewrite (addDep_known _ _ _ this) by done.
    apply elem_of_cons in Hin as [->|Hin].
    + apply collect_subs_mono. auto.
    + by apply (IH st this).
  - destruct (addDep_fresh w a st this H Ha) as (_ & Hw & Hs).
    apply elem_of_cons in Hin as [->|Hin].
    + apply collect_subs_mono. rewrite Hs, decide_True by done.
      apply elem_of_app. right. by apply list_elem_of_singleton.
    + apply (IH _ (with_collecting (newDeps this ++ [a]) (newDepIds this ∪ {[a]}) this)).
      * by rewrite Hw, lookup_insert_eq.
      * done.
      * done.
      * simpl. intros [Hd| ->%elem_of_singleton]%elem_of_union.
        -- apply addDep_subs_mono. auto.
        -- rewrite Hs, decide_True by done.
           apply elem_of_app. right. by apply list_elem_of_singleton.
Qed.

(** *** [get] *)

Lemma add_errors_nil (st : state) : add_errors [] st = st.
Proof. destruct st. unfold add_errors. simpl. by rewrite app_nil_r. Qed.

Lemma depend_all_app (xs ys : list nat) (st : state) :
  depend_all (xs ++ ys) st = depend_all ys (depend_all xs st).
Proof. apply fold_left_app. Qed.

(** [get] as one pipeline: push, call the getter and collect, report,
    pop, clean up. *)
Lemma get_unfold (w : nat) (ev : evaluation) (st : state) (this : watcher) :
  watchers st !! w = Some this ->
  get w ev st =
  (get_outcome this ev,
   cleanupDeps w
     (popTarget
        (add_errors (get_reports this ev)
           (depend_all (pass_reads this ev)
              (emit (EvGetter w) (pushTarget (TWatcher w) st)))))).
Proof.
  intros H. unfold get, get_outcome, get_reports, pass_reads. rewrite H.
  destruct (call_getter this ev) as [rs [v|e]]; simpl.
  - rewrite add_errors_nil.
    destruct (deep this); [by rewrite depend_all_app|by rewrite app_nil_r].
  - destruct (user this), (deep this); simpl;
      rewrite ?app_nil_r, ?add_errors_nil; done.
Qed.

Lemma get_absent (w : nat) (ev : evaluation) (st : state) :
  watchers st !! w = None -> get w ev st = (Normal VUndefined, st).
Proof. intros H. unfold get. by rewrite H. Qed.

Lemma configs_get (w : nat) (ev : evaluation) (st : state) :
  configs (snd (get w ev st)) = configs st.
Proof.
  destruct (watchers st !! w) as [this|] eqn:H; [|by rewrite get_absent].
  rewrite (get_unfold _ _ _ this) by done. simpl.
  rewrite configs_cleanupDeps.
  transitivity (configs (depend_all (pass_reads this ev)
                           (emit (EvGetter w) (pushTarget (TWatcher w) st)))).
  { unfold popTarget. by destruct (last _). }
  destruct (depend_all_preserves (pass_reads this ev)
              (emit (EvGetter w) (pushTarget (TWatcher w) st))) as (-> & _).
  unfold pushTarget. by destruct (target st).
Qed.

Lemma wf_get (w : nat) (ev : evaluation) (st : state) :
  wf st -> wf (snd (get w ev st)).
Proof.
  intros Hwf.
  destruct (watchers st !! w) as [this|] eqn:H; [|by rewrite get_absent].
  rewrite (get_unfold _ _ _ this) by done. simpl.
  apply wf_cleanupDeps, wf_popTarget, wf_add_errors, depend_all_preserves,
    wf_emit, wf_pushTarget, Hwf.
Qed.

Lemma rest_of_pop_report (l : list (error * string)) (s1 s2 : state) :
  rest_of s1 = rest_of s2 ->
  rest_of (popTarget (add_errors l s1)) = rest_of (popTarget (add_errors l s2)).
Proof.
  unfold rest_of, popTarget, add_errors. simpl. intros [= Ht Hs Hc Hu He Hq Hv].
  rewrite Hs. destruct (last (targetStack s2)); simpl; congruence.
Qed.

(** Everything but the [Dep]s and the watchers, after [get]. *)
Lemma rest_of_get (w : nat) (ev : evaluation) (st : state) (this : watcher) :
  watchers st !! w = Some this ->
  rest_of (snd (get w ev st)) =
  (fst (target_after_get st), snd (target_after_get st), components st,
   uid st, errors st ++ get_reports this ev, queue st,
   events st ++ [EvGetter w]).
Proof.
  intros H. rewrite (get_unfold _ _ _ this) by done. simpl.
  rewrite rest_of_cleanupDeps.
  destruct (depend_all_preserves (pass_reads this ev)
              (emit (EvGetter w) (pushTarget (TWatcher w) st))) as (_ & Hr & _).
  rewrite (rest_of_pop_report _ _ _ Hr).
  unfold rest_of, popTarget, add_errors, emit, pushTarget, target_after_get.
  destruct (target st) as [| |x]; simpl.
  - by destruct (last (targetStack st)).
  - by destruct (last (targetStack st)).
  - rewrite last_snoc. simpl. by rewrite removelast_last.
Qed.

(** *** Updates of a watcher that leave its dependency lists alone *)

Lemma wf_update_watcher (w : nat) (f : watcher -> watcher) (st : state) :
  keeps_deps f -> wf st -> wf (update_watcher w f st).
Proof.
  intros Hf (Hws & Hnd & Hreg). split; [|split].
  - intros w' this'. unfold update_watcher. simpl. rewrite lookup_alter.
    destruct (decide (w = w')) as [<-|]; [|apply Hws].
    destruct (watchers st !! w) as [this|] eqn:H; [|done].
    intros [= <-]. destruct (Hf this) as (-> & -> & -> & ->). by apply Hws.
  - done.
  - intros d w' Hin. destruct (Hreg d w' Hin) as (this0 & H0 & Hor).
    unfold update_watcher. simpl. rewrite lookup_alter.
    destruct (decide (w = w')) as [<-|]; [|eauto].
    rewrite H0. simpl. eexists. split; [done|].
    by destruct (Hf this0) as (-> & -> & _).
Qed.

Lemma keeps_deps_with_value (v : Js.value) : keeps_deps (with_value v).
Proof. by intros x. Qed.

Lemma keeps_deps_with_dirty (b : bool) : keeps_deps (with_dirty b).
Proof. by intros x. Qed.

Lemma keeps_deps_with_active (b : bool) : keeps_deps (with_active b).
Proof. by intros x. Qed.

(** *** [teardown] *)

Lemma teardown_absent (w : nat) (st : state) :
  watchers st !! w = None -> teardown w st = st.
Proof. intros H. unfold teardown. by rewrite H. Qed.

Lemma teardown_inactive (w : nat) (st : state) (this : watcher) :
  watchers st !! w = Some this -> active this = false -> teardown w st = st.
Proof. intros H Ha. unfold teardown. by rewrite H, Ha. Qed.

Lemma forget_watcher_keeps (w : nat) (this : watcher) (st : state) :
  subs (forget_watcher w this st) = subs st /\
  watchers (forget_watcher w this st) = watchers st /\
  uid (forget_watcher w this st) = uid st.
Proof.
  unfold forget_watcher. destruct (components st !! vm this) as [c|]; [|done].
  by destruct (_isBeingDestroyed c).
Qed.

Lemma teardown_active (w : nat) (st : state) (this : watcher) :
  watchers st !! w = Some this ->
  active this = true ->
  teardown w st =
  update_watcher w (with_active false)
    (unsubscribe w (fun _ => false) (deps this) (forget_watcher w this st)).
Proof. intros H Ha. unfold teardown. by rewrite H, Ha. Qed.

Lemma wf_unsubscribe (w : nat) (keep : nat -> bool) (ds : list nat) (st : state) :
  wf st -> wf (unsubscribe w keep ds st).
Proof.
  intros (Hws & Hnd & Hreg).
  destruct (unsubscribe_spec w keep ds st) as (Hr & Hw & Hsub & _ & Hnd' & _).
  split; [|split].
  - intros w' this'. rewrite Hw, (uid_rest _ _ Hr). apply Hws.
  - intros d. apply Hnd', Hnd.
  - intros d w' Hin. rewrite Hw. apply Hreg, Hsub, Hin.
Qed.

Lemma wf_teardown (w : nat) (st : state) : wf st -> wf (teardown w st).
Proof.
  intros Hwf.
  destruct (watchers st !! w) as [this|] eqn:H; [|by rewrite teardown_absent].
  destruct (active this) eqn:Ha; [|by rewrite (teardown_inactive _ _ this)].
  rewrite (teardown_active _ _ this) by done.
  apply wf_update_watcher; [apply keeps_deps_with_active|].
  apply wf_unsubscribe.
  destruct (forget_watcher_keeps w this st) as (Hs & Hw & Hu).
  by apply (wf_ext st).
Qed.

(** *** [run], [update], [evaluate], [depend], the constructor *)

Lemma wf_run (w : nat) (ev : evaluation) (cb : completion unit) (st : state) :
  wf st -> wf (snd (run w ev cb st)).
Proof.
  intros Hwf. unfold run.
  destruct (watchers st !! w) as [this|]; [|done].
  destruct (active this); [|done].
  pose proof (wf_get w ev st Hwf) as Hg.
  destruct (get w ev st) as [[v|e] st1]; simpl in *; [|done].
  destruct (watchers st1 !! w) as [this1|]; [|done].
  destruct (negb (strict_eq v (value this1)) || isObject v || deep this1);
    [|done].
  assert (wf (emit (EvCallback w v (value this1))
                (update_watcher w (with_value v) st1))) as Hwf'.
  { apply wf_emit, wf_update_watcher; [apply keeps_deps_with_value|done]. }
  destruct (user this1), cb; simpl; done.
Qed.

Lemma wf_queueWatcher (w : nat) (st : state) : wf st -> wf (queueWatcher w st).
Proof.
  unfold queueWatcher. destruct (bool_decide (w ∈ queue st)); [done|].
  by apply wf_ext.
Qed.

Lemma wf_update (w : nat) (ev : evaluation) (cb : completion unit) (st : state) :
  wf st -> wf (snd (update w ev cb st)).
Proof.
  intros Hwf. unfold update.
  destruct (watchers st !! w) as [this|]; [|done].
  destruct (lazy this); simpl.
  { apply wf_update_watcher; [apply keeps_deps_with_dirty|done]. }
  destruct (sync this); [by apply wf_run|by apply wf_queueWatcher].
Qed.

Lemma wf_evaluate (w : nat) (ev : evaluation) (st : state) :
  wf st -> wf (snd (evaluate w ev st)).
Proof.
  intros Hwf. unfold evaluate.
  pose proof (wf_get w ev st Hwf) as Hg.
  destruct (get w ev st) as [[v|e] st1]; simpl in *; [|done].
  by apply wf_update_watcher.
Qed.

Lemma wf_watcher_depend (w : nat) (st : state) : wf st -> wf (watcher_depend w st).
Proof.
  intros Hwf. unfold watcher_depend.
  destruct (watchers st !! w) as [this|]; [|done].
  by apply depend_all_preserves.
Qed.

Lemma wf_new_Watcher (vmid : nat) (e : expOrFn) (opts : option options)
      (r : bool) (ev : evaluation) (st : state) :
  wf st -> wf (snd (new_Watcher vmid e opts r ev st)).
Proof.
  intros (Hws & Hnd & Hreg). unfold new_Watcher.
  set (o := default (Options false false false false None) opts).
  set (c1 := Component _ _ _).
  set (this := Watcher _ _ _ _ _ _ _ _ _ _ _ _ _ _ _ _).
  set (st1 := set_uid _ _).
  assert (wf st1) as Hwf1.
  { split; [|split].
    - intros w' this'. subst st1. simpl. rewrite lookup_insert.
      destruct (decide (S (uid st) = w')) as [<-|].
      + intros [= <-]. simpl. repeat split; auto using NoDup_nil_2.
      + intros H'. destruct (Hws _ _ H') as (Hle & Hrest). split; [lia|done].
    - done.
    - intros d w' Hin. destruct (Hreg d w' Hin) as (this0 & H0 & Hor).
      subst st1. simpl. rewrite lookup_insert_ne; [eauto|].
      destruct (Hws _ _ H0) as (Hle & _). lia. }
  destruct (opt_lazy o); [done|].
  pose proof (wf_get (S (uid st)) ev st1 Hwf1) as Hg.
  destruct (get (S (uid st)) ev st1) as [[v|err] st2]; simpl in *; [|done].
  apply wf_update_watcher; [apply keeps_deps_with_value|done].
Qed.

Lemma wf_init : wf init.
Proof.
  split; [|split].
  - intros w this. unfold init. simpl. by rewrite lookup_empty.
  - intros d. unfold subs_of, init. simpl. rewrite lookup_empty. apply NoDup_nil_2.
  - intros d w. unfold subs_of, init. simpl. rewrite lookup_empty. simpl.
    by intros ?%not_elem_of_nil.
Qed.

Lemma wf_step (st : state) (o : op) : wf st -> wf (step st o).
Proof.
  destruct o; simpl;
    auto using wf_new_Watcher, wf_get, wf_run, wf_update, wf_evaluate,
      wf_watcher_depend, wf_teardown, wf_addDep, wf_cleanupDeps, wf_depend,
      wf_removeSub, wf_pushTarget, wf_popTarget.
Qed.

Lemma wf_exec (ops : list op) (st : state) : wf st -> wf (exec ops st).
Proof.
  unfold exec. revert st. induction ops as [|o ops IH]; intros st Hwf; simpl.
  - done.
  - by apply IH, wf_step.
Qed.

(** *** Claims about [get] *)

(** For a getter that reaches the two classes through [dep.depend()]
    only: after a pass of [get] on a watcher that is not already in a pass,
    [deps] holds exactly the [Dep]s whose [depend()] ran during the pass,
    each once, [depIds] is the set of their ids, the pending lists are
    empty again, every [Dep] of the previous pass that was not read again
    no longer has the watcher in its [subs], and every [Dep] read for the
    first time has it. *)
Theorem get_collects_exactly_the_reads
        (w : nat) (ev : evaluation) (st : state) (this : watcher) :
  wf st ->
  watchers st !! w = Some this ->
  quiescent this ->
  exists this',
    watchers (snd (get w ev st)) !! w = Some this' /\
    (forall d, d ∈ deps this' <-> d ∈ pass_reads this ev) /\
    NoDup (deps this') /\
    depIds this' = list_to_set (pass_reads this ev) /\
    quiescent this' /\
    (forall d, d ∈ deps this -> d ∉ pass_reads this ev ->
               w ∉ subs_of (snd (get w ev st)) d) /\
    (forall d, d ∈ pass_reads this ev -> d ∉ deps this ->
               w ∈ subs_of (snd (get w ev st)) d).
Proof.
  intros Hwf H [Hq1 Hq2].
  rewrite (get_unfold _ _ _ this) by done. simpl.
  set (st1 := emit (EvGetter w) (pushTarget (TWatcher w) st)).
  assert (wf st1) as Hwf1 by apply wf_emit, wf_pushTarget, Hwf.
  assert (watchers st1 !! w = Some this) as H1.
  { subst st1. unfold pushTarget. by destruct (target st). }
  assert (target st1 = TWatcher w) as Ht1.
  { subst st1. unfold pushTarget. by destruct (target st). }
  rewrite (depend_all_target w) by done.
  destruct (collect_spec w (pass_reads this ev) st1 this Hwf1 H1)
    as (this2 & H2 & Hd2 & Hi2 & Hn2).
  set (st2 := fold_left _ _ st1) in *.
  assert (wf st2) as Hwf2.
  { subst st2. rewrite <- (depend_all_target w) by done.
    by apply depend_all_preserves. }
  set (st4 := popTarget (add_errors (get_reports this ev) st2)).
  assert (wf st4) as Hwf4 by apply wf_popTarget, wf_add_errors, Hwf2.
  assert (watchers st4 !! w = Some this2) as H4.
  { subst st4. unfold popTarget. by destruct (last _). }
  destruct (cleanupDeps_spec w st4 this2 H4) as (_ & Hw5 & _ & _ & _ & Hgone).
  destruct Hwf4 as (Hws4 & Hnd4 & _).
  destruct (Hws4 w this2 H4) as (_ & _ & Hnd2 & _ & He2).
  assert (forall d, d ∈ newDeps this2 <-> d ∈ pass_reads this ev) as Hmem.
  { intros d. rewrite Hn2, Hq1. set_solver. }
  exists (with_swapped this2). rewrite Hw5, lookup_insert_eq. simpl.
  split; [done|]. split; [done|]. split; [done|]. split.
  { rewrite He2. apply set_eq. intros d.
    by rewrite !elem_of_list_to_set. }
  split; [done|]. split.
  - intros d Hold Hnot. apply Hgone; [apply Hnd4|by rewrite Hd2|].
    by rewrite He2, elem_of_list_to_set, Hmem.
  - intros d Hread Hnew.
    rewrite (cleanupDeps_keeps w st4 this2) by
      (done || by rewrite He2, elem_of_list_to_set, Hmem).
    assert (subs_of st4 d = subs_of st2 d) as ->.
    { subst st4. unfold subs_of, popTarget. by destruct (last _). }
    subst st2. apply (collect_subscribes w _ d st1 this); [done..| |].
    + destruct Hwf1 as (Hws1 & _).
      destruct (Hws1 w this H1) as (_ & _ & _ & He1 & _).
      by rewrite He1, elem_of_list_to_set.
    + rewrite Hq2. by intros ?%not_elem_of_empty.
Qed.

(** The watcher that [get] leaves behind has the configuration it had. *)
Lemma get_keeps_config (w : nat) (ev : evaluation) (st : state) (this : watcher) :
  watchers st !! w = Some this ->
  exists this',
    watchers (snd (get w ev st)) !! w = Some this' /\
    config_of this' = config_of this.
Proof.
  intros H. pose proof (configs_get w ev st) as Hc.
  apply (f_equal (fun m => m !! w)) in Hc. rewrite !configs_lookup, H in Hc.
  destruct (watchers (snd (get w ev st)) !! w) as [this'|]; [|done].
  exists this'. split; [done|].
  change (Some (config_of this') = Some (config_of this)) in Hc. congruence.
Qed.

Lemma events_get (w : nat) (ev : evaluation) (st : state) (this : watcher) :
  watchers st !! w = Some this ->
  events (snd (get w ev st)) = events st ++ [EvGetter w] /\
  errors (snd (get w ev st)) = errors st ++ get_reports this ev.
Proof.
  intros H. pose proof (rest_of_get w ev st this H) as Hr.
  unfold rest_of in Hr. by injection Hr.
Qed.

(** C8. When the evaluator throws, [get] on a user-defined watcher hands
    the error to [handleError] and returns [undefined] without touching
    the stored value; on any other watcher the error reaches the caller
    and nothing is reported. *)
Theorem get_evaluator_throws
        (w : nat) (ev : evaluation) (st : state) (this : watcher) (e : error) :
  watchers st !! w = Some this ->
  getter this <> GNoop ->
  result ev = Throw e ->
  exists this',
    watchers (snd (get w ev st)) !! w = Some this' /\
    value this' = value this /\
    if user this
    then fst (get w ev st) = Normal VUndefined /\
         errors (snd (get w ev st)) = errors st ++ [(e, getter_info this)]
    else fst (get w ev st) = Throw e /\
         errors (snd (get w ev st)) = errors st.
Proof.
  intros H Hg He.
  destruct (get_keeps_config w ev st this H) as (this' & H' & Hc).
  destruct (events_get w ev st this H) as (_ & Herr).
  exists this'. split; [done|]. split; [unfold config_of in Hc; congruence|].
  rewrite Herr, (get_unfold _ _ _ this) by done.
  unfold get_outcome, get_reports, call_getter. simpl.
  destruct (getter this); try done; simpl; rewrite He;
    destruct (user this); by rewrite ?app_nil_r.
Qed.

(** *** [run] *)

Lemma run_absent (w : nat) (ev : evaluation) (cb : completion unit) (st : state) :
  watchers st !! w = None -> run w ev cb st = (Normal tt, st).
Proof. intros H. unfold run. by rewrite H. Qed.

Lemma run_inactive (w : nat) (ev : evaluation) (cb : completion unit)
      (st : state) (this : watcher) :
  watchers st !! w = Some this -> active this = false ->
  run w ev cb st = (Normal tt, st).
Proof. intros H Ha. unfold run. by rewrite H, Ha. Qed.


(** [run] on an active watcher whose evaluation threw: only an internal
    watcher lets that happen, and its callback is not called. *)
Lemma run_threw (w : nat) (ev : evaluation) (cb : completion unit)
      (st : state) (this : watcher) (e : error) :
  watchers st !! w = Some this ->
  active this = true ->
  get_outcome this ev = Throw e ->
  run w ev cb st = (Throw e, snd (get w ev st)).
Proof.
  intros H Ha Hv. unfold run. rewrite H, Ha.
  assert (fst (get w ev st) = Throw e) as Hfst.
  { by rewrite (get_unfold _ _ _ this). }
  destruct (get w ev st) as [r st1]. simpl in *. by subst r.
Qed.

Lemma update_watcher_lookup (w : nat) (f : watcher -> watcher) (st : state)
      (this : watcher) :
  watchers st !! w = Some this ->
  watchers (update_watcher w f st) !! w = Some (f this).
Proof.
  intros H. unfold update_watcher. simpl.
  by rewrite lookup_alter, decide_True, H.
Qed.



(** *** [Dep.target] across [get] *)


(** When nothing is the target and the stack is empty, [get] leaves
    [undefined]. *)
Lemma get_leaves_undefined
      (w : nat) (ev : evaluation) (st : state) (this : watcher) :
  watchers st !! w = Some this ->
  (forall x, target st <> TWatcher x) ->
  targetStack st = [] ->
  target (snd (get w ev st)) = TUndefined /\
  targetStack (snd (get w ev st)) = [].
Proof.
  intros H Ht Hs. pose proof (rest_of_get w ev st this H) as Hr.
  unfold rest_of, target_after_get in Hr. rewrite Hs in Hr.
  destruct (target st) as [| |x] eqn:E; simpl in Hr;
    [by injection Hr|by injection Hr|by destruct (Ht x)].
Qed.

(** When nothing is the target but a watcher waits on the stack, [get]
    makes that watcher the target and takes it off the stack. *)
Lemma get_pops_foreign_entry
      (w y : nat) (rest : list nat) (ev : evaluation) (st : state)
      (this : watcher) :
  watchers st !! w = Some this ->
  (forall x, target st <> TWatcher x) ->
  targetStack st = rest ++ [y] ->
  target (snd (get w ev st)) = TWatcher y /\
  targetStack (snd (get w ev st)) = rest.
Proof.
  intros H Ht Hs. pose proof (rest_of_get w ev st this H) as Hr.
  unfold rest_of, target_after_get in Hr. rewrite Hs, last_snoc in Hr.
  rewrite removelast_last in Hr.
  destruct (target st) as [| |x] eqn:E; simpl in Hr;
    [by injection Hr|by injection Hr|by destruct (Ht x)].
Qed.

(** C3. Inside [getData], where [Dep.target] is [undefined] and watcher
    [1] waits on [targetStack], a [get] of watcher [2] ends with watcher
    [1] as [Dep.target] and an empty stack: the [popTarget] of [get] took
    an entry that its [pushTarget] never pushed. *)
Theorem get_in_getData_changes_target :
  target inside_getData = TUndefined /\
  targetStack inside_getData = [1] /\
  target (snd (get 2 idle inside_getData)) = TWatcher 1 /\
  targetStack (snd (get 2 idle inside_getData)) = [].
Proof. vm_compute. done. Qed.

(** *** No subscriber twice *)

(** C2. A [Dep] never holds a watcher twice in [subs], whatever calls the
    program makes into the two classes short of calling [addSub] itself:
    [addDep] subscribes only a [Dep] whose id is in neither id set, and
    leaves [subs] alone otherwise. *)
Theorem subs_never_hold_a_watcher_twice :
  (forall (ops : list op) (d : nat), NoDup (subs_of (exec ops init) d)) /\
  (forall (w d : nat) (st : state) (this : watcher),
     watchers st !! w = Some this ->
     d ∈ newDepIds this \/ d ∈ depIds this ->
     subs (addDep w d st) = subs st).
Proof.
  split.
  - intros ops d. by destruct (wf_exec ops init wf_init) as (_ & Hnd & _).
  - intros w d st this H Hor. unfold addDep. rewrite H.
    destruct (decide (d ∈ newDepIds this)); [done|].
    destruct Hor as [|Hin]; [done|]. by rewrite decide_True.
Qed.

(** [addSub] itself pushes without looking: called for a watcher that is
    already subscribed it is no no-op and leaves the watcher twice in
    [subs]. *)
Lemma addSub_twice_duplicates :
  addSub 0 1 (addSub 0 1 init) <> addSub 0 1 init /\
  subs_of (addSub 0 1 (addSub 0 1 init)) 0 = [1; 1] /\
  ~ NoDup (subs_of (addSub 0 1 (addSub 0 1 init)) 0).
Proof.
  assert (subs_of (addSub 0 1 (addSub 0 1 init)) 0 = [1; 1]) as Hs.
  { by rewrite !subs_of_addSub. }
  split; [|split; [done|]].
  - intros Heq. apply (f_equal (fun s => subs_of s 0)) in Heq.
    rewrite Hs, subs_of_addSub in Heq. discriminate.
  - rewrite Hs. intros Hnd. apply NoDup_cons in Hnd as [Hnin _].
    apply Hnin. by left.
Qed.

(** *** What a call does to the [active] flags and to the trace *)

Lemma actives_of_configs (st st' : state) :
  configs st' = configs st -> actives st' = actives st.
Proof.
  intros Hc. apply map_eq. intros i.
  apply (f_equal (fun m => m !! i)) in Hc. rewrite !configs_lookup in Hc.
  unfold actives. rewrite !lookup_fmap.
  destruct (watchers st' !! i) as [a|], (watchers st !! i) as [b|];
    simpl in *; try done.
  assert (config_of a = config_of b) as Hab by congruence.
  unfold config_of in Hab. congruence.
Qed.

Lemma actives_update_watcher (x : nat) (f : watcher -> watcher) (st : state) :
  (forall y, active (f y) = active y) ->
  actives (update_watcher x f st) = actives st.
Proof.
  intros Hf. apply map_eq. intros i. unfold actives, update_watcher. simpl.
  rewrite !lookup_fmap, lookup_alter.
  destruct (decide (x = i)) as [<-|]; [|done].
  destruct (watchers st !! x); simpl; [|done]. by rewrite Hf.
Qed.

Lemma only_events_of_refl (x : nat) (st : state) : only_events_of x st st.
Proof. exists []. by rewrite app_nil_r. Qed.

Lemma only_events_of_same (x : nat) (st st' : state) :
  events st' = events st -> only_events_of x st st'.
Proof. intros H. exists []. by rewrite app_nil_r. Qed.

Lemma only_events_of_trans (x : nat) (s1 s2 s3 : state) :
  only_events_of x s1 s2 -> only_events_of x s2 s3 -> only_events_of x s1 s3.
Proof.
  intros (l1 & H1 & F1) (l2 & H2 & F2). exists (l1 ++ l2).
  rewrite H2, H1, <- app_assoc. split; [done|]. by apply Forall_app.
Qed.

Lemma events_of_other (x w : nat) (st st' : state) :
  x <> w -> only_events_of x st st' -> events_of w st' = events_of w st.
Proof.
  intros Hne (l & Hst & Hl). unfold events_of. rewrite Hst, filter_app. clear Hst.
  assert (filter (fun e => event_of w e = true) l = []) as ->.
  { induction Hl as [|e l He Hl IH]; [done|].
    rewrite filter_cons_False; [done|].
    destruct e; simpl in *; apply bool_decide_eq_true in He; subst;
      rewrite bool_decide_eq_true; done. }
  by rewrite app_nil_r.
Qed.

Lemma get_effects (x : nat) (ev : evaluation) (st : state) :
  actives (snd (get x ev st)) = actives st /\
  only_events_of x st (snd (get x ev st)).
Proof.
  split; [apply actives_of_configs, configs_get|].
  destruct (watchers st !! x) as [this|] eqn:H.
  - destruct (events_get x ev st this H) as (He & _).
    exists [EvGetter x]. split; [done|].
    constructor; [|done]. simpl. by apply bool_decide_eq_true.
  - rewrite get_absent by done. apply only_events_of_refl.
Qed.

Lemma run_effects (x : nat) (ev : evaluation) (cb : completion unit) (st : state) :
  actives (snd (run x ev cb st)) = actives st /\
  only_events_of x st (snd (run x ev cb st)).
Proof.
  unfold run.
  destruct (watchers st !! x) as [this|];
    [|split; [done|apply only_events_of_refl]].
  destruct (active this); [|split; [done|apply only_events_of_refl]].
  destruct (get_effects x ev st) as (Ha & He).
  destruct (get x ev st) as [[v|e] st1]; simpl in *; [|done].
  destruct (watchers st1 !! x) as [this1|]; [|done].
  destruct (negb _ || _ || _); [|done].
  assert (actives (update_watcher x (with_value v) st1) = actives st) as Ha'.
  { by rewrite actives_update_watcher. }
  assert (only_events_of x st
            (emit (EvCallback x v (value this1))
               (update_watcher x (with_value v) st1))) as He'.
  { apply (only_events_of_trans _ _ st1); [done|].
    exists [EvCallback x v (value this1)]. split; [done|].
    constructor; [|done]. simpl. by apply bool_decide_eq_true. }
  by destruct (user this1), cb.
Qed.

Lemma update_effects (x : nat) (ev : evaluation) (cb : completion unit)
      (st : state) :
  actives (snd (update x ev cb st)) = actives st /\
  only_events_of x st (snd (update x ev cb st)).
Proof.
  unfold update.
  destruct (watchers st !! x) as [this|];
    [|split; [done|apply only_events_of_refl]].
  destruct (lazy this); simpl.
  { split; [by apply actives_update_watcher|by apply only_events_of_same]. }
  destruct (sync this); [apply run_effects|]. simpl.
  unfold queueWatcher. destruct (bool_decide _);
    (split; [done|by apply only_events_of_same]).
Qed.

Lemma evaluate_effects (x : nat) (ev : evaluation) (st : state) :
  actives (snd (evaluate x ev st)) = actives st /\
  only_events_of x st (snd (evaluate x ev st)).
Proof.
  unfold evaluate. destruct (get_effects x ev st) as (Ha & He).
  destruct (get x ev st) as [[v|e] st1]; simpl in *; [|done].
  split.
  - by rewrite actives_update_watcher.
  - apply (only_events_of_trans _ _ st1); [done|].
    by apply only_events_of_same.
Qed.

Lemma new_Watcher_effects (vmid : nat) (e : expOrFn) (opts : option options)
      (r : bool) (ev : evaluation) (st : state) :
  let st' := snd (new_Watcher vmid e opts r ev st) in
  actives st' = <[S (uid st) := true]> (actives st) /\
  only_events_of (S (uid st)) st st'.
Proof.
  unfold new_Watcher.
  set (o := default (Options false false false false None) opts).
  set (c1 := Component _ _ _).
  set (this := Watcher _ _ _ _ _ _ _ _ _ _ _ _ _ _ _ _).
  set (st1 := set_uid _ _).
  assert (actives st1 = <[S (uid st) := true]> (actives st)) as Ha1.
  { subst st1. unfold actives. simpl. by rewrite fmap_insert. }
  destruct (opt_lazy o); simpl.
  { split; [done|by apply only_events_of_same]. }
  destruct (get_effects (S (uid st)) ev st1) as (Ha & He).
  destruct (get (S (uid st)) ev st1) as [[v|err] st2]; simpl in *.
  - split; [by rewrite actives_update_watcher, Ha|].
    apply (only_events_of_trans _ _ st2); [done|by apply only_events_of_same].
  - split; [by rewrite Ha|done].
Qed.

Lemma teardown_effects (x : nat) (st : state) :
  events (teardown x st) = events st /\
  forall w, torn_down w st \/ w = x /\ is_Some (watchers st !! x) ->
            torn_down w (teardown x st).
Proof.
  unfold torn_down.
  destruct (watchers st !! x) as [this|] eqn:H.
  2:{ rewrite teardown_absent by done. split; [done|].
      intros w [|[_ [? ?]]]; done. }
  destruct (active this) eqn:Ha.
  2:{ rewrite (teardown_inactive _ _ this) by done. split; [done|].
      intros w [|[-> _]]; [done|]. unfold actives. by rewrite lookup_fmap, H, <- Ha. }
  rewrite (teardown_active _ _ this) by done.
  destruct (unsubscribe_spec x (fun _ => false) (deps this)
              (forget_watcher x this st)) as (Hr & Hw & _).
  destruct (forget_watcher_keeps x this st) as (_ & Hw' & _).
  split.
  - simpl. unfold rest_of in Hr. injection Hr as _ _ _ _ _ _ ->.
    unfold forget_watcher. destruct (components st !! vm this) as [c|]; [|done].
    by destruct (_isBeingDestroyed c).
  - intros w Hor. unfold actives, update_watcher. simpl.
    rewrite Hw, Hw', lookup_fmap, lookup_alter.
    destruct (decide (x = w)) as [<-|Hne]; [by rewrite H|].
    destruct Hor as [Ht|[-> _]]; [|done].
    unfold actives in Ht. by rewrite lookup_fmap in Ht.
Qed.

Lemma torn_down_lookup (w : nat) (st : state) :
  torn_down w st <->
  exists this, watchers st !! w = Some this /\ active this = false.
Proof.
  unfold torn_down, actives. rewrite lookup_fmap. split.
  - destruct (watchers st !! w) as [this|]; [|done].
    intros [= Ha]. eauto.
  - intros (this & -> & Ha). simpl. by rewrite Ha.
Qed.

Lemma torn_down_actives (w : nat) (st st' : state) :
  torn_down w st -> actives st' = actives st -> torn_down w st'.
Proof. unfold torn_down. by intros ? ->. Qed.

Lemma step_torn_down (w : nat) (st : state) (o : op) :
  wf st -> torn_down w st -> torn_down w (step st o).
Proof.
  intros Hwf Ht. destruct o; simpl.
  - destruct (new_Watcher_effects vmid e opts isRenderWatcher ev st) as (Ha & _).
    unfold torn_down. rewrite Ha, lookup_insert_ne; [done|].
    apply torn_down_lookup in Ht as (this & H & _).
    destruct Hwf as (Hws & _). destruct (Hws _ _ H) as (Hle & _). lia.
  - apply (torn_down_actives _ st); [done|]. apply get_effects.
  - apply (torn_down_actives _ st); [done|]. apply run_effects.
  - apply (torn_down_actives _ st); [done|]. apply update_effects.
  - apply (torn_down_actives _ st); [done|]. apply evaluate_effects.
  - apply (torn_down_actives _ st); [done|]. apply actives_of_configs.
    unfold watcher_depend. destruct (watchers st !! w0); [|done].
    by apply depend_all_preserves.
  - apply teardown_effects. by left.
  - apply (torn_down_actives _ st); [done|].
    apply actives_of_configs, configs_addDep.
  - apply (torn_down_actives _ st); [done|].
    apply actives_of_configs, configs_cleanupDeps.
  - apply (torn_down_actives _ st); [done|].
    apply actives_of_configs, configs_depend.
  - done.
  - unfold pushTarget. by destruct (target st).
  - unfold popTarget. by destruct (last _).
Qed.

Lemma events_of_same (w : nat) (st st' : state) :
  events st' = events st -> events_of w st' = events_of w st.
Proof. unfold events_of. by intros ->. Qed.

Lemma events_rest (st st' : state) :
  rest_of st' = rest_of st -> events st' = events st.
Proof. unfold rest_of. congruence. Qed.

Lemma step_events_of (w : nat) (st : state) (o : op) :
  wf st -> torn_down w st -> evaluates_directly w o = false ->
  events_of w (step st o) = events_of w st.
Proof.
  intros Hwf Ht Hdir.
  pose proof Ht as (this & H & Ha)%torn_down_lookup.
  destruct o; simpl in *.
  - destruct (new_Watcher_effects vmid e opts isRenderWatcher ev st) as (_ & He).
    apply (events_of_other (S (uid st))); [|done].
    destruct Hwf as (Hws & _). destruct (Hws _ _ H) as (Hle & _). lia.
  - apply bool_decide_eq_false in Hdir.
    apply (events_of_other w0); [done|apply get_effects].
  - destruct (decide (w0 = w)) as [->|Hne].
    + by rewrite (run_inactive _ _ _ _ this).
    + apply (events_of_other w0); [done|apply run_effects].
  - destruct (decide (w0 = w)) as [->|Hne].
    + unfold update. rewrite H.
      destruct (lazy this); [done|].
      destruct (sync this); [by rewrite (run_inactive _ _ _ _ this)|].
      simpl. unfold queueWatcher. by destruct (bool_decide _).
    + apply (events_of_other w0); [done|apply update_effects].
  - apply bool_decide_eq_false in Hdir.
    apply (events_of_other w0); [done|apply evaluate_effects].
  - apply events_of_same, events_rest.
    unfold watcher_depend. destruct (watchers st !! w0); [|done].
    by apply depend_all_preserves.
  - apply events_of_same, teardown_effects.
  - apply events_of_same, events_rest, rest_of_addDep.
  - apply events_of_same, events_rest, rest_of_cleanupDeps.
  - apply events_of_same, events_rest, rest_of_depend.
  - done.
  - apply events_of_same. unfold pushTarget. by destruct (target st).
  - apply events_of_same. unfold popTarget. by destruct (last _).
Qed.

Lemma exec_after_teardown (w : nat) (ops : list op) (st : state) :
  wf st -> torn_down w st ->
  Forall (fun o => evaluates_directly w o = false) ops ->
  events_of w (exec ops st) = events_of w st /\ torn_down w (exec ops st).
Proof.
  unfold exec. intros Hwf Ht Hops. revert st Hwf Ht.
  induction Hops as [|o ops Ho Hops IH]; intros st Hwf Ht; simpl; [done|].
  destruct (IH (step st o)) as (He & Ht').
  - by apply wf_step.
  - by apply step_torn_down.
  - split; [|done]. rewrite He. by apply step_events_of.
Qed.

(** *** [teardown] *)

(** An active watcher leaves the [subs] of every [Dep] of its [deps]. *)
Lemma teardown_unsubscribes (w : nat) (st : state) (this : watcher) :
  wf st ->
  watchers st !! w = Some this ->
  active this = true ->
  forall d, d ∈ deps this -> w ∉ subs_of (teardown w st) d.
Proof.
  intros (_ & Hnd & _) H Ha d Hd.
  rewrite (teardown_active _ _ this) by done.
  rewrite subs_of_update_watcher.
  destruct (unsubscribe_spec w (fun _ => false) (deps this)
              (forget_watcher w this st)) as (_ & _ & _ & _ & _ & Hgone).
  apply Hgone; [|done..].
  destruct (forget_watcher_keeps w this st) as (Hs & _).
  unfold subs_of. rewrite Hs. apply Hnd.
Qed.

Lemma teardown_idempotent (w : nat) (st : state) :
  teardown w (teardown w st) = teardown w st.
Proof.
  destruct (watchers st !! w) as [this|] eqn:H.
  - destruct (teardown_effects w st) as (_ & Ht).
    assert (torn_down w (teardown w st)) as Htd by (apply Ht; right; eauto).
    apply torn_down_lookup in Htd as (this' & H' & Ha').
    by apply (teardown_inactive _ _ this').
  - rewrite (teardown_absent w st) by done. by apply teardown_absent.
Qed.

(** C4. After [teardown] the watcher is inactive, an active watcher has
    left the [subs] of every [Dep] of its [deps], and a second [teardown]
    changes nothing.  From then on [run] does nothing on it, and whatever
    calls follow ([update] and [run] on it, as from a notification or from
    the scheduler's queue it was already in, and any call on other
    watchers), short of a direct [get] or [evaluate] on it, its getter and
    its callback are never called again. *)
Theorem teardown_ends_reactions (w : nat) (st : state) (this : watcher) :
  wf st ->
  watchers st !! w = Some this ->
  let st' := teardown w st in
  torn_down w st' /\
  (active this = true -> forall d, d ∈ deps this -> w ∉ subs_of st' d) /\
  teardown w st' = st' /\
  (forall ev cb, run w ev cb st' = (Normal tt, st')) /\
  (forall ops,
     Forall (fun o => evaluates_directly w o = false) ops ->
     events_of w (exec ops st') = events_of w st' /\
     torn_down w (exec ops st')).
Proof.
  intros Hwf H st'. subst st'.
  assert (torn_down w (teardown w st)) as Ht.
  { apply teardown_effects. right. eauto. }
  split; [done|]. split; [by apply teardown_unsubscribes|].
  split; [apply teardown_idempotent|]. split.
  - intros ev cb. apply torn_down_lookup in Ht as (this' & H' & Ha').
    by apply (run_inactive _ _ _ _ this').
  - intros ops Hops. apply exec_after_teardown; [by apply wf_teardown|done..].
Qed.

(** [evaluate] does not look at [active]: on a lazy watcher that was torn
    down while dirty, it calls the getter. *)
Lemma evaluate_after_teardown_calls_getter :
  torn_down 1 torn_down_lazy /\
  events_of 1 torn_down_lazy = [] /\
  events_of 1 (snd (evaluate 1 idle torn_down_lazy)) = [EvGetter 1].
Proof. vm_compute. done. Qed.

(** *** Watchers on a path that [parsePath] rejects *)

(** [get] on an inert watcher returns [undefined] and subscribes
    nothing. *)
Lemma get_inert (w : nat) (ev : evaluation) (st : state) (this : watcher) :
  watchers st !! w = Some this ->
  inert this ->
  fst (get w ev st) = Normal VUndefined /\
  subs (snd (get w ev st)) = subs st /\
  watchers (snd (get w ev st)) !! w = Some this.
Proof.
  intros H (Hg & Hv & Hd & Hn & Hi & Hni).
  rewrite (get_unfold _ _ _ this) by done.
  unfold get_outcome, get_reports, pass_reads, call_getter. rewrite Hg. simpl.
  assert ((if deep this then traverse_reads ev VUndefined else []) = []) as ->.
  { by destruct (deep this). }
  simpl. rewrite add_errors_nil.
  set (st1 := popTarget _).
  assert (watchers st1 = watchers st /\ subs st1 = subs st) as [Hw1 Hs1].
  { subst st1. unfold popTarget, pushTarget.
    destruct (target st); simpl; by destruct (last _). }
  clearbody st1. unfold cleanupDeps. rewrite Hw1, H, Hd. simpl.
  split; [done|]. split; [done|].
  change (unsubscribe w _ [] st1) with st1.
  rewrite Hw1, lookup_alter, decide_True, H by done. simpl. f_equal.
  destruct this. simpl in *. by subst.
Qed.

Lemma new_Watcher_rejected_path
      (vmid : nat) (path : string) (opts : option options) (r : bool)
      (ev : evaluation) (st : state) :
  Path.parsePath path = None ->
  let res := new_Watcher vmid (EString path) opts r ev st in
  fst res = Normal (S (uid st)) /\
  subs (snd res) = subs st /\
  exists this, watchers (snd res) !! S (uid st) = Some this /\ inert this.
Proof.
  intros Hp. unfold new_Watcher, getter_of. rewrite Hp.
  set (o := default (Options false false false false None) opts).
  set (c1 := Component _ _ _).
  set (this := Watcher _ _ _ _ _ _ _ _ _ _ _ _ _ _ _ _).
  set (st1 := set_uid _ _).
  assert (watchers st1 !! S (uid st) = Some this) as H1.
  { subst st1. simpl. by rewrite lookup_insert_eq. }
  assert (inert this) as Hin by done.
  destruct (opt_lazy o); simpl; [eauto|].
  destruct (get_inert (S (uid st)) ev st1 this H1 Hin) as (Hf & Hs & Hw).
  destruct (get (S (uid st)) ev st1) as [res st2]. simpl in *. subst res.
  simpl. split; [done|]. split; [done|].
  exists (with_value VUndefined this).
  by rewrite lookup_alter, decide_True, Hw.
Qed.

(** C10. [parsePath] returns nothing for a string with a character outside
    [[\w.$]]; the constructor then installs [noop], and the watcher has
    the value [undefined], no dependency, and keeps both at every later
    [get].  For any other string it returns a getter that raises
    nothing of its own: it returns when no property it reads throws, an
    exception it ends with is the exception of a property it read on a
    truthy value, and it returns [undefined] as soon as the value
    reached with a segment still to read is falsy. *)
Theorem parsePath_total_and_safe
        (prop : Js.value -> string -> completion Js.value) (path : string) :
  ((exists c, In c (list_ascii_of_string path) /\ Path.path_char c = false) ->
   Path.parsePath path = None /\
   forall vmid opts r ev st,
     let res := new_Watcher vmid (EString path) opts r ev st in
     fst res = Normal (S (uid st)) /\
     subs (snd res) = subs st /\
     exists this,
       watchers (snd res) !! S (uid st) = Some this /\ inert this /\
       forall ev',
         fst (get (S (uid st)) ev' (snd res)) = Normal VUndefined /\
         subs (snd (get (S (uid st)) ev' (snd res))) = subs st /\
         watchers (snd (get (S (uid st)) ev' (snd res))) !! S (uid st)
         = Some this) /\
  ((forall c, In c (list_ascii_of_string path) -> Path.path_char c = true) ->
   exists segments,
     Path.parsePath path = Some segments /\
     forall obj,
       ((forall o key, truthy o = true -> key ∈ segments ->
                       exists v, prop o key = Normal v) ->
        exists v, Path.path_getter prop segments obj = Normal v) /\
       (forall e,
          Path.path_getter prop segments obj = Throw e ->
          exists o key,
            truthy o = true /\ key ∈ segments /\ prop o key = Throw e) /\
       forall pre seg post v,
         segments = pre ++ seg :: post ->
         Path.path_getter prop pre obj = Normal v ->
         truthy v = false ->
         Path.path_getter prop segments obj = Normal VUndefined).
Proof.
  split.
  - intros Hbad%PathFacts.bailRE_test_spec.
    assert (Path.parsePath path = None) as Hp.
    { unfold Path.parsePath. by rewrite Hbad. }
    split; [done|]. intros vmid opts r ev st res.
    destruct (new_Watcher_rejected_path vmid path opts r ev st Hp)
      as (Hf & Hs & this & H & Hin).
    fold res in Hf, Hs, H. split; [done|]. split; [done|].
    exists this. split; [done|]. split; [done|]. intros ev'.
    destruct (get_inert (S (uid st)) ev' (snd res) this H Hin) as (? & Hs' & ?).
    by rewrite Hs'.
  - intros Hok%PathFacts.bailRE_test_false.
    exists (Path.split "."%char path). split.
    { unfold Path.parsePath. by rewrite Hok. }
    intros obj. split; [apply PathFacts.path_getter_normal|].
    split; [intros e; apply PathFacts.path_getter_throws|].
    intros pre seg post v -> Hwalk Hv.
    by apply PathFacts.path_getter_falsy with v.
Qed.

(** The getter of an accepted path, applied to an object one of whose
    properties is an accessor that throws, throws. *)
Lemma path_getter_passes_on_accessor_error :
  Path.parsePath "a.b" = Some ["a"; "b"] /\
  Path.path_getter
    (fun o key => if String.eqb key "b" then Throw (UserError 1)
                  else Normal (VObj 1))
    ["a"; "b"] (VObj 0) = Throw (UserError 1).
Proof. split; reflexivity. Qed.

(** *** The claims at concrete inputs *)

Lemma one_watcher_lookup : watchers one_watcher !! 1 = Some its_watcher.
Proof. vm_compute. done. Qed.

Lemma one_user_watcher_lookup :
  watchers one_user_watcher !! 1 = Some its_user_watcher.
Proof. vm_compute. done. Qed.

Lemma wf_one_watcher : wf one_watcher.
Proof. apply wf_new_Watcher, wf_init. Qed.

Example first_pass_subscribes :
  subs_of one_watcher 3 = [1] /\ subs_of one_watcher 5 = [1].
Proof. vm_compute. done. Qed.

Example second_pass_drops_stale_dep :
  let st := snd (get 1 (Evaluation [5; 8] (Normal (VNum 1)) []) one_watcher) in
  deps <$> watchers st !! 1 = Some [5; 8] /\
  subs_of st 3 = [] /\ subs_of st 5 = [1] /\ subs_of st 8 = [1].
Proof. vm_compute. done. Qed.

Lemma get_collects_exactly_the_reads_witness :
  wf one_watcher /\
  watchers one_watcher !! 1 = Some its_watcher /\
  quiescent its_watcher /\
  exists this',
    watchers (snd (get 1 reads_5_8 one_watcher)) !! 1 = Some this' /\
    (forall d, d ∈ deps this' <-> d ∈ pass_reads its_watcher reads_5_8) /\
    NoDup (deps this') /\
    depIds this' = list_to_set (pass_reads its_watcher reads_5_8) /\
    quiescent this' /\
    (forall d, d ∈ deps its_watcher -> d ∉ pass_reads its_watcher reads_5_8 ->
               1 ∉ subs_of (snd (get 1 reads_5_8 one_watcher)) d) /\
    (forall d, d ∈ pass_reads its_watcher reads_5_8 -> d ∉ deps its_watcher ->
               1 ∈ subs_of (snd (get 1 reads_5_8 one_watcher)) d).
Proof.
  split; [apply wf_one_watcher|].
  split; [apply one_watcher_lookup|].
  split; [done|].
  apply (get_collects_exactly_the_reads 1 reads_5_8 one_watcher its_watcher).
  - apply wf_one_watcher.
  - apply one_watcher_lookup.
  - done.
Defined.

Lemma subs_never_hold_a_watcher_twice_witness :
  NoDup (subs_of (exec [OpNew 0 (EFunction 0) None false reads_3_5;
                        OpGet 1 reads_5_8; OpTeardown 1; OpEvaluate 1 reads_3_5]
                       init) 5) /\
  (watchers one_watcher !! 1 = Some its_watcher ->
   3 ∈ newDepIds its_watcher \/ 3 ∈ depIds its_watcher ->
   subs (addDep 1 3 one_watcher) = subs one_watcher).
Proof.
  split.
  - apply subs_never_hold_a_watcher_twice.
  - apply (proj2 subs_never_hold_a_watcher_twice 1 3 one_watcher its_watcher).
Defined.

Lemma teardown_ends_reactions_witness :
  wf one_watcher /\
  watchers one_watcher !! 1 = Some its_watcher /\
  let st' := teardown 1 one_watcher in
  torn_down 1 st' /\
  (active its_watcher = true ->
   forall d, d ∈ deps its_watcher -> 1 ∉ subs_of st' d) /\
  teardown 1 st' = st' /\
  (forall ev cb, run 1 ev cb st' = (Normal tt, st')) /\
  (forall ops,
     Forall (fun o => evaluates_directly 1 o = false) ops ->
     events_of 1 (exec ops st') = events_of 1 st' /\
     torn_down 1 (exec ops st')).
Proof.
  split; [apply wf_one_watcher|].
  split; [apply one_watcher_lookup|].
  apply (teardown_ends_reactions 1 one_watcher its_watcher).
  - apply wf_one_watcher.
  - apply one_watcher_lookup.
Defined.


Lemma get_evaluator_throws_witness :
  watchers one_user_watcher !! 1 = Some its_user_watcher /\
  getter its_user_watcher <> GNoop /\
  result throws = Throw (UserError 9) /\
  exists this',
    watchers (snd (get 1 throws one_user_watcher)) !! 1 = Some this' /\
    value this' = value its_user_watcher /\
    if user its_user_watcher
    then fst (get 1 throws one_user_watcher) = Normal VUndefined /\
         errors (snd (get 1 throws one_user_watcher)) =
         errors one_user_watcher ++ [(UserError 9, getter_info its_user_watcher)]
    else fst (get 1 throws one_user_watcher) = Throw (UserError 9) /\
         errors (snd (get 1 throws one_user_watcher)) = errors one_user_watcher.
Proof.
  split; [apply one_user_watcher_lookup|]. split; [done|]. split; [done|].
  apply (get_evaluator_throws 1 throws one_user_watcher its_user_watcher
           (UserError 9)).
  - apply one_user_watcher_lookup.
  - done.
  - done.
Defined.


Lemma parsePath_total_and_safe_witness :
  (exists c, In c (list_ascii_of_string "a b") /\ Path.path_char c = false) /\
  Path.parsePath "a b" = None /\
  (forall c, In c (list_ascii_of_string "a.b") -> Path.path_char c = true) /\
  exists segments,
    Path.parsePath "a.b" = Some segments /\
    forall obj,
      ((forall o key, truthy o = true -> key ∈ segments ->
                      exists v, (fun _ _ => Normal VNull) o key = Normal v) ->
       exists v,
         Path.path_getter (fun _ _ => Normal VNull) segments obj = Normal v) /\
      (forall e,
         Path.path_getter (fun _ _ => Normal VNull) segments obj = Throw e ->
         exists o key,
           truthy o = true /\ key ∈ segments /\
           (fun _ _ => Normal VNull) o key = Throw e) /\
      forall pre seg post v,
        segments = pre ++ seg :: post ->
        Path.path_getter (fun _ _ => Normal VNull) pre obj = Normal v ->
        truthy v = false ->
        Path.path_getter (fun _ _ => Normal VNull) segments obj
        = Normal VUndefined.
Proof.
  assert (exists c, In c (list_ascii_of_string "a b") /\ Path.path_char c = false)
    as Hbad.
  { exists " "%char. split; [right; left; reflexivity|reflexivity]. }
  assert (forall c, In c (list_ascii_of_string "a.b") -> Path.path_char c = true)
    as Hok.
  { intros c [<-|[<-|[<-|[]]]]; reflexivity. }
  split; [exact Hbad|]. split.
  - apply (proj1 (parsePath_total_and_safe (fun _ _ => Normal VNull) "a b")),
      Hbad.
  - split; [exact Hok|].
    apply (proj2 (parsePath_total_and_safe (fun _ _ => Normal VNull) "a.b")),
      Hok.
Defined.

End ObserverFacts.

(** ** Deep traversal *)

Module TraverseFacts.
Import Js Traverse.

Lemma walk_none (f : value -> gset nat -> option (gset nat)) (l : list value) :
  walk f l None = None.
Proof. induction l as [|v l IH]; simpl; done. Qed.

Lemma walk_mono (f g : value -> gset nat -> option (gset nat))
      (l : list value) (acc : option (gset nat)) (s : gset nat) :
  (forall v seen s', f v seen = Some s' -> g v seen = Some s') ->
  walk f l acc = Some s -> walk g l acc = Some s.
Proof.
  intros Hfg. revert acc. induction l as [|v l IH]; intros acc; simpl; [done|].
  destruct acc as [seen|]; simpl; [|by rewrite walk_none].
  destruct (f v seen) as [s'|] eqn:Hf; [|by rewrite walk_none].
  rewrite (Hfg _ _ _ Hf). apply IH.
Qed.

(** More fuel does not change a result. *)
Lemma _traverse_mono (h : gmap nat object) (n m : nat) (v : value)
      (seen s : gset nat) :
  n <= m -> _traverse n h v seen = Some s -> _traverse m h v seen = Some s.
Proof.
  revert m v seen s. induction n as [|n IH]; intros m v seen s Hle; [done|].
  destruct m as [|m]; [lia|]. simpl.
  destruct (_ || _ || _); [done|].
  assert (forall v' seen' s',
            _traverse n h v' seen' = Some s' -> _traverse m h v' seen' = Some s')
    as Hstep by (intros; apply IH; [lia|done]).
  destruct (ob_dep_id h v) as [i|].
  - destruct (decide (i ∈ seen)); [done|]. by apply walk_mono.
  - by apply walk_mono.
Qed.

Lemma walk_grows (f : value -> gset nat -> option (gset nat))
      (l : list value) (seen s : gset nat) :
  (forall v seen' s', f v seen' = Some s' -> seen' ⊆ s') ->
  walk f l (Some seen) = Some s -> seen ⊆ s.
Proof.
  intros Hf. revert seen. induction l as [|v l IH]; intros seen; simpl.
  - by intros [= ->].
  - destruct (f v seen) as [s'|] eqn:E; [|by rewrite walk_none].
    intros Hw. etrans; [by eapply Hf|by apply IH].
Qed.

(** The visited set only grows. *)
Lemma _traverse_grows (h : gmap nat object) (n : nat) (v : value)
      (seen s : gset nat) :
  _traverse n h v seen = Some s -> seen ⊆ s.
Proof.
  revert v seen s. induction n as [|n IH]; intros v seen s; [done|]. simpl.
  destruct (_ || _ || _); [by intros [= ->]|].
  destruct (ob_dep_id h v) as [i|].
  - destruct (decide (i ∈ seen)); [by intros [= ->]|].
    intros Hw%walk_grows; [set_solver|done].
  - by apply walk_grows.
Qed.

(** A value that is no object, is frozen or is a [VNode] is left alone. *)
Lemma _traverse_skips (h : gmap nat object) (n : nat) (v : value) (seen : gset nat) :
  isObject v = false \/ Object_isFrozen h v = true \/ instanceof_VNode h v = true ->
  _traverse (S n) h v seen = Some seen.
Proof.
  intros Hor. simpl.
  assert ((negb (Array_isArray h v) && negb (isObject v))
          || Object_isFrozen h v || instanceof_VNode h v = true) as ->; [|done].
  destruct Hor as [Hno|[->| ->]]; rewrite ?orb_true_r; [|done..].
  by destruct v.
Qed.

(** An observed value whose id is in the visited set is left alone. *)
Lemma _traverse_revisit (h : gmap nat object) (n : nat) (v : value)
      (seen : gset nat) (i : nat) :
  ob_dep_id h v = Some i -> i ∈ seen -> _traverse (S n) h v seen = Some seen.
Proof.
  intros Hi Hin. simpl. destruct (_ || _ || _); [done|].
  rewrite Hi. by rewrite decide_True.
Qed.

(** An observed value that is walked into has its id in the visited set
    afterwards. *)
Lemma _traverse_records (h : gmap nat object) (n : nat) (v : value)
      (seen s : gset nat) (i : nat) :
  ob_dep_id h v = Some i ->
  Object_isFrozen h v = false -> instanceof_VNode h v = false ->
  _traverse n h v seen = Some s -> i ∈ s.
Proof.
  intros Hi Hf Hv. destruct n as [|n]; [done|]. simpl.
  rewrite Hi, Hf, Hv.
  assert (isObject v = true) as -> by (by destruct v).
  rewrite andb_false_r. simpl.
  destruct (decide (i ∈ seen)); [by intros [= <-]|].
  intros Hw%walk_grows; [set_solver|]. apply _traverse_grows.
Qed.

(** *** Termination *)

Lemma _traverse_walks (h : gmap nat object) (n r : nat) (o : object)
      (seen : gset nat) :
  h !! r = Some o -> frozen o = false -> isVNode o = false ->
  _traverse (S n) h (VObj r) seen =
  match __ob__ o with
  | Some i =>
      if decide (i ∈ seen) then Some seen
      else walk (_traverse n h) (reverse (fields o)) (Some (seen ∪ {[i]}))
  | None => walk (_traverse n h) (reverse (fields o)) (Some seen)
  end.
Proof.
  intros Hr Hf Hv. simpl. rewrite Hr. simpl.
  rewrite Hf, Hv, andb_false_r. simpl. done.
Qed.

Lemma dep_ids_spec (h : gmap nat object) (r : nat) (o : object) (i : nat) :
  h !! r = Some o -> __ob__ o = Some i -> i ∈ dep_ids h.
Proof.
  intros Hr Hi. unfold dep_ids.
  rewrite elem_of_list_to_set, list_elem_of_omap.
  exists (r, o). split; [by apply elem_of_map_to_list|done].
Qed.

Lemma unguarded_dec (h : gmap nat object) (v : value) :
  (exists r, v = VObj r /\ unguarded h r) \/
  ~ (exists r, v = VObj r /\ unguarded h r).
Proof.
  destruct v as [| | | | | | |r]; try by (right; intros (r' & [=] & _)).
  unfold unguarded.
  destruct (h !! r) as [o|] eqn:Hr.
  2:{ right. intros (r' & [= <-] & o' & Ho & _). congruence. }
  destruct (frozen o) eqn:Hf.
  { right. intros (r' & [= <-] & o' & Ho & Hf' & _). congruence. }
  destruct (isVNode o) eqn:Hv.
  { right. intros (r' & [= <-] & o' & Ho & _ & Hv' & _). congruence. }
  destruct (__ob__ o) as [i|] eqn:Hi.
  { right. intros (r' & [= <-] & o' & Ho & _ & _ & Hi'). congruence. }
  left. exists r. split; [done|]. exists o. by rewrite Hr.
Qed.

(** A walk over values that all halt halts, when the bound on the
    visited set survives its growth. *)
Lemma walk_halts (h : gmap nat object) (G : gset nat -> Prop) (l : list value) :
  (forall seen s, G seen -> seen ⊆ s -> G s) ->
  (forall v, v ∈ l -> forall seen, G seen ->
             exists n s, _traverse n h v seen = Some s) ->
  forall seen, G seen ->
    exists n s, walk (_traverse n h) l (Some seen) = Some s.
Proof.
  intros Hup. induction l as [|v l IH]; intros Hl seen HG.
  - exists 0, seen. done.
  - destruct (Hl v) with seen as (n1 & s1 & H1); [by left|done|].
    destruct IH with s1 as (n2 & s2 & H2).
    + intros v' Hv'. apply Hl. by right.
    + apply (Hup seen); [done|]. by apply _traverse_grows in H1.
    + exists (n1 `max` n2), s2. simpl.
      rewrite (_traverse_mono h n1 _ v seen s1) by (lia || done).
      apply (walk_mono (_traverse n2 h)); [|done].
      intros v' seen' s' H'. apply (_traverse_mono h n2); [lia|done].
Qed.

(** With no endless chain of unguarded objects, [_traverse] returns from
    every value and every visited set. *)
Lemma _traverse_halts (h : gmap nat object) :
  well_founded (unguarded_child h) ->
  forall (v : value) (seen : gset nat),
    exists n s, _traverse n h v seen = Some s.
Proof.
  intros Hwf.
  assert (forall k v seen,
            size (dep_ids h ∖ seen) <= k ->
            exists n s, _traverse n h v seen = Some s) as Hlevel.
  2:{ intros v seen. by apply (Hlevel (size (dep_ids h ∖ seen))). }
  induction k as [k IHk] using lt_wf_ind.
  set (G := fun seen : gset nat => size (dep_ids h ∖ seen) <= k).
  assert (forall seen s, G seen -> seen ⊆ s -> G s) as HupG.
  { unfold G. intros seen s HG Hsub.
    etrans; [|exact HG]. apply subseteq_size. set_solver. }
  (* guarded values: skipped, already visited, or visited now *)
  assert (forall v seen,
            G seen -> ~ (exists r, v = VObj r /\ unguarded h r) ->
            exists n s, _traverse n h v seen = Some s) as Hguarded.
  { intros v seen HG Hnot.
    destruct v as [| | | | | | |r];
      try (exists 1, seen; by apply _traverse_skips; left).
    destruct (h !! r) as [o|] eqn:Hr.
    2:{ exists 1, seen. apply _traverse_skips. right. left. simpl. by rewrite Hr. }
    destruct (frozen o) eqn:Hf.
    { exists 1, seen. apply _traverse_skips. right. left. simpl. by rewrite Hr. }
    destruct (isVNode o) eqn:Hv.
    { exists 1, seen. apply _traverse_skips. right. right. simpl. by rewrite Hr. }
    destruct (__ob__ o) as [i|] eqn:Hi.
    2:{ destruct Hnot. exists r. split; [done|]. by exists o. }
    destruct (decide (i ∈ seen)) as [Hin|Hnin].
    { exists 1, seen. apply (_traverse_revisit _ _ _ _ i); [|done].
      simpl. by rewrite Hr. }
    set (G' := fun s : gset nat => size (dep_ids h ∖ s) < k).
    destruct (walk_halts h G' (reverse (fields o))) with (seen ∪ {[i]})
      as (n & s & Hw).
    - unfold G'. intros s1 s2 HG1 Hsub.
      eapply Nat.le_lt_trans; [|exact HG1]. apply subseteq_size. set_solver.
    - intros v' _ s' HG'. by apply (IHk (size (dep_ids h ∖ s'))).
    - unfold G'. eapply Nat.lt_le_trans; [|exact HG].
      apply subset_size. pose proof (dep_ids_spec h r o i Hr Hi). set_solver.
    - exists (S n), s. rewrite (_traverse_walks h n r o) by done.
      rewrite Hi. by rewrite decide_False. }
  (* unguarded objects: by the well-founded order *)
  assert (forall r, unguarded h r -> forall seen, G seen ->
            exists n s, _traverse n h (VObj r) seen = Some s) as Hunguarded.
  { intros r. induction (Hwf r) as [r _ IH]. intros Hun seen HG.
    pose proof Hun as (o & Hr & Hf & Hv & Hi).
    destruct (walk_halts h G (reverse (fields o))) with seen as (n & s & Hw);
      [done| |done|].
    - intros v' Hv' seen' HG'. rewrite elem_of_reverse in Hv'.
      destruct (unguarded_dec h v') as [(r' & -> & Hun')|Hnot];
        [|by apply Hguarded].
      apply IH; [|done..]. split; [done|]. split; [done|].
      simpl. by rewrite Hr.
    - exists (S n), s. rewrite (_traverse_walks h n r o) by done.
      by rewrite Hi. }
  intros v seen HG.
  destruct (unguarded_dec h v) as [(r & -> & Hun)|Hnot];
    [by apply Hunguarded|by apply Hguarded].
Qed.

(** C9. When no reference cycle runs through unguarded objects only
    (objects without observer that are neither frozen nor [VNode]s),
    [traverse] returns from every value, and [seenObjects] is empty
    afterwards.  A value that is no object, is frozen or is a [VNode] is
    not walked into; an observed value whose id is in the visited set is
    not walked into again; an observed value that is walked into has its
    id in the visited set afterwards. *)
Theorem traverse_terminates_on_guarded_cycles
        (h : gmap nat object) (val : value) (seenObjects : gset nat) :
  well_founded (unguarded_child h) ->
  (exists fuel, traverse fuel h val seenObjects = Some ∅) /\
  (forall n seen,
     isObject val = false \/ Object_isFrozen h val = true \/
     instanceof_VNode h val = true ->
     _traverse (S n) h val seen = Some seen) /\
  (forall n seen i,
     ob_dep_id h val = Some i -> i ∈ seen ->
     _traverse (S n) h val seen = Some seen) /\
  (forall n seen s i,
     ob_dep_id h val = Some i ->
     Object_isFrozen h val = false -> instanceof_VNode h val = false ->
     _traverse n h val seen = Some s -> i ∈ s).
Proof.
  intros Hwf. split; [|split; [|split]].
  - destruct (_traverse_halts h Hwf val seenObjects) as (n & s & Hn).
    exists n. unfold traverse. by rewrite Hn.
  - intros n seen. apply _traverse_skips.
  - intros n seen i. apply _traverse_revisit.
  - intros n seen s i. apply _traverse_records.
Qed.

Lemma _traverse_knot (fuel : nat) (seen : gset nat) :
  _traverse fuel knot (VObj 0) seen = None.
Proof.
  revert seen. induction fuel as [|n IH]; intros seen; [done|].
  rewrite (_traverse_walks knot n 0 (Obj false false false None [VObj 0]));
    [|done..].
  simpl. apply IH.
Qed.

(** On an object without observer that refers to itself, [traverse] does
    not return, whatever the depth allowed. *)
Lemma traverse_knot_never_returns :
  ~ exists fuel s, traverse fuel knot (VObj 0) ∅ = Some s.
Proof.
  intros (fuel & s & H). unfold traverse in H.
  by rewrite _traverse_knot in H.
Qed.

Example traverse_observed_knot :
  traverse 2 observed_knot (VObj 0) ∅ = Some ∅.
Proof. vm_compute. done. Qed.

Lemma observed_knot_guarded : well_founded (unguarded_child observed_knot).
Proof.
  intros p. constructor. intros c ((o & Ho & _ & _ & Hob) & _).
  unfold observed_knot in Ho. apply lookup_singleton_Some in Ho as [_ <-].
  discriminate.
Defined.

Lemma traverse_terminates_on_guarded_cycles_witness :
  well_founded (unguarded_child observed_knot) /\
  (exists fuel, traverse fuel observed_knot (VObj 0) ∅ = Some ∅) /\
  (forall n seen,
     isObject (VObj 0) = false \/ Object_isFrozen observed_knot (VObj 0) = true \/
     instanceof_VNode observed_knot (VObj 0) = true ->
     _traverse (S n) observed_knot (VObj 0) seen = Some seen) /\
  (forall n seen i,
     ob_dep_id observed_knot (VObj 0) = Some i -> i ∈ seen ->
     _traverse (S n) observed_knot (VObj 0) seen = Some seen) /\
  (forall n seen s i,
     ob_dep_id observed_knot (VObj 0) = Some i ->
     Object_isFrozen observed_knot (VObj 0) = false ->
     instanceof_VNode observed_knot (VObj 0) = false ->
     _traverse n observed_knot (VObj 0) seen = Some s -> i ∈ s).
Proof.
  split; [apply observed_knot_guarded|].
  apply (traverse_terminates_on_guarded_cycles observed_knot (VObj 0) ∅).
  apply observed_knot_guarded.
Defined.

End TraverseFacts.

(** ** [Dep] and [Watcher]: further properties *)

Module ObserverMore.
Import Js Observer ObserverFacts.

(** *** A pass touches one watcher only *)

Lemma filter_remove_self (w : nat) (l : list nat) :
  filter (fun x => x <> w) (remove w l) = filter (fun x => x <> w) l.
Proof.
  induction l as [|y l IH]; simpl; [done|].
  destruct (decide (w = y)) as [<-|Hne].
  - by rewrite filter_cons_False by (intros ?; done).
  - by rewrite !filter_cons_True, IH by done.
Qed.

Lemma filter_snoc_self (w : nat) (l : list nat) :
  filter (fun x => x <> w) (l ++ [w]) = filter (fun x => x <> w) l.
Proof.
  rewrite filter_app, filter_cons_False by (intros ?; done).
  by rewrite filter_nil, app_nil_r.
Qed.

Lemma subs_without_addDep (w d d' : nat) (st : state) :
  subs_without w (addDep w d st) d' = subs_without w st d'.
Proof.
  unfold subs_without.
  destruct (watchers st !! w) as [this|] eqn:H; [|by rewrite addDep_absent].
  destruct (decide (d ∈ newDepIds this)) as [Hin|Hnin];
    [by rewrite (addDep_known _ _ _ this)|].
  destruct (addDep_fresh w d st this H Hnin) as (_ & _ & Hs). rewrite Hs.
  destruct (decide (d = d' /\ d ∉ depIds this)) as [[<- _]|]; [|done].
  apply filter_snoc_self.
Qed.

Lemma others_addDep (w w' d : nat) (st : state) :
  w' <> w -> watchers (addDep w d st) !! w' = watchers st !! w'.
Proof.
  intros Hne. unfold addDep.
  destruct (watchers st !! w) as [this|]; [|done].
  destruct (decide (d ∈ newDepIds this)); [done|].
  destruct (decide (d ∈ depIds this)); simpl; by rewrite lookup_alter_ne.
Qed.

Lemma collect_isolated (w : nat) (ds : list nat) (st : state) :
  let st' := fold_left (fun s d => addDep w d s) ds st in
  (forall w', w' <> w -> watchers st' !! w' = watchers st !! w') /\
  (forall d, subs_without w st' d = subs_without w st d).
Proof.
  revert st. induction ds as [|a ds IH]; intros st; simpl; [done|].
  destruct (IH (addDep w a st)) as (Hw & Hs). split.
  - intros w' Hne. by rewrite Hw, others_addDep.
  - intros d. by rewrite Hs, subs_without_addDep.
Qed.

Lemma subs_without_unsubscribe (w : nat) (keep : nat -> bool) (ds : list nat)
      (st : state) (d : nat) :
  subs_without w (unsubscribe w keep ds st) d = subs_without w st d.
Proof.
  unfold unsubscribe. generalize (reverse ds). intros l. revert st.
  induction l as [|a l IH]; intros st; simpl; [done|].
  rewrite IH. destruct (keep a); [done|]. unfold subs_without.
  rewrite subs_of_removeSub. destruct (decide (a = d)) as [<-|]; [|done].
  apply filter_remove_self.
Qed.

Lemma cleanupDeps_isolated (w : nat) (st : state) :
  (forall w', w' <> w -> watchers (cleanupDeps w st) !! w' = watchers st !! w') /\
  (forall d, subs_without w (cleanupDeps w st) d = subs_without w st d).
Proof.
  unfold cleanupDeps. destruct (watchers st !! w) as [this|]; [|done]. split.
  - intros w' Hne. unfold update_watcher. simpl.
    rewrite lookup_alter_ne by done.
    by destruct (unsubscribe_spec w (fun d => bool_decide (d ∈ newDepIds this))
                   (deps this) st) as (_ & -> & _).
  - intros d. unfold subs_without. rewrite subs_of_update_watcher.
    apply subs_without_unsubscribe.
Qed.

Lemma get_isolated (w : nat) (ev : evaluation) (st : state) :
  (forall w', w' <> w ->
              watchers (snd (get w ev st)) !! w' = watchers st !! w') /\
  (forall d, subs_without w (snd (get w ev st)) d = subs_without w st d).
Proof.
  destruct (watchers st !! w) as [this|] eqn:H; [|by rewrite get_absent].
  rewrite (get_unfold _ _ _ this) by done. simpl.
  set (st1 := emit (EvGetter w) (pushTarget (TWatcher w) st)).
  assert (target st1 = TWatcher w) as Ht1.
  { subst st1. unfold pushTarget. by destruct (target st). }
  assert (watchers st1 = watchers st /\ subs st1 = subs st) as [Hw1 Hs1].
  { subst st1. unfold pushTarget. by destruct (target st). }
  rewrite (depend_all_target w) by done.
  destruct (collect_isolated w (pass_reads this ev) st1) as (Hw2 & Hs2).
  set (st2 := fold_left _ _ st1) in *.
  set (st4 := popTarget (add_errors (get_reports this ev) st2)).
  assert (watchers st4 = watchers st2 /\ subs st4 = subs st2) as [Hw4 Hs4].
  { subst st4. unfold popTarget. by destruct (last _). }
  destruct (cleanupDeps_isolated w st4) as (Hw5 & Hs5). split.
  - intros w' Hne. by rewrite Hw5, Hw4, Hw2, Hw1.
  - intros d. rewrite Hs5. unfold subs_without, subs_of in *.
    rewrite Hs4. specialize (Hs2 d). rewrite Hs2. by rewrite Hs1.
Qed.

Lemma get_others (w : nat) (ev : evaluation) (st : state) :
  (forall w', w' <> w ->
              watchers (snd (get w ev st)) !! w' = watchers st !! w') /\
  (forall d,
     filter (fun x => x <> w) (subs_of (snd (get w ev st)) d) =
     filter (fun x => x <> w) (subs_of st d)) /\
  (forall d x, x <> w ->
               (x ∈ subs_of (snd (get w ev st)) d <-> x ∈ subs_of st d)).
Proof.
  destruct (get_isolated w ev st) as (Hw & Hs).
  split; [done|]. split; [done|].
  intros d x Hne. specialize (Hs d). unfold subs_without in Hs.
  assert (forall l : list nat, x ∈ l <-> x ∈ filter (fun y => y <> w) l) as Hf.
  { intros l. rewrite list_elem_of_filter. tauto. }
  by rewrite (Hf (subs_of _ d)), Hs, <- Hf.
Qed.

(** *** Creating a watcher and tearing it down *)

Lemma filter_absent (w : nat) (l : list nat) :
  w ∉ l -> filter (fun x => x <> w) l = l.
Proof.
  induction l as [|y l IH]; [done|]. intros Hnin.
  apply not_elem_of_cons in Hnin as [Hne Hnin].
  by rewrite filter_cons_True, IH by done.
Qed.

Lemma get_leaves_quiescent (w : nat) (ev : evaluation) (st : state)
      (this : watcher) :
  watchers st !! w = Some this ->
  exists this',
    watchers (snd (get w ev st)) !! w = Some this' /\
    config_of this' = config_of this /\ newDeps this' = [].
Proof.
  intros H. destruct (get_keeps_config w ev st this H) as (this' & Hl & Hc).
  exists this'. split; [done|]. split; [done|].
  rewrite (get_unfold _ _ _ this) in Hl by done. simpl in Hl.
  set (st4 := popTarget _) in Hl.
  destruct (watchers st4 !! w) as [this4|] eqn:H4.
  - destruct (cleanupDeps_spec w st4 this4 H4) as (_ & Hw & _).
    rewrite Hw, lookup_insert_eq in Hl. by injection Hl as <-.
  - rewrite cleanupDeps_absent in Hl by done. congruence.
Qed.

Lemma teardown_subs (w : nat) (st : state) (this : watcher) :
  wf st ->
  watchers st !! w = Some this ->
  active this = true ->
  newDeps this = [] ->
  forall d, subs_of (teardown w st) d = subs_without w st d.
Proof.
  intros Hwf H Ha Hq d. pose proof Hwf as (_ & _ & Hreg).
  assert (subs_without w (teardown w st) d = subs_without w st d) as Hs.
  { rewrite (teardown_active _ _ this) by done.
    pose proof (subs_without_unsubscribe w (fun _ => false) (deps this)
                  (forget_watcher w this st) d) as Hu.
    destruct (forget_watcher_keeps w this st) as (Hsubs & _).
    unfold subs_without in *. rewrite subs_of_update_watcher, Hu.
    unfold subs_of. by rewrite Hsubs. }
  rewrite <- Hs. symmetry. apply filter_absent.
  destruct (decide (d ∈ deps this)) as [Hin|Hnin].
  - by apply (teardown_unsubscribes w st this).
  - intros Hin. rewrite (teardown_active _ _ this) in Hin by done.
    rewrite subs_of_update_watcher in Hin.
    destruct (forget_watcher_keeps w this st) as (Hsubs & _).
    apply unsubscribe_spec in Hin. unfold subs_of in Hin. rewrite Hsubs in Hin.
    destruct (Hreg d w Hin) as (this' & H' & Hor).
    assert (this' = this) as -> by congruence.
    rewrite Hq in Hor. destruct Hor as [?|Hor]; [done|].
    by apply elem_of_nil in Hor.
Qed.

Lemma new_Watcher_state (vmid : nat) (e : expOrFn) (opts : option options)
      (r : bool) (ev : evaluation) (st : state) :
  let w := S (uid st) in
  let st' := snd (new_Watcher vmid e opts r ev st) in
  (exists this,
     watchers st' !! w = Some this /\ active this = true /\ newDeps this = []) /\
  (forall d, subs_without w st' d = subs_without w st d).
Proof.
  unfold new_Watcher.
  set (o := default (Options false false false false None) opts).
  set (c1 := Component _ _ _).
  set (this := Watcher _ _ _ _ _ _ _ _ _ _ _ _ _ _ _ _).
  set (st1 := set_uid _ _).
  assert (watchers st1 !! S (uid st) = Some this) as H1.
  { subst st1. simpl. by rewrite lookup_insert_eq. }
  destruct (opt_lazy o) eqn:Hlazy; simpl.
  { split; [by exists this|done]. }
  destruct (get_leaves_quiescent _ ev st1 this H1) as (this2 & H2 & Hc & Hq).
  destruct (get_isolated (S (uid st)) ev st1) as (_ & Hs).
  assert (active this2 = true) as Ha2.
  { assert (active this2 = active this) as ->; [|done].
    unfold config_of in Hc. congruence. }
  destruct (get (S (uid st)) ev st1) as [[v|err] st2]; simpl in *.
  - split.
    + exists (with_value v this2). split; [|done].
      by apply update_watcher_lookup.
    + intros d. unfold subs_without. rewrite subs_of_update_watcher. apply Hs.
  - split; [by exists this2|done].
Qed.

Lemma new_teardown_direct
        (vmid : nat) (e : expOrFn) (opts : option options) (r : bool)
        (ev : evaluation) (st : state) :
  wf st ->
  forall d,
    subs_of (teardown (S (uid st)) (snd (new_Watcher vmid e opts r ev st))) d =
    subs_of st d.
Proof.
  intros Hwf d.
  destruct (new_Watcher_state vmid e opts r ev st)
    as ((this & Hl & Ha & Hq) & Hs).
  rewrite (teardown_subs _ _ this) by (done || by apply wf_new_Watcher).
  rewrite Hs. apply filter_absent. intros Hin.
  destruct Hwf as (Hws & _ & Hreg).
  destruct (Hreg d _ Hin) as (this0 & H0 & _).
  destruct (Hws _ _ H0) as (Hle & _). lia.
Qed.

(** *** An active watcher is in [subs] of every [Dep] it lists *)
















(** *** Computed properties: [computedGetter] *)

Lemma lookup_config (st st' : state) (w : nat) (this : watcher) :
  configs st' = configs st ->
  watchers st !! w = Some this ->
  exists this',
    watchers st' !! w = Some this' /\ config_of this' = config_of this.
Proof.
  intros Hc H. pose proof (configs_lookup st' w) as Hl.
  rewrite Hc, configs_lookup, H in Hl. simpl in Hl.
  destruct (watchers st' !! w) as [this'|]; [|done].
  exists this'. split; [done|]. simpl in Hl. congruence.
Qed.

Lemma config_dirty_value (x y : watcher) :
  config_of x = config_of y ->
  dirty x = dirty y /\ value x = value y /\ active x = active y /\
  user x = user y /\ lazy x = lazy y /\ getter x = getter y /\
  deep x = deep y /\ expression x = expression y.
Proof. unfold config_of. intros [=]. auto 10. Qed.

Lemma watcher_depend_preserves (w : nat) (st : state) :
  configs (watcher_depend w st) = configs st /\
  rest_of (watcher_depend w st) = rest_of st.
Proof.
  unfold watcher_depend. destruct (watchers st !! w); [|done].
  split; apply depend_all_preserves.
Qed.

Lemma forward_preserves (w : nat) (st : state) :
  let st' := match target st with
             | TWatcher _ => watcher_depend w st
             | _ => st
             end in
  configs st' = configs st /\ rest_of st' = rest_of st.
Proof. destruct (target st); simpl; auto using watcher_depend_preserves. Qed.

Lemma evaluate_returned (w : nat) (ev : evaluation) (st : state)
      (this : watcher) (v : Js.value) :
  watchers st !! w = Some this ->
  get_outcome this ev = Normal v ->
  evaluate w ev st =
  (Normal tt,
   update_watcher w (fun x => with_dirty false (with_value v x))
     (snd (get w ev st))).
Proof.
  intros H Hout. unfold evaluate.
  rewrite (get_unfold _ _ _ this) by done. by rewrite Hout.
Qed.

Lemma evaluate_threw (w : nat) (ev : evaluation) (st : state)
      (this : watcher) (e : error) :
  watchers st !! w = Some this ->
  get_outcome this ev = Throw e ->
  evaluate w ev st = (Throw e, snd (get w ev st)).
Proof.
  intros H Hout. unfold evaluate.
  rewrite (get_unfold _ _ _ this) by done. by rewrite Hout.
Qed.

Lemma computedGetter_clean (w : nat) (ev : evaluation) (st : state)
      (this : watcher) :
  watchers st !! w = Some this ->
  dirty this = false ->
  fst (computedGetter w ev st) = Normal (value this) /\
  configs (snd (computedGetter w ev st)) = configs st /\
  rest_of (snd (computedGetter w ev st)) = rest_of st.
Proof.
  intros H Hd. unfold computedGetter. rewrite H, Hd.
  destruct (forward_preserves w st) as (Hc & Hr). simpl in *.
  destruct (lookup_config _ _ w this Hc H) as (this' & H' & Hc').
  rewrite H'. simpl. apply config_dirty_value in Hc' as (_ & -> & _).
  done.
Qed.

Lemma computedGetter_dirty (w : nat) (ev : evaluation) (st : state)
      (this : watcher) (v : Js.value) :
  watchers st !! w = Some this ->
  dirty this = true ->
  get_outcome this ev = Normal v ->
  fst (computedGetter w ev st) = Normal v /\
  events (snd (computedGetter w ev st)) = events st ++ [EvGetter w] /\
  exists this',
    watchers (snd (computedGetter w ev st)) !! w = Some this' /\
    dirty this' = false /\ value this' = v.
Proof.
  intros H Hd Hout. unfold computedGetter.
  rewrite H, Hd, (evaluate_returned _ _ _ this v) by done.
  set (st1 := update_watcher w _ _).
  destruct (get_keeps_config w ev st this H) as (this1 & H1 & _).
  assert (watchers st1 !! w = Some (with_dirty false (with_value v this1)))
    as H1'.
  { exact (update_watcher_lookup w
             (fun x => with_dirty false (with_value v x)) _ this1 H1). }
  assert (events st1 = events st ++ [EvGetter w]) as He1.
  { destruct (events_get w ev st this H) as (He & _). by rewrite <- He. }
  destruct (forward_preserves w st1) as (Hc & Hr). simpl in *.
  destruct (lookup_config _ _ w _ Hc H1') as (this2 & H2 & Hc2).
  rewrite H2. simpl. apply config_dirty_value in Hc2 as (Hd2 & Hv2 & _).
  split; [by rewrite Hv2|]. split.
  - by rewrite (events_rest _ _ Hr).
  - by exists this2.
Qed.

Lemma computedGetter_throws (w : nat) (ev : evaluation) (st : state)
      (this : watcher) (e : error) :
  watchers st !! w = Some this ->
  dirty this = true ->
  get_outcome this ev = Throw e ->
  computedGetter w ev st = (Throw e, snd (get w ev st)).
Proof.
  intros H Hd Hout. unfold computedGetter.
  by rewrite H, Hd, (evaluate_threw _ _ _ this e).
Qed.

(** X4. A computed property is cached: once [computedGetter] has returned
    a value, the next read returns the same value without calling the
    getter, whatever the getter would do now. *)
Theorem computed_value_is_cached
        (w : nat) (ev ev' : evaluation) (st : state) (v : Js.value) :
  fst (computedGetter w ev st) = Normal v ->
  let st1 := snd (computedGetter w ev st) in
  fst (computedGetter w ev' st1) = Normal v /\
  events (snd (computedGetter w ev' st1)) = events st1.
Proof.
  intros Hv st1.
  assert (watchers st !! w = None \/
          exists this1, watchers st1 !! w = Some this1 /\
                        dirty this1 = false /\ value this1 = v) as [Hno|Hyes].
  { destruct (watchers st !! w) as [this|] eqn:H; [right|by left].
    destruct (dirty this) eqn:Hd.
    - destruct (get_outcome this ev) as [v0|e] eqn:Hout.
      + destruct (computedGetter_dirty w ev st this v0 H Hd Hout)
          as (Hf & _ & this1 & H1 & Hd1 & Hv1).
        exists this1. rewrite Hf in Hv. by injection Hv as <-.
      + by rewrite (computedGetter_throws w ev st this e) in Hv.
    - destruct (computedGetter_clean w ev st this H Hd) as (Hf & Hc & _).
      destruct (lookup_config _ _ w this Hc H) as (this1 & H1 & Hc1).
      apply config_dirty_value in Hc1 as (Hd1 & Hv1 & _).
      exists this1. rewrite Hf in Hv. injection Hv as <-.
      split; [done|]. split; congruence. }
  - subst st1. unfold computedGetter in *. rewrite Hno in *. simpl in *.
    by rewrite Hno.
  - destruct Hyes as (this1 & H1 & Hd1 & Hv1).
    destruct (computedGetter_clean w ev' st1 this1 H1 Hd1) as (Hf & _ & Hr).
    split; [by rewrite Hf, Hv1|]. by apply events_rest.
Qed.

Lemma computed_value_is_cached_witness :
  fst (computedGetter 1 returns_2 torn_down_lazy) = Normal (VNum 2) /\
  let st1 := snd (computedGetter 1 returns_2 torn_down_lazy) in
  fst (computedGetter 1 throws st1) = Normal (VNum 2) /\
  events (snd (computedGetter 1 throws st1)) = events st1.
Proof.
  assert (fst (computedGetter 1 returns_2 torn_down_lazy) = Normal (VNum 2))
    as Hv by (vm_compute; reflexivity).
  split; [exact Hv|].
  exact (computed_value_is_cached 1 returns_2 throws torn_down_lazy (VNum 2) Hv).
Defined.

(** X5. [update] of a lazy watcher runs nothing: no getter, no callback,
    nothing queued.  It only marks the watcher, and the next read through
    [computedGetter] calls the getter once and returns what it returns
    now. *)
Theorem computed_recomputes_after_update
        (w : nat) (ev ev' : evaluation) (cb : completion unit) (st : state)
        (this : watcher) (v' : Js.value) :
  watchers st !! w = Some this ->
  lazy this = true ->
  get_outcome this ev' = Normal v' ->
  let st1 := snd (update w ev cb st) in
  fst (update w ev cb st) = Normal tt /\
  events st1 = events st /\ queue st1 = queue st /\
  fst (computedGetter w ev' st1) = Normal v' /\
  events (snd (computedGetter w ev' st1)) = events st ++ [EvGetter w].
Proof.
  intros H Hlazy Hout. unfold update. rewrite H, Hlazy. simpl.
  split; [done|]. split; [done|]. split; [done|].
  assert (watchers (update_watcher w (with_dirty true) st) !! w =
          Some (with_dirty true this)) as H1 by by apply update_watcher_lookup.
  destruct (computedGetter_dirty w ev' _ _ v' H1 eq_refl Hout)
    as (Hf & He & _).
  done.
Qed.

Lemma computed_recomputes_after_update_witness :
  let st := snd (computedGetter 1 reads_3_5 torn_down_lazy) in
  watchers st !! 1 =
    Some (Watcher 0 "function" 1 false false true false false false [3; 5] []
                  {[3; 5]} ∅ None (GFunction 0) (VNum 1)) /\
  fst (computedGetter 1 returns_2 (snd (update 1 idle (Normal tt) st)))
    = Normal (VNum 2).
Proof.
  set (this := Watcher 0 "function" 1 false false true false false false
                       [3; 5] [] {[3; 5]} ∅ None (GFunction 0) (VNum 1)).
  assert (watchers (snd (computedGetter 1 reads_3_5 torn_down_lazy)) !! 1 =
          Some this) as H by (vm_compute; reflexivity).
  split; [exact H|].
  exact (proj1 (proj2 (proj2 (proj2
    (computed_recomputes_after_update 1 idle returns_2 (Normal tt) _ this
       (VNum 2) H eq_refl eq_refl))))).
Defined.

(** X6. When the getter of a dirty computed property throws,
    [computedGetter] throws the same error and reports nothing; the
    watcher stays dirty with its old value, so the next read calls the
    getter again. *)
Theorem computed_getter_throws
        (w : nat) (ev : evaluation) (st : state) (this : watcher) (e : error) :
  watchers st !! w = Some this ->
  dirty this = true ->
  user this = false ->
  getter this <> GNoop ->
  result ev = Throw e ->
  let st' := snd (computedGetter w ev st) in
  fst (computedGetter w ev st) = Throw e /\
  errors st' = errors st /\
  (exists this',
     watchers st' !! w = Some this' /\
     dirty this' = true /\ value this' = value this).
Proof.
  intros H Hd Hu Hg Hres.
  assert (snd (call_getter this ev) = Throw e) as Hcall.
  { unfold call_getter. by destruct (getter this). }
  assert (get_outcome this ev = Throw e) as Hout.
  { unfold get_outcome. by rewrite Hcall, Hu. }
  rewrite (computedGetter_throws w ev st this e) by done. simpl.
  split; [done|]. split.
  { destruct (events_get w ev st this H) as (_ & ->).
    unfold get_reports. rewrite Hcall, Hu. apply app_nil_r. }
  destruct (get_keeps_config w ev st this H) as (this' & H' & Hc).
  apply config_dirty_value in Hc as (Hd' & Hv' & _).
  exists this'. split; [done|]. split; congruence.
Qed.

Lemma computed_getter_throws_witness :
  fst (computedGetter 1 throws torn_down_lazy) = Throw (UserError 9) /\
  fst (computedGetter 1 returns_2
         (snd (computedGetter 1 throws torn_down_lazy))) = Normal (VNum 2).
Proof.
  set (this := Watcher 0 "function" 1 false false true false true false
                       [] [] ∅ ∅ None (GFunction 0) VUndefined).
  assert (watchers torn_down_lazy !! 1 = Some this) as H
      by (vm_compute; reflexivity).
  assert (getter this <> GNoop) as Hg by done.
  split; [|vm_compute; reflexivity].
  exact (proj1 (computed_getter_throws 1 throws torn_down_lazy this
                  (UserError 9) H eq_refl eq_refl Hg eq_refl)).
Defined.

(** *** A computed property hands its dependencies to its reader *)




(** *** [Dep.notify] *)

Lemma elem_of_insert_by_id (x a : nat) (l : list nat) :
  x ∈ insert_by_id a l <-> x = a \/ x ∈ l.
Proof.
  induction l as [|y l IH]; simpl; [set_solver|].
  destruct (a <=? y)%nat; [set_solver|].
  rewrite !elem_of_cons, IH. tauto.
Qed.

Lemma elem_of_sort_by_id (x : nat) (l : list nat) :
  x ∈ sort_by_id l <-> x ∈ l.
Proof.
  unfold sort_by_id. induction l as [|y l IH]; simpl; [done|].
  rewrite elem_of_insert_by_id, IH. set_solver.
Qed.

Lemma update_absent (w : nat) (ev : evaluation) (cb : completion unit)
      (st : state) :
  watchers st !! w = None -> update w ev cb st = (Normal tt, st).
Proof. intros H. unfold update. by rewrite H. Qed.

Lemma update_deferred (w : nat) (ev : evaluation) (cb : completion unit)
      (st : state) (this : watcher) :
  watchers st !! w = Some this ->
  runs_at_once this = false ->
  update w ev cb st =
  (Normal tt,
   if lazy this then update_watcher w (with_dirty true) st
   else queueWatcher w st).
Proof.
  intros H Hr. unfold update. rewrite H. unfold runs_at_once in Hr.
  destruct (lazy this); [done|]. by destruct (sync this).
Qed.

Lemma marked_ext (ws ws' : list nat) (x : nat) (this : watcher) :
  (x ∈ ws <-> x ∈ ws') -> marked ws x this = marked ws' x this.
Proof. intros Hiff. unfold marked. by rewrite (bool_decide_ext _ _ Hiff). Qed.

Lemma elem_of_queueWatcher (x w : nat) (st : state) :
  x ∈ queue (queueWatcher w st) <-> x ∈ queue st \/ x = w.
Proof.
  unfold queueWatcher. destruct (bool_decide (w ∈ queue st)) eqn:Hb.
  - apply bool_decide_eq_true in Hb. split; [auto|]. by intros [?| ->].
  - simpl. rewrite elem_of_app, list_elem_of_singleton. tauto.
Qed.

Lemma update_each_deferred (ws : list nat)
      (how : nat -> evaluation * completion unit) (st : state) :
  (forall w this, w ∈ ws -> watchers st !! w = Some this ->
                  runs_at_once this = false) ->
  let st' := snd (update_each ws how st) in
  fst (update_each ws how st) = Normal tt /\
  (events st' = events st /\ errors st' = errors st /\ subs st' = subs st /\
   target st' = target st /\ targetStack st' = targetStack st) /\
  (forall x, watchers st' !! x = marked ws x <$> watchers st !! x) /\
  (forall x, x ∈ queue st' <->
             x ∈ queue st \/
             x ∈ ws /\ exists this,
               watchers st !! x = Some this /\ lazy this = false).
Proof.
  revert st. induction ws as [|w ws IH]; intros st Hall; simpl.
  { split; [done|]. split; [done|]. split.
    - intros x. by destruct (watchers st !! x).
    - intros x. split; [auto|]. intros [?|[Hin _]]; [done|].
      by apply elem_of_nil in Hin. }
  destruct (watchers st !! w) as [this|] eqn:H.
  - rewrite (update_deferred _ _ _ _ this) by (done || (apply (Hall w); [left|done])).
    set (st1 := if lazy this then _ else _).
    assert ((events st1 = events st /\ errors st1 = errors st /\
             subs st1 = subs st /\ target st1 = target st /\
             targetStack st1 = targetStack st) /\
            (forall x, watchers st1 !! x =
                       if decide (w = x)
                       then Some (if lazy this then with_dirty true this else this)
                       else watchers st !! x) /\
            (forall x, x ∈ queue st1 <->
                       x ∈ queue st \/ x = w /\ lazy this = false))
      as (Hsame & Hw1 & Hq1).
    { subst st1. destruct (lazy this) eqn:Hlazy.
      - split; [done|]. split.
        + intros x. unfold update_watcher. simpl. rewrite lookup_alter.
          destruct (decide (w = x)) as [<-|]; [by rewrite H|done].
        + intros x. simpl. split; [auto|]. by intros [?|[_ ?]].
      - split.
        { unfold queueWatcher. by destruct (bool_decide _). }
        split.
        + intros x. assert (watchers (queueWatcher w st) = watchers st) as ->.
          { unfold queueWatcher. by destruct (bool_decide _). }
          destruct (decide (w = x)) as [<-|]; done.
        + intros x. rewrite elem_of_queueWatcher. split.
          * intros [?| ->]; auto.
          * intros [?|[-> _]]; auto. }
    destruct (IH st1) as (Hf & Hsame' & Hw' & Hq').
    { intros x that Hin Hl. rewrite Hw1 in Hl.
      destruct (decide (w = x)) as [<-|].
      - injection Hl as <-.
        assert (runs_at_once this = false) as Hr by (apply (Hall w); [left|done]).
        by destruct (lazy this).
      - apply (Hall x); [by right|done]. }
    split; [done|]. split.
    { destruct Hsame as (E1 & E2 & E3 & E4 & E5).
      destruct Hsame' as (F1 & F2 & F3 & F4 & F5).
      repeat split; congruence. }
    split.
    + intros x. rewrite Hw', Hw1.
      destruct (decide (w = x)) as [<-|Hne].
      * rewrite H. simpl. f_equal. unfold marked.
        rewrite (bool_decide_eq_true_2 (w ∈ w :: ws)) by left.
        destruct (lazy this) eqn:Hlazy; simpl; rewrite ?Hlazy.
        -- by destruct (bool_decide (w ∈ ws)).
        -- by rewrite ?andb_false_r.
      * destruct (watchers st !! x) as [that|]; [|done]. simpl. f_equal.
        apply marked_ext. set_solver.
    + intros x. rewrite Hq', Hq1, Hw1. split.
      * intros [[?|[-> Hlazy]]|[Hin (that & Hl & Hlazy)]]; [by left|..].
        { right. split; [left|]. by exists this. }
        destruct (decide (w = x)) as [<-|].
        { injection Hl as <-. right. split; [left|]. exists this.
          split; [done|].
          destruct (lazy this) eqn:E; [simpl in Hlazy; congruence|done]. }
        right. split; [by right|]. by exists that.
      * intros [?|[Hin (that & Hl & Hlazy)]]; [by left; left|].
        destruct (decide (w = x)) as [<-|Hne].
        { left. right. split; [done|]. congruence. }
        right. split; [set_solver|]. by exists that.
  - rewrite update_absent by done.
    destruct (IH st) as (Hf & Hsame' & Hw' & Hq').
    { intros x that Hin Hl. apply (Hall x); [by right|done]. }
    split; [done|]. split; [done|]. split.
    + intros x. rewrite Hw'.
      destruct (watchers st !! x) as [that|] eqn:Hl; [|done]. simpl. f_equal.
      apply marked_ext. assert (x <> w) by congruence. set_solver.
    + intros x. rewrite Hq'. split.
      * intros [?|[Hin Hex]]; [by left|]. right. split; [by right|done].
      * intros [?|[Hin (that & Hl & Hlazy)]]; [by left|].
        right. assert (x <> w) by congruence.
        split; [set_solver|]. by exists that.
Qed.

(** X8. When no subscriber of a [Dep] is a synchronous, non-lazy watcher,
    [notify] runs no getter and no callback and cannot throw: it marks
    the lazy subscribers dirty, hands exactly the others to the scheduler
    queue, and leaves every other watcher and every [subs] as it was. *)
Theorem notify_defers_all_work
        (d : nat) (sorted : bool) (how : nat -> evaluation * completion unit)
        (st : state) :
  (forall w this, w ∈ subs_of st d -> watchers st !! w = Some this ->
                  runs_at_once this = false) ->
  let st' := snd (notify d sorted how st) in
  fst (notify d sorted how st) = Normal tt /\
  (events st' = events st /\ errors st' = errors st /\ subs st' = subs st /\
   target st' = target st /\ targetStack st' = targetStack st) /\
  (forall x, watchers st' !! x = marked (subs_of st d) x <$> watchers st !! x) /\
  (forall x, x ∈ queue st' <->
             x ∈ queue st \/
             x ∈ subs_of st d /\ exists this,
               watchers st !! x = Some this /\ lazy this = false).
Proof.
  intros Hall. unfold notify.
  set (ws := if sorted then sort_by_id (subs_of st d) else subs_of st d).
  assert (forall x, x ∈ ws <-> x ∈ subs_of st d) as Hmem.
  { intros x. subst ws. destruct sorted; [apply elem_of_sort_by_id|done]. }
  destruct (update_each_deferred ws how st) as (Hf & Hsame & Hw & Hq).
  { intros w this Hin. apply Hall. by apply Hmem. }
  split; [done|]. split; [done|]. split.
  - intros x. rewrite Hw. destruct (watchers st !! x); [|done]. simpl.
    f_equal. apply marked_ext, Hmem.
  - intros x. rewrite Hq, Hmem. done.
Qed.

Lemma notify_defers_all_work_witness :
  fst (notify 5 true (fun _ => (throws, Throw (UserError 1))) one_watcher)
    = Normal tt /\
  queue (snd (notify 5 true (fun _ => (throws, Throw (UserError 1)))
                one_watcher)) = [1].
Proof.
  split; [|vm_compute; reflexivity].
  refine (proj1 (notify_defers_all_work 5 true
                   (fun _ => (throws, Throw (UserError 1))) one_watcher _)).
  intros w this Hin Hl.
  assert (subs_of one_watcher 5 = [1]) as Hs by (vm_compute; reflexivity).
  rewrite Hs in Hin. apply list_elem_of_singleton in Hin as ->.
  rewrite one_watcher_lookup in Hl. by injection Hl as <-.
Defined.

Lemma update_each_app (l1 l2 : list nat)
      (how : nat -> evaluation * completion unit) (st : state) :
  update_each (l1 ++ l2) how st =
  match update_each l1 how st with
  | (Throw e, s) => (Throw e, s)
  | (Normal _, s) => update_each l2 how s
  end.
Proof.
  revert st. induction l1 as [|w l1 IH]; intros st; simpl; [done|].
  destruct (update w (how w).1 (how w).2 st) as [[u|e] s]; [apply IH|done].
Qed.

(** X9. [notify] has no [try] around [subs[i].update()]: when a
    synchronous, non-lazy, internal subscriber's getter throws, [notify]
    throws the same error at once, and a subscriber that comes later in
    the list is neither marked, nor queued, nor run. *)
Theorem notify_stops_at_first_throw
        (d : nat) (sorted : bool) (how : nat -> evaluation * completion unit)
        (st : state) (ws1 ws2 : list nat) (w : nat) (this : watcher)
        (e : error) :
  (if sorted then sort_by_id (subs_of st d) else subs_of st d)
    = ws1 ++ w :: ws2 ->
  (forall x that, x ∈ ws1 -> watchers st !! x = Some that ->
                  runs_at_once that = false) ->
  watchers st !! w = Some this ->
  runs_at_once this = true ->
  active this = true ->
  get_outcome this (fst (how w)) = Throw e ->
  let st' := snd (notify d sorted how st) in
  fst (notify d sorted how st) = Throw e /\
  forall x, x ∈ ws2 -> x ∉ ws1 -> x <> w ->
            watchers st' !! x = watchers st !! x /\
            (x ∈ queue st' -> x ∈ queue st) /\
            events_of x st' = events_of x st.
Proof.
  intros Hws Hall H Hr Ha Hout. unfold notify. rewrite Hws, update_each_app.
  destruct (update_each_deferred ws1 how st Hall)
    as (Hf & (He1 & _) & Hw1 & Hq1).
  destruct (update_each ws1 how st) as [r st1]. simpl in *. subst r.
  unfold runs_at_once in Hr. apply andb_true_iff in Hr as [Hlazy Hsync].
  apply negb_true_iff in Hlazy.
  assert (watchers st1 !! w = Some this) as H1.
  { rewrite Hw1, H. simpl. unfold marked. by rewrite Hlazy, andb_false_r. }
  unfold update. rewrite H1, Hlazy, Hsync.
  rewrite (run_threw w _ _ st1 this e) by done. simpl.
  split; [done|]. intros x Hin2 Hnin1 Hne.
  destruct (get_isolated w (how w).1 st1) as (Hothers & _).
  pose proof (rest_of_get w (how w).1 st1 this H1) as Hrest.
  set (st2 := snd (get w (how w).1 st1)) in *.
  split; [|split].
  - rewrite Hothers, Hw1 by done.
    destruct (watchers st !! x) as [that|]; [|done]. simpl. f_equal.
    unfold marked. by rewrite bool_decide_eq_false_2.
  - assert (queue st2 = queue st1) as -> by (unfold rest_of in Hrest; congruence).
    rewrite Hq1. intros [?|[? _]]; done.
  - assert (events st2 = events st1 ++ [EvGetter w]) as Hev
        by (unfold rest_of in Hrest; congruence).
    unfold events_of. rewrite Hev, He1, filter_app.
    rewrite filter_cons_False, filter_nil, app_nil_r; [done|].
    simpl. rewrite bool_decide_eq_false_2 by done. done.
Qed.

Lemma notify_stops_at_first_throw_witness :
  let st := snd (new_Watcher 0 (EFunction 1) None false reads_3_5
               (snd (new_Watcher 0 (EFunction 0) sync_opts false reads_3_5
                       init))) in
  fst (notify 3 false (fun _ => (throws, Normal tt)) st)
    = Throw (UserError 9) /\
  queue (snd (notify 3 false (fun _ => (throws, Normal tt)) st)) = [].
Proof.
  set (st := snd (new_Watcher 0 (EFunction 1) None false reads_3_5
               (snd (new_Watcher 0 (EFunction 0) sync_opts false reads_3_5
                       init)))).
  set (this := Watcher 0 "function" 1 false false false true false true
                       [3; 5] [] {[3; 5]} ∅ None (GFunction 0) (VNum 1)).
  assert (subs_of st 3 = [] ++ 1 :: [2]) as Hws by (vm_compute; reflexivity).
  assert (watchers st !! 1 = Some this) as H by (vm_compute; reflexivity).
  assert (forall x that, x ∈ @nil nat -> watchers st !! x = Some that ->
                         runs_at_once that = false) as Hall.
  { intros x that Hin. by apply elem_of_nil in Hin. }
  split; [|vm_compute; reflexivity].
  exact (proj1 (notify_stops_at_first_throw 3 false
                  (fun _ => (throws, Normal tt)) st [] [2] 1 this (UserError 9)
                  Hws Hall H eq_refl eq_refl eq_refl)).
Defined.

(** *** [getData] *)

Lemma depend_all_no_target (ds : list nat) (st : state) :
  (forall x, target st <> TWatcher x) -> depend_all ds st = st.
Proof.
  intros Ht. induction ds as [|d ds IH]; [done|].
  change (depend_all ds (depend d st) = st).
  assert (depend d st = st) as ->; [|done].
  unfold depend. destruct (target st) eqn:E; try done.
  by destruct (Ht w).
Qed.

Lemma getData_direct (dc : data_call) (st : state) :
  let st' := snd (getData dc st) in
  watchers st' = watchers st /\ subs st' = subs st /\
  events st' = events st /\
  (match data_result dc with
   | Normal v => fst (getData dc st) = DataReturned v /\ errors st' = errors st
   | Throw e =>
       fst (getData dc st) = DataEmpty /\
       errors st' = errors st ++ [(e, "data()")]
   end) /\
  (forall x, target st = TWatcher x ->
             target st' = TWatcher x /\ targetStack st' = targetStack st).
Proof.
  unfold getData.
  set (st1 := pushTarget TUndefined st).
  assert (target st1 = TUndefined) as Ht1.
  { subst st1. unfold pushTarget. by destruct (target st). }
  rewrite (depend_all_no_target _ st1) by (intros x; by rewrite Ht1).
  assert (forall l,
            let s := popTarget (add_errors l st1) in
            watchers s = watchers st /\ subs s = subs st /\
            events s = events st /\ errors s = errors st ++ l /\
            forall x, target st = TWatcher x ->
                      target s = TWatcher x /\ targetStack s = targetStack st)
    as Hpop.
  { intros l. subst st1. unfold popTarget, pushTarget.
    destruct (target st) eqn:Ht; simpl;
      try (destruct (last (targetStack st)); simpl;
           repeat split; done).
    rewrite last_snoc. simpl. rewrite removelast_last.
    repeat split; try done; congruence. }
  destruct (data_result dc) as [v|e]; simpl.
  - destruct (Hpop []) as (Hw & Hs & Hev & Her & Ht).
    rewrite add_errors_nil, app_nil_r in *. done.
  - destruct (Hpop [(e, "data()")]) as (Hw & Hs & Hev & Her & Ht). done.
Qed.

(** *** [$watch] *)

Lemma new_Watcher_user (vmid : nat) (e : expOrFn) (o : options) (r : bool)
      (ev : evaluation) (st : state) :
  opt_user o = true ->
  fst (new_Watcher vmid e (Some o) r ev st) = Normal (S (uid st)) /\
  exists this,
    watchers (snd (new_Watcher vmid e (Some o) r ev st)) !! S (uid st)
      = Some this /\
    user this = true /\
    errors (snd (new_Watcher vmid e (Some o) r ev st)) =
      errors st ++ (if opt_lazy o then [] else get_reports this ev).
Proof.
  intros Hu. unfold new_Watcher. simpl default.
  set (c1 := Component _ _ _).
  set (this := Watcher _ _ _ _ _ _ _ _ _ _ _ _ _ _ _ _).
  set (st1 := set_uid _ _).
  assert (watchers st1 !! S (uid st) = Some this) as H1.
  { subst st1. simpl. by rewrite lookup_insert_eq. }
  assert (user this = true) as Hu1 by done.
  destruct (opt_lazy o) eqn:Hlazy; simpl.
  { split; [done|]. exists this. by rewrite app_nil_r. }
  destruct (get_keeps_config _ ev st1 this H1) as (this2 & H2 & Hc).
  destruct (events_get _ ev st1 this H1) as (_ & Herr).
  assert (get_reports this2 ev = get_reports this ev) as Hrep.
  { apply config_dirty_value in Hc as (_ & _ & _ & Hu2 & _ & Hg2 & _ & Hx2).
    unfold get_reports, call_getter, getter_info. by rewrite Hu2, Hg2, Hx2. }
  apply config_dirty_value in Hc as (_ & _ & _ & Hu2 & _).
  rewrite (get_unfold _ _ _ this) in * by done.
  assert (exists v, get_outcome this ev = Normal v) as (v & Hout).
  { unfold get_outcome. rewrite Hu1.
    destruct (snd (call_getter this ev)); eauto. }
  rewrite Hout. simpl in *. split; [done|].
  exists (with_value v this2). split.
  - by apply update_watcher_lookup.
  - split; [by rewrite <- Hu1|]. rewrite Herr. f_equal. symmetry. exact Hrep.
Qed.

Lemma vm_watch_direct
        (vmid : nat) (e : expOrFn) (opts : option options) (immediate : bool)
        (ev : evaluation) (cb : completion unit) (st : state) :
  wf st ->
  let w := S (uid st) in
  let st' := snd (vm_watch vmid e opts immediate ev cb st) in
  fst (vm_watch vmid e opts immediate ev cb st) =
    (match cb with
     | Throw err => if immediate then Throw err else Normal w
     | Normal _ => Normal w
     end) /\
  (exists this,
     watchers st' !! w = Some this /\ user this = true /\ active this = true /\
     events_of w st' =
       events_of w st ++
       (if lazy this then [] else [EvGetter w]) ++
       (if immediate then [EvCallback w (value this) VUndefined] else [])) /\
  (forall d, subs_of (unwatchFn w st') d = subs_of st d).
Proof.
  intros Hwf w st'. subst w st'. unfold vm_watch, unwatchFn.
  set (o := default (Options false false false false None) opts).
  set (o1 := Options _ true _ _ _).
  destruct (new_Watcher_user vmid e o1 false ev st eq_refl)
    as (Hf & this & H & Hu & _).
  destruct (new_Watcher_state vmid e (Some o1) false ev st)
    as ((this' & H' & Ha & Hq) & Hs).
  pose proof (wf_new_Watcher vmid e (Some o1) false ev st Hwf) as Hwf1.
  assert (this' = this) as -> by congruence.
  assert (forall s',
            wf s' -> watchers s' !! S (uid st) = Some this ->
            subs s' = subs (snd (new_Watcher vmid e (Some o1) false ev st)) ->
            forall d, subs_of (teardown (S (uid st)) s') d = subs_of st d)
    as Hround.
  { intros s' Hwf' Hl' Hsubs d. rewrite (teardown_subs _ _ this) by done.
    specialize (Hs d). unfold subs_without, subs_of in *. rewrite Hsubs, Hs.
    apply filter_absent. intros Hin.
    destruct Hwf as (Hws & _ & Hreg).
    destruct (Hreg d _ Hin) as (this0 & H0 & _).
    destruct (Hws _ _ H0) as (Hle & _). lia. }
  assert (events_of (S (uid st))
            (snd (new_Watcher vmid e (Some o1) false ev st)) =
          events_of (S (uid st)) st ++
          (if lazy this then [] else [EvGetter (S (uid st))])) as Hev.
  { clear Hround Hs Hf. revert H. unfold new_Watcher. simpl default.
    set (c1 := Component _ _ _).
    set (this0 := Watcher _ _ _ _ _ _ _ _ _ _ _ _ _ _ _ _).
    set (st1 := set_uid _ _).
    assert (watchers st1 !! S (uid st) = Some this0) as H1.
    { subst st1. simpl. by rewrite lookup_insert_eq. }
    assert (lazy this0 = opt_lazy o1) as Hl0 by done.
    destruct (opt_lazy o1) eqn:Hlazy; cbn [snd].
    { rewrite H1. intros [= <-]. rewrite Hl0. by rewrite app_nil_r. }
    destruct (get_keeps_config _ ev st1 this0 H1) as (this2 & H2 & Hc).
    apply config_dirty_value in Hc as (_ & _ & _ & _ & Hl2 & _).
    destruct (events_get _ ev st1 this0 H1) as (Hev1 & _).
    assert (events_of (S (uid st)) (snd (get (S (uid st)) ev st1)) =
            events_of (S (uid st)) st ++ [EvGetter (S (uid st))]) as Hev2.
    { unfold events_of. rewrite Hev1, filter_app.
      rewrite filter_cons_True by (simpl; by rewrite bool_decide_eq_true_2).
      done. }
    destruct (get (S (uid st)) ev st1) as [[v|err] st2]; cbn [snd] in *.
    - rewrite (update_watcher_lookup _ _ _ this2) by done.
      intros [= <-]. cbn [lazy with_value]. rewrite Hl2, Hl0. exact Hev2.
    - rewrite H2. intros [= <-]. rewrite Hl2, Hl0. exact Hev2. }
  destruct (new_Watcher vmid e (Some o1) false ev st) as [r st1].
  simpl in *. subst r.
  destruct immediate.
  - rewrite H. simpl.
    assert (events_of (S (uid st))
              (emit (EvCallback (S (uid st)) (value this) VUndefined) st1) =
            events_of (S (uid st)) st ++
            (if lazy this then [] else [EvGetter (S (uid st))]) ++
            [EvCallback (S (uid st)) (value this) VUndefined]) as Hev2.
    { unfold events_of in *. simpl. rewrite filter_app, Hev.
      rewrite filter_cons_True by (simpl; by rewrite bool_decide_eq_true_2).
      by rewrite <- app_assoc. }
    assert (forall d,
              subs_of (teardown (S (uid st))
                         (emit (EvCallback (S (uid st)) (value this) VUndefined)
                               st1)) d = subs_of st d) as Hround2.
    { apply Hround; [by apply wf_emit|done|done]. }
    destruct cb as [u|err]; simpl.
    + split; [done|]. split; [|done]. exists this. done.
    + split; [done|]. split; [|done]. exists this. done.
  - assert (fst (Normal (S (uid st)) : completion nat, st1) =
            match cb with
            | Normal _ => Normal (S (uid st))
            | Throw _ => Normal (S (uid st))
            end) as Hfst by by destruct cb.
    split; [done|]. split; [|by apply Hround]. exists this.
    by rewrite app_nil_r.
Qed.

End ObserverMore.

(** ** Getters that call back into the module *)

Module ObserverCalls.
Import Js Observer ObserverFacts ObserverMore.

Lemma call_nested_ind (P : call -> Prop) :
  (forall d, P (CallDepend d)) ->
  (forall w calls res walk,
     Forall P calls -> P (CallComputed w calls res walk)) ->
  (forall calls res, Forall P calls -> P (CallGetData calls res)) ->
  forall c, P c.
Proof.
  intros HD HC HG. fix IH 1. intros [d|w calls res walk|calls res].
  - apply HD.
  - apply HC. induction calls as [|c calls IHcalls]; constructor;
      [apply IH|exact IHcalls].
  - apply HG. induction calls as [|c calls IHcalls]; constructor;
      [apply IH|exact IHcalls].
Qed.

(** *** A function that only calls [dep.depend()] *)

Lemma in_order_direct (calls : list call) (st : state) :
  forallb direct calls = true ->
  in_order do_call calls st = Some (Normal tt, depend_all (own_reads calls) st).
Proof.
  revert st. induction calls as [|c calls IH]; intros st H; [done|].
  destruct c as [d| |]; try done. simpl in H.
  exact (IH (depend d st) H).
Qed.

Lemma get_calling_direct (w : nat) (calls : list call)
      (res : completion Js.value) (ds : list nat) (st : state) :
  forallb direct calls = true ->
  get_calling w calls res (Walked ds) st =
  Some (get w (Evaluation (own_reads calls) res ds) st).
Proof.
  intros H.
  unfold get_calling, get_by, get, run_fn, call_getter, traverse_reads.
  destruct (watchers st !! w) as [this|]; [|done].
  rewrite (in_order_direct _ _ H). cbn [reads result deep_reads].
  destruct (getter this), res as [v|err], (user this), (deep this);
    simpl; try done; by destruct (isObject v).
Qed.

Lemma computedGetter_calling_direct (w : nat) (calls : list call)
      (res : completion Js.value) (ds : list nat) (st : state) :
  forallb direct calls = true ->
  computedGetter_calling w calls res (Walked ds) st =
  Some (computedGetter w (Evaluation (own_reads calls) res ds) st).
Proof.
  intros H. unfold computedGetter_calling, computedGetter_by, computedGetter.
  destruct (watchers st !! w) as [this|]; [|done].
  fold get_calling. rewrite (get_calling_direct _ _ _ _ _ H). unfold evaluate.
  destruct (dirty this); [|done].
  by destruct (get w _ st) as [[v|err] st1].
Qed.

Lemma getData_calling_direct (calls : list call) (res : completion Js.value)
      (st : state) :
  forallb direct calls = true ->
  getData_calling calls res st =
  Some (getData (DataCall (own_reads calls) res) st).
Proof.
  intros H. unfold getData_calling, getData_by, getData, run_fn.
  rewrite (in_order_direct _ _ H). by destruct res.
Qed.

Lemma new_Watcher_calling_direct
      (vmid : nat) (e : expOrFn) (opts : option options) (r : bool)
      (calls : list call) (res : completion Js.value) (ds : list nat)
      (st : state) :
  forallb direct calls = true ->
  new_Watcher_calling vmid e opts r calls res (Walked ds) st =
  Some (new_Watcher vmid e opts r (Evaluation (own_reads calls) res ds) st).
Proof.
  intros H. unfold new_Watcher_calling, new_Watcher.
  destruct (opt_lazy _); [done|].
  rewrite (get_calling_direct _ _ _ _ _ H).
  by destruct (get _ _ _) as [[v|err] st1].
Qed.

Lemma vm_watch_calling_direct
      (vmid : nat) (e : expOrFn) (opts : option options) (immediate : bool)
      (calls : list call) (res : completion Js.value) (ds : list nat)
      (cb : completion unit) (st : state) :
  forallb direct calls = true ->
  vm_watch_calling vmid e opts immediate calls res (Walked ds) cb st =
  Some (vm_watch vmid e opts immediate (Evaluation (own_reads calls) res ds)
          cb st).
Proof.
  intros H. unfold vm_watch_calling, vm_watch.
  rewrite (new_Watcher_calling_direct _ _ _ _ _ _ _ _ H).
  destruct (new_Watcher _ _ _ _ _ _) as [[w|err] st1]; [|done].
  destruct immediate; [|done]. by destruct cb.
Qed.

(** *** What every call keeps *)

Lemma kinds_of_configs (st st' : state) :
  configs st' = configs st -> kinds st' = kinds st.
Proof.
  intros Hc. apply map_eq. intros i.
  apply (f_equal (fun m => m !! i)) in Hc. rewrite !configs_lookup in Hc.
  unfold kinds. rewrite !lookup_fmap.
  destruct (watchers st' !! i) as [a|], (watchers st !! i) as [b|];
    simpl in *; try done.
  assert (config_of a = config_of b) as Hab by congruence.
  unfold config_of in Hab. unfold kind_of. congruence.
Qed.

Lemma kinds_update_watcher (x : nat) (f : watcher -> watcher) (st : state) :
  (forall y, kind_of (f y) = kind_of y) ->
  kinds (update_watcher x f st) = kinds st.
Proof.
  intros Hf. apply map_eq. intros i. unfold kinds, update_watcher. simpl.
  rewrite !lookup_fmap, lookup_alter.
  destruct (decide (x = i)) as [<-|]; [|done].
  destruct (watchers st !! x); simpl; [|done]. by rewrite Hf.
Qed.

Lemma kinds_lookup (st st' : state) (w : nat) (this : watcher) :
  kinds st' = kinds st ->
  watchers st !! w = Some this ->
  exists this', watchers st' !! w = Some this' /\ kind_of this' = kind_of this.
Proof.
  intros Hk H. apply (f_equal (fun m => m !! w)) in Hk. unfold kinds in Hk.
  rewrite !lookup_fmap, H in Hk.
  destruct (watchers st' !! w) as [this'|]; [|done].
  exists this'. split; [done|]. simpl in Hk. congruence.
Qed.

Lemma kept_refl (st : state) : kept st st.
Proof. by split. Qed.

Lemma kept_trans (st1 st2 st3 : state) :
  kept st1 st2 -> kept st2 st3 -> kept st1 st3.
Proof. intros [H1 K1] [H2 K2]. split; [auto|congruence]. Qed.

Lemma kept_ext (st st' : state) :
  watchers st' = watchers st -> subs st' = subs st -> uid st' = uid st ->
  kept st st'.
Proof.
  intros Hw Hs Hu. split; [by apply wf_ext|]. unfold kinds. by rewrite Hw.
Qed.

Lemma kept_pushTarget (t : target_ref) (st : state) : kept st (pushTarget t st).
Proof. apply kept_ext; unfold pushTarget; by destruct (target st). Qed.

Lemma kept_popTarget (st : state) : kept st (popTarget st).
Proof. apply kept_ext; unfold popTarget; by destruct (last (targetStack st)). Qed.

Lemma kept_emit (ev : event) (st : state) : kept st (emit ev st).
Proof. by apply kept_ext. Qed.

Lemma kept_handleError (err : error) (info : string) (st : state) :
  kept st (handleError err info st).
Proof. by apply kept_ext. Qed.

Lemma kept_depend_all (ds : list nat) (st : state) : kept st (depend_all ds st).
Proof.
  destruct (depend_all_preserves ds st) as (Hc & _ & Hwf).
  split; [done|by apply kinds_of_configs].
Qed.

Lemma kept_cleanupDeps (w : nat) (st : state) : kept st (cleanupDeps w st).
Proof.
  split; [apply wf_cleanupDeps|apply kinds_of_configs, configs_cleanupDeps].
Qed.

Lemma kept_watcher_depend (w : nat) (st : state) : kept st (watcher_depend w st).
Proof.
  unfold watcher_depend.
  destruct (watchers st !! w); [apply kept_depend_all|apply kept_refl].
Qed.

Lemma kept_update_watcher (w : nat) (f : watcher -> watcher) (st : state) :
  keeps_deps f -> (forall y, kind_of (f y) = kind_of y) ->
  kept st (update_watcher w f st).
Proof.
  intros Hd Hk. split; [by apply wf_update_watcher|by apply kinds_update_watcher].
Qed.

Lemma kept_end_of_pass (w : nat) (st st4 : state) :
  kept st st4 -> kept st (cleanupDeps w (popTarget st4)).
Proof.
  intros K. eapply kept_trans; [exact K|].
  eapply kept_trans; [apply kept_popTarget|apply kept_cleanupDeps].
Qed.

Lemma in_order_kept (calls : list call) :
  Forall (fun c => forall st r st', do_call c st = Some (r, st') -> kept st st')
         calls ->
  forall st r st', in_order do_call calls st = Some (r, st') -> kept st st'.
Proof.
  induction 1 as [|c calls Hc _ IH]; intros st r st' H.
  - simpl in H. simplify_eq. apply kept_refl.
  - simpl in H. destruct (do_call c st) as [[[u|err] st1]|] eqn:E; [| |done].
    + eapply kept_trans; [by eapply Hc|]. eapply IH. exact H.
    + simplify_eq. by eapply Hc.
Qed.

Lemma run_fn_kept (calls : list call) (res : completion Js.value) :
  Forall (fun c => forall st r st', do_call c st = Some (r, st') -> kept st st')
         calls ->
  forall st r st', run_fn do_call calls res st = Some (r, st') -> kept st st'.
Proof.
  intros HF st r st' H. unfold run_fn in H.
  destruct (in_order do_call calls st) as [[[u|err] st1]|] eqn:E; [| |done];
    simplify_eq; by eapply in_order_kept.
Qed.

(** A pass of [get] ends with [popTarget] and [cleanupDeps], unless
    [traverse] throws. *)
Lemma get_by_shape (calls : list call) (res : completion Js.value) :
  (forall st r st', run_fn do_call calls res st = Some (r, st') -> kept st st') ->
  forall w walk st r st' this,
    watchers st !! w = Some this ->
    get_calling w calls res walk st = Some (r, st') ->
    kept st st' /\
    ((forall ds err, walk <> WalkThrew ds err) ->
     (exists st4, kept st st4 /\ st' = cleanupDeps w (popTarget st4)) /\
     (user this = true -> exists v, r = Normal v)).
Proof.
  intros Hrun w walk st r st' this Hl H. unfold get_calling, get_by in H.
  rewrite Hl in H. set (st1 := emit _ _) in H.
  assert (kept st st1) as K1.
  { eapply kept_trans; [apply kept_pushTarget|apply kept_emit]. }
  destruct (match getter this with
            | GNoop => _
            | _ => _
            end) as [[r0 st2]|] eqn:E; [|done].
  assert (kept st st2) as K2.
  { eapply kept_trans; [exact K1|].
    destruct (getter this); first [by eapply Hrun|simplify_eq; apply kept_refl]. }
  assert (forall st3 v (x : completion Js.value),
            kept st st3 ->
            (if deep this && isObject v then
               match walk with
               | Walked ds =>
                   Some (x, cleanupDeps w (popTarget (depend_all ds st3)))
               | WalkThrew ds err => Some (Throw err, depend_all ds st3)
               | WalkEndless => None
               end
             else Some (x, cleanupDeps w (popTarget st3))) = Some (r, st') ->
            kept st st' /\
            ((forall ds err, walk <> WalkThrew ds err) ->
             (exists st4, kept st st4 /\ st' = cleanupDeps w (popTarget st4)) /\
             x = r))
    as Hfin.
  { intros st3 v x K3 Hm. destruct (deep this && isObject v).
    - destruct walk as [ds|ds err|]; [| |done]; simplify_eq.
      + assert (kept st (depend_all ds st3)) as K4.
        { eapply kept_trans; [exact K3|apply kept_depend_all]. }
        split; [by apply kept_end_of_pass|]. intros _.
        split; [|done]. by exists (depend_all ds st3).
      + split; [eapply kept_trans; [exact K3|apply kept_depend_all]|].
        intros Hno. by destruct (Hno ds err).
    - simplify_eq. split; [by apply kept_end_of_pass|]. intros _.
      split; [|done]. by exists st3. }
  destruct r0 as [v|err]; [|destruct (user this)]; cbv beta iota zeta in H.
  - destruct (Hfin _ _ _ K2 H) as (K & Hrest). split; [done|].
    intros Hno. destruct (Hrest Hno) as (Hst & <-). eauto.
  - assert (kept st (handleError err (getter_info this) st2)) as K3.
    { eapply kept_trans; [exact K2|apply kept_handleError]. }
    destruct (Hfin _ _ _ K3 H) as (K & Hrest). split; [done|].
    intros Hno. destruct (Hrest Hno) as (Hst & <-). eauto.
  - destruct (Hfin _ _ _ K2 H) as (K & Hrest). split; [done|].
    intros Hno. destruct (Hrest Hno) as (Hst & <-). split; [done|]. done.
Qed.

Lemma get_by_kept (calls : list call) (res : completion Js.value) :
  (forall st r st', run_fn do_call calls res st = Some (r, st') -> kept st st') ->
  forall w walk st r st',
    get_calling w calls res walk st = Some (r, st') -> kept st st'.
Proof.
  intros Hrun w walk st r st' H.
  destruct (watchers st !! w) as [this|] eqn:Hl.
  - by destruct (get_by_shape _ _ Hrun _ _ _ _ _ _ Hl H) as (K & _).
  - unfold get_calling, get_by in H. rewrite Hl in H. simplify_eq.
    apply kept_refl.
Qed.

Lemma computedGetter_by_kept (calls : list call) (res : completion Js.value) :
  (forall st r st', run_fn do_call calls res st = Some (r, st') -> kept st st') ->
  forall w walk st r st',
    computedGetter_calling w calls res walk st = Some (r, st') -> kept st st'.
Proof.
  intros Hrun w walk st r st' H.
  unfold computedGetter_calling, computedGetter_by in H. fold get_calling in H.
  destruct (watchers st !! w) as [this|]; [|simplify_eq; apply kept_refl].
  assert (forall st1, kept st st1 ->
            kept st (match target st1 with
                     | TWatcher _ => watcher_depend w st1
                     | _ => st1
                     end)) as Hdep.
  { intros st1 K1. eapply kept_trans; [exact K1|].
    destruct (target st1); first [apply kept_watcher_depend|apply kept_refl]. }
  destruct (dirty this).
  - destruct (get_calling w calls res walk st) as [[[v|err] st1]|] eqn:E;
      [| |done].
    + pose proof (get_by_kept _ _ Hrun _ _ _ _ _ E) as K1.
      cbv beta iota zeta in H. simplify_eq. apply Hdep.
      eapply kept_trans; [exact K1|]. apply kept_update_watcher; [|done].
      intros x. done.
    + simplify_eq. by eapply get_by_kept.
  - cbv beta iota zeta in H. simplify_eq. apply Hdep, kept_refl.
Qed.

Lemma getData_by_kept (calls : list call) (res : completion Js.value) :
  (forall st r st', run_fn do_call calls res st = Some (r, st') -> kept st st') ->
  forall st r st', getData_calling calls res st = Some (r, st') -> kept st st'.
Proof.
  intros Hrun st r st' H. unfold getData_calling, getData_by in H.
  destruct (run_fn do_call calls res (pushTarget TUndefined st))
    as [[[v|err] st2]|] eqn:E; [| |done]; simplify_eq.
  - eapply kept_trans; [apply kept_pushTarget|].
    eapply kept_trans; [by eapply Hrun|apply kept_popTarget].
  - eapply kept_trans; [apply kept_pushTarget|].
    eapply kept_trans; [by eapply Hrun|].
    eapply kept_trans; [apply kept_handleError|apply kept_popTarget].
Qed.

Lemma do_call_kept (c : call) :
  forall st r st', do_call c st = Some (r, st') -> kept st st'.
Proof.
  induction c as [d|w calls res walk IH|calls res IH] using call_nested_ind;
    intros st r st' H.
  - simpl in H. simplify_eq. apply (kept_depend_all [d]).
  - cbn [do_call] in H. fold (computedGetter_calling w calls res walk st) in H.
    destruct (computedGetter_calling w calls res walk st)
      as [[[v|err] st1]|] eqn:E; [| |done]; simplify_eq;
      (eapply computedGetter_by_kept; [|exact E]);
      by apply run_fn_kept.
  - cbn [do_call] in H. fold (getData_calling calls res st) in H.
    destruct (getData_calling calls res st) as [[v st1]|] eqn:E; [|done].
    simplify_eq. eapply getData_by_kept; [|exact E]. by apply run_fn_kept.
Qed.

Lemma run_fn_do_call_kept (calls : list call) (res : completion Js.value)
      (st : state) (r : completion Js.value) (st' : state) :
  run_fn do_call calls res st = Some (r, st') -> kept st st'.
Proof.
  apply run_fn_kept, Forall_forall. intros c _. apply do_call_kept.
Qed.

Lemma get_calling_kept (w : nat) (calls : list call)
      (res : completion Js.value) (walk : traversal) (st : state)
      (r : completion Js.value) (st' : state) :
  get_calling w calls res walk st = Some (r, st') -> kept st st'.
Proof. apply get_by_kept. intros st0 r0 st0'. apply run_fn_do_call_kept. Qed.

(** After its pass a watcher is what it was, with no pending
    dependency, unless [traverse] threw; the getter of a user watcher
    does not make the pass throw. *)
Lemma get_calling_quiescent (w : nat) (calls : list call)
      (res : completion Js.value) (walk : traversal) (st : state)
      (r : completion Js.value) (st' : state) (this : watcher) :
  watchers st !! w = Some this ->
  (forall ds err, walk <> WalkThrew ds err) ->
  get_calling w calls res walk st = Some (r, st') ->
  (exists this',
     watchers st' !! w = Some this' /\ kind_of this' = kind_of this /\
     newDeps this' = []) /\
  (user this = true -> exists v, r = Normal v).
Proof.
  intros Hl Hno H.
  destruct (get_by_shape calls res (run_fn_do_call_kept calls res)
              _ _ _ _ _ _ Hl H) as (_ & Hrest).
  destruct (Hrest Hno) as ((st4 & K & ->) & Hu).
  split; [|done].
  destruct K as [_ K].
  destruct (kinds_lookup st (popTarget st4) w this) as (this4 & H4 & Hk4);
    [|done|].
  { rewrite <- K. unfold kinds, popTarget. by destruct (last _). }
  destruct (cleanupDeps_spec w _ this4 H4) as (_ & Hw & _).
  exists (with_swapped this4). rewrite Hw, lookup_insert_eq.
  split; [done|]. split; [|done]. rewrite <- Hk4. done.
Qed.

(** *** The constructor *)

Lemma new_Watcher_calling_state
      (vmid : nat) (e : expOrFn) (opts : option options) (r : bool)
      (calls : list call) (res : completion Js.value)
      (walk : traversal) (st : state)
      (c : completion nat) (st' : state) :
  wf st ->
  (forall ds err, walk <> WalkThrew ds err) ->
  new_Watcher_calling vmid e opts r calls res walk st = Some (c, st') ->
  wf st' /\
  (exists this,
     watchers st' !! S (uid st) = Some this /\ active this = true /\
     user this = opt_user (default (Options false false false false None) opts)
     /\ newDeps this = []) /\
  (opt_user (default (Options false false false false None) opts) = true ->
   c = Normal (S (uid st))).
Proof.
  intros Hwf Hno H. unfold new_Watcher_calling in H.
  set (o := default (Options false false false false None) opts) in *.
  set (c1 := Component _ _ _) in H.
  set (this := Watcher _ _ _ _ _ _ _ _ _ _ _ _ _ _ _ _) in H.
  set (st1 := set_uid _ _) in H.
  assert (watchers st1 !! S (uid st) = Some this) as H1.
  { subst st1. simpl. by rewrite lookup_insert_eq. }
  assert (wf st1) as Hwf1.
  { destruct Hwf as (Hws & Hnd & Hreg). split; [|split].
    - intros w' this'. subst st1. simpl. rewrite lookup_insert.
      destruct (decide (S (uid st) = w')) as [<-|].
      + intros [= <-]. simpl. repeat split; auto using NoDup_nil_2.
      + intros H'. destruct (Hws _ _ H') as (Hle & Hrest). split; [lia|done].
    - done.
    - intros d w' Hin. destruct (Hreg d w' Hin) as (this0 & H0 & Hor).
      subst st1. simpl. rewrite lookup_insert_ne; [eauto|].
      destruct (Hws _ _ H0) as (Hle & _). lia. }
  destruct (opt_lazy o).
  { simplify_eq. split; [done|]. split; [by exists this|done]. }
  destruct (get_calling (S (uid st)) calls res walk st1)
    as [[r0 st2]|] eqn:E; [|done].
  destruct (get_calling_quiescent _ _ _ _ _ _ _ _ H1 Hno E)
    as ((this2 & H2 & Hk & Hq) & Hu).
  destruct (get_calling_kept _ _ _ _ _ _ _ E) as [Hwf2 _].
  assert (active this2 = true /\ user this2 = opt_user o) as [Ha2 Hu2].
  { unfold kind_of in Hk.
    split; [transitivity (active this)|transitivity (user this)];
      (congruence || done). }
  destruct r0 as [v|err]; simplify_eq.
  - split; [apply wf_update_watcher; [apply keeps_deps_with_value|auto]|].
    split; [|done]. exists (with_value v this2).
    split; [by apply update_watcher_lookup|done].
  - split; [auto|]. split; [by exists this2|].
    intros Ho. destruct Hu as (v & Hv); [|done]. by rewrite <- Ho.
Qed.

(** *** The properties at concrete inputs *)

(** Watcher [1] reads a computed property: the computed watcher [2] is
    evaluated inside the pass, gets the dependency [7], and the [Dep]
    [7] gets both watchers. *)
Lemma get_through_computed_touches_another :
  (deps <$> watchers with_computed !! 2) = Some [] /\
  subs_of with_computed 7 = [] /\
  exists st',
    get_calling 1 through_computed (Normal (VNum 1)) (Walked []) with_computed =
      Some (Normal (VNum 1), st') /\
    (deps <$> watchers st' !! 1) = Some [7; 5] /\
    (deps <$> watchers st' !! 2) = Some [7] /\
    subs_of st' 7 = [2; 1].
Proof.
  split; [vm_compute; reflexivity|]. split; [vm_compute; reflexivity|].
  eexists. split; [vm_compute; reflexivity|]. vm_compute. done.
Qed.

(** [getData] while watcher [1] is being evaluated, with a [data]
    function that reads the computed property and then the [Dep] [9]:
    the evaluation of the computed watcher pops what [getData] pushed,
    so watcher [1] collects the [Dep]s [7] and [9], and [getData] leaves
    [Dep.target] undefined. *)
Lemma getData_reading_computed_collects :
  let st := pushTarget (TWatcher 1) with_computed in
  target st = TWatcher 1 /\
  (newDeps <$> watchers st !! 1) = Some [] /\
  exists st',
    getData_calling
      [CallComputed 2 [CallDepend 7] (Normal (VNum 0)) (Walked []); CallDepend 9]
      (Normal (VObj 0)) st = Some (DataReturned (VObj 0), st') /\
    (newDeps <$> watchers st' !! 1) = Some [7; 9] /\
    subs_of st' 9 = [1] /\
    target st' = TUndefined.
Proof.
  split; [vm_compute; reflexivity|]. split; [vm_compute; reflexivity|].
  eexists. split; [vm_compute; reflexivity|]. vm_compute. done.
Qed.

(** A watcher created with a getter that reads the computed property,
    and torn down: the [Dep] [7] keeps the computed watcher, which it
    did not have before. *)
Lemma new_teardown_after_computed :
  subs_of with_computed 7 = [] /\
  exists st',
    new_Watcher_calling 0 (EFunction 2) None false through_computed
      (Normal (VNum 1)) (Walked []) with_computed = Some (Normal 3, st') /\
    subs_of st' 7 = [2; 3] /\
    subs_of (teardown 3 st') 7 = [2].
Proof.
  split; [vm_compute; reflexivity|].
  eexists. split; [vm_compute; reflexivity|]. vm_compute. done.
Qed.

(** [$watch] with [deep], on a value that [traverse] does not come to
    the end of, does not return. *)
Lemma deep_watch_without_end :
  vm_watch_calling 0 (EFunction 2)
    (Some (Options true false false false None)) false [] (Normal (VObj 0))
    WalkEndless (Normal tt) one_watcher = None.
Proof. vm_compute. reflexivity. Qed.

(** [$watch] with [deep], on a value with a property that throws when
    [traverse] reads it, after the [Dep] [4]: [$watch] throws that
    exception, the new watcher stays [Dep.target], its dependencies stay
    pending, and [teardown], which goes through [deps], leaves it in
    [subs] of the [Dep]s [3] and [4]. *)
Lemma deep_watch_traverse_throws :
  exists st',
    vm_watch_calling 0 (EFunction 2)
      (Some (Options true false false false None)) false [CallDepend 3]
      (Normal (VObj 0)) (WalkThrew [4] (UserError 1)) (Normal tt) one_watcher =
      Some (Throw (UserError 1), st') /\
    target st' = TWatcher 2 /\
    (deps <$> watchers st' !! 2) = Some [] /\
    (newDeps <$> watchers st' !! 2) = Some [3; 4] /\
    subs_of one_watcher 3 = [1] /\ subs_of one_watcher 4 = [] /\
    subs_of (unwatchFn 2 st') 3 = [1; 2] /\
    subs_of (unwatchFn 2 st') 4 = [2].
Proof. eexists. split; [vm_compute; reflexivity|]. vm_compute. done. Qed.

(** *** The claims *)

(** C1. The claim does not hold of a getter that creates a child
    component whose [data] function reads a computed property not yet
    evaluated.  Watcher [1] has [deps = [3; 5]].  Its getter reads the
    [Dep] [3]; [getData] runs [pushTarget()], which moves watcher [1] to
    the stack; the computed watcher [2] is evaluated, and its [popTarget]
    takes watcher [1] from the stack, so the [Dep] [9] which [data] reads
    next is collected; the [popTarget] of [getData] finds the stack empty
    and leaves [Dep.target] undefined.  The getter then reads the [Dep]
    [5]: [depend()] is invoked and collects nothing.  After the pass
    [deps] is [[3; 7; 9]], without the [Dep] [5] whose [depend()] was
    invoked during the pass, and [cleanupDeps] has removed the watcher
    from [subs] of the [Dep] [5]. *)
Theorem get_through_getData_loses_a_read :
  wf with_computed /\
  (deps <$> watchers with_computed !! 1) = Some [3; 5] /\
  subs_of with_computed 5 = [1] /\
  CallDepend 5 ∈ through_getData /\
  exists st',
    get_calling 1 through_getData (Normal (VNum 1)) (Walked []) with_computed =
      Some (Normal (VNum 1), st') /\
    (deps <$> watchers st' !! 1) = Some [3; 7; 9] /\
    subs_of st' 5 = [] /\
    target st' = TUndefined /\ targetStack st' = [].
Proof.
  split; [apply wf_new_Watcher, wf_one_watcher|].
  split; [vm_compute; reflexivity|]. split; [vm_compute; reflexivity|].
  split; [unfold through_getData; set_solver|].
  eexists. split; [vm_compute; reflexivity|]. vm_compute. done.
Qed.

(** X2. A pass of [get] on watcher [w] whose getter reaches the two
    classes through [dep.depend()] only, and whose [traverse] returns,
    returns and leaves every other watcher as it was, and in every [subs]
    the other watchers where they were: the same ones, in the same
    order.  (A getter that reads a computed property has that property's
    watcher evaluated: [get_through_computed_touches_another].) *)
Theorem get_touches_one_watcher
        (w : nat) (calls : list call) (res : completion Js.value)
        (ds : list nat) (st : state) :
  forallb direct calls = true ->
  exists r st',
    get_calling w calls res (Walked ds) st = Some (r, st') /\
    (forall w', w' <> w -> watchers st' !! w' = watchers st !! w') /\
    (forall d,
       filter (fun x => x <> w) (subs_of st' d) =
       filter (fun x => x <> w) (subs_of st d)) /\
    (forall d x, x <> w -> (x ∈ subs_of st' d <-> x ∈ subs_of st d)).
Proof.
  intros Hd. rewrite (get_calling_direct _ _ _ _ _ Hd).
  pose proof (get_others w (Evaluation (own_reads calls) res ds) st) as Ho.
  destruct (get w _ st) as [r st']. by exists r, st'.
Qed.

Lemma get_touches_one_watcher_witness :
  forallb direct [CallDepend 5; CallDepend 8] = true /\
  exists r st',
    get_calling 1 [CallDepend 5; CallDepend 8] (Normal (VNum 1)) (Walked [])
      one_watcher = Some (r, st') /\
    (forall w', w' <> 1 -> watchers st' !! w' = watchers one_watcher !! w') /\
    (forall d,
       filter (fun x => x <> 1) (subs_of st' d) =
       filter (fun x => x <> 1) (subs_of one_watcher d)) /\
    (forall d x, x <> 1 -> (x ∈ subs_of st' d <-> x ∈ subs_of one_watcher d)).
Proof.
  split; [reflexivity|].
  exact (get_touches_one_watcher 1 [CallDepend 5; CallDepend 8]
           (Normal (VNum 1)) [] one_watcher eq_refl).
Defined.

(** X3. A watcher that was created and torn down again is in no [subs],
    whatever its getter called, and also when the getter threw and the
    constructor never returned the watcher, unless [traverse] threw
    ([deep_watch_traverse_throws]).  When the getter reaches
    the two classes through [dep.depend()] only and [traverse] returns,
    the constructor returns or throws, and the teardown leaves every
    [subs] as it was before the creation.  (A getter that reads a
    computed property leaves that property's watcher subscribed:
    [new_teardown_after_computed].) *)
Theorem new_then_teardown_restores_subs
        (vmid : nat) (e : expOrFn) (opts : option options) (r : bool)
        (calls : list call) (res : completion Js.value) (st : state) :
  wf st ->
  (forall walk c st',
     (forall ds err, walk <> WalkThrew ds err) ->
     new_Watcher_calling vmid e opts r calls res walk st = Some (c, st') ->
     forall d, S (uid st) ∉ subs_of (teardown (S (uid st)) st') d) /\
  (forallb direct calls = true ->
   forall ds, exists c st',
     new_Watcher_calling vmid e opts r calls res (Walked ds) st = Some (c, st') /\
     forall d, subs_of (teardown (S (uid st)) st') d = subs_of st d).
Proof.
  intros Hwf. split.
  - intros walk c st' Hno H d.
    destruct (new_Watcher_calling_state _ _ _ _ _ _ _ _ _ _ Hwf Hno H)
      as (Hwf' & (this & Hl & Ha & _ & Hq) & _).
    rewrite (teardown_subs _ _ this) by done.
    unfold subs_without. rewrite list_elem_of_filter. tauto.
  - intros Hd ds. rewrite (new_Watcher_calling_direct _ _ _ _ _ _ _ _ Hd).
    pose proof (new_teardown_direct vmid e opts r
                  (Evaluation (own_reads calls) res ds) st Hwf) as Hr.
    destruct (new_Watcher _ _ _ _ _ _) as [c st']. by exists c, st'.
Qed.

Lemma new_then_teardown_restores_subs_witness :
  wf one_watcher /\
  exists c st',
    new_Watcher_calling 0 (EFunction 1) None false
      [CallDepend 5; CallDepend 8] (Normal (VNum 1)) (Walked []) one_watcher =
      Some (c, st') /\
    forall d, subs_of (teardown (S (uid one_watcher)) st') d =
              subs_of one_watcher d.
Proof.
  split; [exact wf_one_watcher|].
  exact (proj2 (new_then_teardown_restores_subs 0 (EFunction 1) None false
                  [CallDepend 5; CallDepend 8] (Normal (VNum 1)) one_watcher
                  wf_one_watcher) eq_refl []).
Defined.

(** X10. [getData] switches dependency collection off around the call of
    [data]: when [data] reaches the two classes through [dep.depend()]
    only, whatever reactive values it reads, [getData] returns and no
    watcher and no [subs] changes.  An exception of [data] is reported
    with the info ["data()"] and a fresh object is returned in place of
    the data.  When a watcher was being evaluated, it is the target again
    afterwards, with the stack as before.  (A [data] function that reads
    a computed property not yet evaluated switches collection on again:
    [getData_reading_computed_collects].) *)
Theorem getData_collects_nothing
        (calls : list call) (res : completion Js.value) (st : state) :
  forallb direct calls = true ->
  exists v st',
    getData_calling calls res st = Some (v, st') /\
    watchers st' = watchers st /\ subs st' = subs st /\
    events st' = events st /\
    (match res with
     | Normal x => v = DataReturned x /\ errors st' = errors st
     | Throw err => v = DataEmpty /\ errors st' = errors st ++ [(err, "data()")]
     end) /\
    (forall x, target st = TWatcher x ->
               target st' = TWatcher x /\ targetStack st' = targetStack st).
Proof.
  intros Hd. rewrite (getData_calling_direct _ _ _ Hd).
  pose proof (getData_direct (DataCall (own_reads calls) res) st) as Hg.
  cbn [data_result] in Hg.
  destruct (getData _ st) as [v st']. by exists v, st'.
Qed.

Lemma getData_collects_nothing_witness :
  forallb direct [CallDepend 3; CallDepend 9] = true /\
  exists v st',
    getData_calling [CallDepend 3; CallDepend 9] (Throw (UserError 2))
      (pushTarget (TWatcher 1) with_computed) = Some (v, st') /\
    watchers st' = watchers with_computed /\
    v = DataEmpty /\
    target st' = TWatcher 1.
Proof.
  split; [reflexivity|].
  destruct (getData_collects_nothing [CallDepend 3; CallDepend 9]
              (Throw (UserError 2)) (pushTarget (TWatcher 1) with_computed)
              eq_refl) as (v & st' & H & Hw & _ & _ & (Hv & _) & Ht).
  exists v, st'. split; [exact H|]. split; [exact Hw|]. split; [exact Hv|].
  exact (proj1 (Ht 1 eq_refl)).
Defined.

(** X17. [$watch] does not throw because of the getter: the watcher it
    creates is user-defined, so an error of the getter is reported and
    the constructor returns.  When [traverse] does not throw and [$watch]
    comes back, only an [immediate] callback that throws has made it
    throw, and then the caller gets no [unwatchFn] although the watcher
    is registered; after [unwatchFn] the watcher is in no [subs].  When
    the getter reaches the two classes through [dep.depend()] only and
    [traverse] returns, [$watch] does come back, the getter ran once
    unless the watcher is lazy, and [unwatchFn] leaves every [subs] as
    it was before [$watch].  ([$watch] with [deep] throws what
    [traverse] throws, and the watcher then stays subscribed:
    [deep_watch_traverse_throws]; on a value that [traverse] does not
    come to the end of it does not return: [deep_watch_without_end].) *)
Theorem watch_then_unwatch
        (vmid : nat) (e : expOrFn) (opts : option options) (immediate : bool)
        (calls : list call) (res : completion Js.value)
        (cb : completion unit) (st : state) :
  wf st ->
  let w := S (uid st) in
  let outcome :=
    match cb with
    | Throw err => if immediate then Throw err else Normal w
    | Normal _ => Normal w
    end in
  (forall walk c st',
     (forall ds err, walk <> WalkThrew ds err) ->
     vm_watch_calling vmid e opts immediate calls res walk cb st =
       Some (c, st') ->
     c = outcome /\
     (exists this,
        watchers st' !! w = Some this /\ user this = true /\
        active this = true) /\
     (forall d, w ∉ subs_of (unwatchFn w st') d)) /\
  (forallb direct calls = true ->
   forall ds, exists st',
     vm_watch_calling vmid e opts immediate calls res (Walked ds) cb st =
       Some (outcome, st') /\
     (exists this,
        watchers st' !! w = Some this /\
        events_of w st' =
          events_of w st ++
          (if lazy this then [] else [EvGetter w]) ++
          (if immediate then [EvCallback w (value this) VUndefined] else [])) /\
     (forall d, subs_of (unwatchFn w st') d = subs_of st d)).
Proof.
  intros Hwf w outcome. split.
  - intros walk c st' Hno H. unfold vm_watch_calling in H.
    set (o := default (Options false false false false None) opts) in H.
    set (o1 := Options _ true _ _ _) in H.
    destruct (new_Watcher_calling vmid e (Some o1) false calls res walk st)
      as [[c0 st1]|] eqn:E; [|done].
    destruct (new_Watcher_calling_state _ _ _ _ _ _ _ _ _ _ Hwf Hno E)
      as (Hwf1 & (this & Hl & Ha & Hu & Hq) & Hc).
    rewrite (Hc eq_refl) in H. simpl in Hu.
    assert (forall s',
              wf s' -> watchers s' !! w = Some this ->
              forall d, w ∉ subs_of (unwatchFn w s') d) as Hout.
    { intros s' Hwf' Hl' d. unfold unwatchFn.
      rewrite (teardown_subs _ _ this) by done.
      unfold subs_without. rewrite list_elem_of_filter. tauto. }
    destruct immediate.
    + assert (exists st2, wf st2 /\ watchers st2 !! w = Some this /\
                          Some (outcome, st2) = Some (c, st'))
        as (st2 & Hwf2 & Hl2 & Heq).
      { eexists. split; [|split; [|subst outcome; destruct cb; exact H]].
        - by apply wf_emit.
        - done. }
      simplify_eq. split; [done|]. split; [by exists this|by apply Hout].
    + simplify_eq. split; [by destruct cb|].
      split; [by exists this|by apply Hout].
  - intros Hd ds. rewrite (vm_watch_calling_direct _ _ _ _ _ _ _ _ _ Hd).
    destruct (vm_watch_direct vmid e opts immediate
                (Evaluation (own_reads calls) res ds) cb st Hwf)
      as (Hf & (this & Hl & _ & _ & Hev) & Hs).
    destruct (vm_watch _ _ _ _ _ _ _) as [c st']. simpl in *. subst c.
    exists st'. split; [done|]. split; [by exists this|done].
Qed.

Lemma watch_then_unwatch_witness :
  wf one_watcher /\
  forallb direct [CallDepend 3] = true /\
  exists st',
    vm_watch_calling 0 (EFunction 1) None true [CallDepend 3]
      (Throw (UserError 9)) (Walked []) (Throw (UserError 4)) one_watcher =
      Some (Throw (UserError 4), st') /\
    forall d, subs_of (unwatchFn 2 st') d = subs_of one_watcher d.
Proof.
  split; [exact wf_one_watcher|]. split; [reflexivity|].
  destruct (proj2 (watch_then_unwatch 0 (EFunction 1) None true [CallDepend 3]
                     (Throw (UserError 9)) (Throw (UserError 4)) one_watcher
                     wf_one_watcher) eq_refl [])
    as (st' & H & _ & Hs).
  exists st'. split; [exact H|exact Hs].
Defined.

End ObserverCalls.

(** ** [nextTick]: further properties *)

Module TickMore.
Import Js Tick TickFacts.

(** The invariant of the module: one flushing task is outstanding when
    [pending] is up and none when it is down, and [pending] is up exactly
    when callbacks wait. *)
Lemma nextTick_balance (h : host) (cb : option job) (ctx : nat) (st : state)
      (n : nat) :
  flushes st = (n + if pending st then 1 else 0)%nat ->
  (pending st = true <-> callbacks st <> []) ->
  let st' := snd (nextTick h cb ctx st) in
  flushes st' = (n + if pending st' then 1 else 0)%nat /\
  (pending st' = true <-> callbacks st' <> []).
Proof.
  intros Hf Hp. destruct (pending st) eqn:E.
  - rewrite nextTick_pending by done. simpl. split; [done|].
    split; [|done]. intros _. by destruct (callbacks st).
  - rewrite nextTick_idle by done. unfold flushes in *. simpl. split.
    + rewrite filter_app, length_app, timer_tasks_one_flush. lia.
    + split; [|done]. intros _. by destruct (callbacks st).
Qed.

Lemma apply_fn_balance (h : host) (body : list step) (st : state) (n : nat) :
  flushes st = (n + if pending st then 1 else 0)%nat ->
  (pending st = true <-> callbacks st <> []) ->
  let st' := snd (apply_fn h body st) in
  flushes st' = (n + if pending st' then 1 else 0)%nat /\
  (pending st' = true <-> callbacks st' <> []).
Proof.
  revert st. induction body as [|[cb ctx|e] body IH]; intros st Hf Hp; simpl;
    [done| |done].
  destruct (nextTick_balance h cb ctx st n Hf Hp). by apply IH.
Qed.

Lemma flushCallbacks_balance (h : host) (st : state) (n : nat) :
  flushes st = S n ->
  let st' := flushCallbacks h st in
  flushes st' = (S n + if pending st' then 1 else 0)%nat /\
  (pending st' = true <-> callbacks st' <> []).
Proof.
  intros Hf. destruct (flushCallbacks_spec h st) as (Hc & _ & _ & Hp & Ht).
  simpl. unfold flushes in *. rewrite Hc, Hp, Ht.
  destruct (pushed_during h (callbacks st)) as [|e l]; simpl.
  - rewrite app_nil_r. split; [lia|done].
  - rewrite filter_app, length_app, timer_tasks_one_flush. split; [lia|done].
Qed.

Lemma host_step_balance (h : host) (s : state * nat) (o : host_op) :
  flushes (fst s) = (snd s + if pending (fst s) then 1 else 0)%nat ->
  (pending (fst s) = true <-> callbacks (fst s) <> []) ->
  let s' := host_step h s o in
  flushes (fst s') = (snd s' + if pending (fst s') then 1 else 0)%nat /\
  (pending (fst s') = true <-> callbacks (fst s') <> []).
Proof.
  destruct s as [st n]. simpl. intros Hf Hp. destruct o as [cb ctx|body|]; simpl.
  - by apply nextTick_balance.
  - unfold withMacroTask.
    destruct (apply_fn_balance h body (set_useMacroTask true st) n Hf Hp)
      as (Hf' & Hp').
    by destruct (apply_fn h body (set_useMacroTask true st)) as [[u|e] st2].
  - destruct (n <? flushes st)%nat eqn:Hlt; simpl; [|done].
    apply Nat.ltb_lt in Hlt. apply flushCallbacks_balance.
    destruct (pending st); lia.
Qed.

(** X11. However calls of [nextTick], calls of functions wrapped by
    [withMacroTask] and tasks run by the host interleave: exactly one
    flushing task is outstanding while callbacks wait and none
    otherwise.  So every callback handed to [nextTick] has a flush to
    come, and a flush never finds [callbacks] empty. *)
Theorem one_flush_outstanding_iff_callbacks_wait
        (h : host) (ops : list host_op) :
  let s := host_run h ops in
  outstanding s = (if pending (fst s) then 1 else 0)%nat /\
  (pending (fst s) = true <-> callbacks (fst s) <> []) /\
  (snd s <= flushes (fst s))%nat.
Proof.
  assert (let s := host_run h ops in
          flushes (fst s) = (snd s + if pending (fst s) then 1 else 0)%nat /\
          (pending (fst s) = true <-> callbacks (fst s) <> [])) as [Hf Hp].
  { unfold host_run.
    assert (flushes (fst (init, 0%nat)) =
            (snd (init, 0%nat) + if pending (fst (init, 0%nat)) then 1 else 0)%nat
            /\ (pending (fst (init, 0%nat)) = true <->
                callbacks (fst (init, 0%nat)) <> [])) as Hinit.
    { simpl. split; [done|]. split; done. }
    revert Hinit. generalize (init, 0%nat).
    induction ops as [|o ops IH]; intros s [Hf Hp]; [done|].
    simpl. apply IH. by apply host_step_balance. }
  simpl in *. unfold outstanding. split; [|split; [done|]]; lia.
Qed.

(** *** [withMacroTask] *)

Lemma apply_fn_spec (h : host) (body : list step) (st : state) :
  apply_fn h body st =
  (match thrown_of_body body with
   | Some e => Throw e
   | None => Normal tt
   end, after_ticks h (ticks_of_body body) st).
Proof.
  revert st. induction body as [|[cb ctx|e] body IH]; intros st;
    cbn [apply_fn ticks_of_body thrown_of_body]; [done| |done].
  by rewrite IH, after_ticks_cons.
Qed.

(** X12. A function wrapped by [withMacroTask] runs with [useMacroTask]
    up, so the flush its first [nextTick] asks for is a macro task
    whatever the flag was before.  The flag is lowered after the function
    returns, not in a [finally]: when the function throws, the wrapper
    throws and the flag stays up for every later [nextTick]. *)
Theorem withMacroTask_flag (h : host) (body : list step) (st : state) :
  let pushed := map (entry_of h) (ticks_of_body body) in
  let st' := snd (withMacroTask h body st) in
  fst (withMacroTask h body st) =
    match thrown_of_body body with
    | Some e => Throw e
    | None => Normal tt
    end /\
  useMacroTask st' = bool_decide (is_Some (thrown_of_body body)) /\
  callbacks st' = callbacks st ++ pushed /\
  tasks st' = tasks st ++ tasks_after h (pending st) true pushed /\
  pending st' = pending_after (pending st) pushed.
Proof.
  unfold withMacroTask. rewrite apply_fn_spec.
  destruct (thrown_of_body body) as [e|]; simpl;
    (split; [done|]);
    destruct (ticks_of_body body) as [|c cs]; simpl;
    rewrite ?app_nil_r; done.
Qed.

(** *** Promises *)

Lemma resolved_after_ticks (h : host) (cs : list (option job * nat))
      (st : state) :
  resolved (after_ticks h cs st) = resolved st.
Proof. by destruct cs. Qed.

Lemma resolved_call_entry (h : host) (e : entry) (st : state) :
  resolved (call_entry h e st) = resolved st ++ resolutions [e].
Proof.
  unfold call_entry, resolutions. simpl.
  destruct (entry_cb e) as [[label body]|]; simpl.
  - rewrite call_cb_spec, app_nil_r.
    destruct (thrown_of_body body); simpl; by rewrite resolved_after_ticks.
  - destruct (entry_resolve e); simpl; by rewrite ?app_nil_r.
Qed.

Lemma resolutions_app (xs ys : list entry) :
  resolutions (xs ++ ys) = resolutions xs ++ resolutions ys.
Proof. apply flat_map_app. Qed.

Lemma resolved_drain (h : host) (batch : list entry) (st : state) :
  resolved (fold_left (fun s e => call_entry h e s) batch st) =
  resolved st ++ resolutions batch.
Proof.
  revert st. induction batch as [|e batch IH]; intros st; cbn [fold_left].
  - simpl. by rewrite app_nil_r.
  - rewrite IH, resolved_call_entry.
    change (e :: batch) with ([e] ++ batch).
    by rewrite resolutions_app, app_assoc.
Qed.

(** X13. [nextTick] returns a promise exactly when it is given no
    callback and the host has [Promise].  The next flush resolves the
    promises of the batch it drains, each with the context of its call
    and in the order of the calls; a call of [nextTick] made by a callback
    of the batch is left to the flush after. *)
Theorem flush_resolves_the_promises_of_its_batch
        (h : host) (cb : option job) (ctx : nat) (st : state) :
  let promise := fst (nextTick h cb ctx st) in
  let st1 := snd (nextTick h cb ctx st) in
  promise = negb (bool_decide (is_Some cb)) && hasPromise h /\
  resolved st1 = resolved st /\
  resolved (flushCallbacks h st1) =
    resolved st ++ resolutions (callbacks st) ++ (if promise then [ctx] else []) /\
  resolutions (callbacks (flushCallbacks h st1)) =
    resolutions (pushed_during h (callbacks st1)).
Proof.
  intros promise st1.
  assert (promise = negb (bool_decide (is_Some cb)) && hasPromise h) as Hpr
      by done.
  assert (callbacks st1 = callbacks st ++ [entry_of h (cb, ctx)] /\
          resolved st1 = resolved st) as [Hc Hr].
  { subst st1. destruct (pending st) eqn:E;
      [rewrite nextTick_pending by done|rewrite nextTick_idle by done]; done. }
  clearbody promise st1.
  split; [done|]. split; [done|]. split.
  - unfold flushCallbacks. rewrite resolved_drain. cbn [resolved].
    rewrite Hc, Hr, resolutions_app. do 2 f_equal.
    rewrite Hpr. unfold resolutions, entry_of. simpl.
    destruct cb as [j|]; simpl; [done|]. destruct (hasPromise h); done.
  - by destruct (flushCallbacks_spec h st1) as (-> & _).
Qed.

End TickMore.

(** ** [traverse]: what it touches *)

Module TraverseMore.
Import Js Traverse TraverseFacts.

Lemma traverse_cases (h : gmap nat object) (v : value) :
  (isObject v = false \/ Object_isFrozen h v = true \/
   instanceof_VNode h v = true) \/
  exists r o, v = VObj r /\ h !! r = Some o /\ walkable o.
Proof.
  destruct v as [| | | | | | |r]; try (left; left; done).
  destruct (h !! r) as [o|] eqn:Hr.
  - destruct (frozen o) eqn:Hf.
    { left. right. left. simpl. by rewrite Hr. }
    destruct (isVNode o) eqn:Hv.
    { left. right. right. simpl. by rewrite Hr. }
    right. by exists r, o.
  - left. right. left. simpl. by rewrite Hr.
Qed.

Lemma walkable_not_skipped (h : gmap nat object) (r : nat) (o : object) :
  h !! r = Some o -> walkable o ->
  ~ (isObject (VObj r) = false \/ Object_isFrozen h (VObj r) = true \/
     instanceof_VNode h (VObj r) = true).
Proof.
  intros Hr [Hf Hv]. simpl. rewrite Hr. simpl. rewrite Hf, Hv.
  intros [?|[?|?]]; done.
Qed.

Lemma covered_mono (h : gmap nat object) (s s' : gset nat) (v : value) :
  s ⊆ s' -> covered h s v -> covered h s' v.
Proof.
  intros Hsub Hc. induction Hc as [v Hskip|r o i Hr Hob Hin|r o Hr Hw Hob _ IH].
  - by apply covered_skip.
  - apply (covered_seen h s' r o i); [done..|set_solver].
  - by apply (covered_through h s' r o).
Qed.

Lemma walk_closes (h : gmap nat object) (n : nat) (l : list value) :
  (forall v seen s, _traverse n h v seen = Some s ->
                    covered h s v /\ closed h seen s) ->
  forall seen s,
    walk (_traverse n h) l (Some seen) = Some s ->
    (forall c, c ∈ l -> covered h s c) /\ closed h seen s.
Proof.
  intros IHn. induction l as [|c l IH]; intros seen s; simpl.
  - intros [= ->]. split; [by intros c ?%elem_of_nil|].
    intros r o i _ _ _ Hin Hnin. done.
  - destruct (_traverse n h c seen) as [s1|] eqn:E; [|by rewrite walk_none].
    intros Hw. destruct (IHn c seen s1 E) as (Hc1 & Hcl1).
    destruct (IH s1 s Hw) as (Hcs & Hcl).
    assert (s1 ⊆ s) as Hsub.
    { apply (walk_grows (_traverse n h) l); [|done].
      intros ???. apply _traverse_grows. }
    split.
    + intros c' [->|Hin]%elem_of_cons; [by apply (covered_mono h s1)|auto].
    + intros r o i Hr Hwk Hob Hin Hnin c' Hc'.
      destruct (decide (i ∈ s1)) as [Hi1|Hi1].
      * apply (covered_mono h s1); [done|]. by apply (Hcl1 r o i).
      * by apply (Hcl r o i).
Qed.

Lemma _traverse_closes (h : gmap nat object) :
  distinct_dep_ids h ->
  forall n v seen s,
    _traverse n h v seen = Some s -> covered h s v /\ closed h seen s.
Proof.
  intros Hinj. induction n as [|n IH]; intros v seen s; [done|].
  destruct (traverse_cases h v) as [Hskip|(r & o & -> & Hr & Hwk)].
  - rewrite _traverse_skips by done. intros [= ->].
    split; [by apply covered_skip|]. intros r o i _ _ _ Hin Hnin. done.
  - rewrite (_traverse_walks h n r o) by (done || apply Hwk).
    destruct (__ob__ o) as [i|] eqn:Hob.
    + destruct (decide (i ∈ seen)) as [Hin|Hnin].
      * intros [= <-]. split; [by apply (covered_seen h seen r o i)|].
        intros r' o' i' _ _ _ Hin' Hnin'. done.
      * intros Hw. destruct (walk_closes h n _ IH _ _ Hw) as (Hcs & Hcl).
        assert (i ∈ s) as Hi.
        { apply (walk_grows (_traverse n h)) in Hw; [set_solver|].
          intros ???. apply _traverse_grows. }
        split; [by apply (covered_seen h s r o i)|].
        intros r' o' i' Hr' Hwk' Hob' Hin' Hnin' c Hc.
        destruct (decide (i' = i)) as [->|Hne].
        -- assert (r' = r) as -> by by apply (Hinj r' r o' o i).
           assert (o' = o) as -> by congruence.
           apply Hcs. by rewrite elem_of_reverse.
        -- apply (Hcl r' o' i'); [done..|set_solver|done].
    + intros Hw. destruct (walk_closes h n _ IH _ _ Hw) as (Hcs & Hcl).
      split; [|done]. apply (covered_through h s r o); [done..|].
      intros c Hc. apply Hcs. by rewrite elem_of_reverse.
Qed.

Lemma covered_reach (h : gmap nat object) (s : gset nat) (v : value) (r : nat) :
  closed h ∅ s ->
  reach h v r -> covered h s v ->
  forall o i, h !! r = Some o -> __ob__ o = Some i -> i ∈ s.
Proof.
  intros Hcl Hreach.
  induction Hreach as [r o Hr Hwk|r o c r' Hr Hwk Hc Hreach IH]; intros Hcov.
  - intros o' i Hr' Hob. assert (o' = o) as -> by congruence.
    inversion Hcov as [v Hskip|r1 o1 i1 Hr1 Hob1 Hin1|r1 o1 Hr1 Hwk1 Hob1 Hall];
      subst.
    + by destruct (walkable_not_skipped h r o Hr Hwk).
    + congruence.
    + congruence.
  - apply IH.
    inversion Hcov as [v Hskip|r1 o1 i1 Hr1 Hob1 Hin1|r1 o1 Hr1 Hwk1 Hob1 Hall];
      subst.
    + by destruct (walkable_not_skipped h r o Hr Hwk).
    + assert (o1 = o) as -> by congruence.
      apply (Hcl r o i1); [done..|set_solver|done].
    + assert (o1 = o) as -> by congruence. by apply Hall.
Qed.

Lemma walk_adds (h : gmap nat object) (n : nat) (l : list value) :
  (forall v seen s i,
     _traverse n h v seen = Some s -> i ∈ s ->
     i ∈ seen \/ exists r o, reach h v r /\ h !! r = Some o /\ __ob__ o = Some i) ->
  forall seen s i,
    walk (_traverse n h) l (Some seen) = Some s -> i ∈ s ->
    i ∈ seen \/
    exists c r o, c ∈ l /\ reach h c r /\ h !! r = Some o /\ __ob__ o = Some i.
Proof.
  intros IHn. induction l as [|c l IH]; intros seen s i; simpl.
  - intros [= ->] Hin. by left.
  - destruct (_traverse n h c seen) as [s1|] eqn:E; [|by rewrite walk_none].
    intros Hw Hin. destruct (IH s1 s i Hw Hin) as [Hi1|(c' & r & o & Hc' & Hrest)].
    + destruct (IHn c seen s1 i E Hi1) as [?|(r & o & Hrest)]; [by left|].
      right. exists c, r, o. split; [left|done].
    + right. exists c', r, o. split; [by right|done].
Qed.

Lemma _traverse_adds (h : gmap nat object) (n : nat) (v : value)
      (seen s : gset nat) (i : nat) :
  _traverse n h v seen = Some s -> i ∈ s ->
  i ∈ seen \/ exists r o, reach h v r /\ h !! r = Some o /\ __ob__ o = Some i.
Proof.
  revert v seen s i. induction n as [|n IH]; intros v seen s i; [done|].
  destruct (traverse_cases h v) as [Hskip|(r & o & -> & Hr & Hwk)].
  - rewrite _traverse_skips by done. intros [= ->] ?. by left.
  - rewrite (_traverse_walks h n r o) by (done || apply Hwk).
    assert (forall seen',
              walk (_traverse n h) (reverse (fields o)) (Some seen') = Some s ->
              i ∈ s ->
              i ∈ seen' \/
              exists r' o', reach h (VObj r) r' /\ h !! r' = Some o' /\
                            __ob__ o' = Some i) as Hwalk.
    { intros seen' Hw Hin.
      destruct (walk_adds h n _ IH _ _ _ Hw Hin)
        as [?|(c & r' & o' & Hc & Hreach & Hrest)]; [by left|].
      right. exists r', o'. split; [|done].
      apply (reach_step h r o c); [done..| |done]. by rewrite <- elem_of_reverse. }
    destruct (__ob__ o) as [j|] eqn:Hob; [|apply Hwalk].
    destruct (decide (j ∈ seen)) as [Hin|Hnin]; [intros [= ->] ?; by left|].
    intros Hw Hi. destruct (Hwalk _ Hw Hi) as [Hi'|?]; [|by right].
    apply elem_of_union in Hi' as [?|Hi']; [by left|].
    apply elem_of_singleton in Hi' as ->.
    right. exists r, o. split; [by apply (reach_here h r o)|done].
Qed.

(** X14. What a returning [_traverse(val, seen)] records, started on an
    empty [seen]: the [Dep] ids of exactly the observed objects that are
    [val] or nested in it under objects that are neither frozen nor
    [VNode]s.  None is missed, however the objects share and refer back
    to each other, as every observer has its own [Dep]. *)
Theorem traverse_records_exactly_the_nested_observers
        (h : gmap nat object) (n : nat) (val : value) (s : gset nat) :
  distinct_dep_ids h ->
  _traverse n h val ∅ = Some s ->
  forall i,
    i ∈ s <->
    exists r o, reach h val r /\ h !! r = Some o /\ __ob__ o = Some i.
Proof.
  intros Hinj Ht i. split.
  - intros Hin. destruct (_traverse_adds h n val ∅ s i Ht Hin) as [?|?];
      [set_solver|done].
  - intros (r & o & Hreach & Hr & Hob).
    destruct (_traverse_closes h Hinj n val ∅ s Ht) as (Hcov & Hcl).
    by apply (covered_reach h s val r Hcl Hreach Hcov o i).
Qed.

Lemma nested_distinct : distinct_dep_ids nested.
Proof.
  assert (forall r o, nested !! r = Some o ->
                      r = 0 /\ __ob__ o = Some 10 \/
                      r = 1 /\ __ob__ o = Some 11 \/
                      r = 2 /\ __ob__ o = Some 12) as Hcases.
  { intros r o. unfold nested.
    destruct (decide (r = 0)) as [->|];
      [rewrite lookup_insert_eq; intros [= <-]; auto|].
    rewrite lookup_insert_ne by done.
    destruct (decide (r = 1)) as [->|];
      [rewrite lookup_insert_eq; intros [= <-]; auto|].
    rewrite lookup_insert_ne by done.
    destruct (decide (r = 2)) as [->|];
      [rewrite lookup_singleton_eq; intros [= <-]; auto|].
    by rewrite lookup_singleton_ne. }
  intros r1 r2 o1 o2 i H1 H2 Hi1 Hi2.
  destruct (Hcases r1 o1 H1) as [[-> E1]|[[-> E1]|[-> E1]]],
           (Hcases r2 o2 H2) as [[-> E2]|[[-> E2]|[-> E2]]];
    congruence.
Qed.

Lemma traverse_records_exactly_the_nested_observers_witness :
  distinct_dep_ids nested /\
  _traverse 3 nested (VObj 0) ∅ = Some {[10; 11]} /\
  forall i,
    i ∈ ({[10; 11]} : gset nat) <->
    exists r o, reach nested (VObj 0) r /\ nested !! r = Some o /\
                __ob__ o = Some i.
Proof.
  assert (_traverse 3 nested (VObj 0) ∅ = Some {[10; 11]}) as Ht.
  { vm_compute. reflexivity. }
  split; [exact nested_distinct|]. split; [exact Ht|].
  exact (traverse_records_exactly_the_nested_observers nested 3 (VObj 0)
           {[10; 11]} nested_distinct Ht).
Defined.

End TraverseMore.

(** ** [parsePath]: the segments and the getter *)

Module PathMore.
Import Js Path PathFacts.

Lemma split_cons (sep : ascii) (s : string) :
  exists seg segs, split sep s = seg :: segs.
Proof.
  induction s as [|c rest (seg & segs & IH)]; simpl; [by eauto|].
  destruct (Ascii.eqb c sep); [by eauto|]. rewrite IH. by eauto.
Qed.

Lemma join_cons (sep seg : string) (seg' : string) (rest : list string) :
  join sep (seg :: seg' :: rest) = seg +:+ sep +:+ join sep (seg' :: rest).
Proof. done. Qed.

Lemma join_split (sep : ascii) (s : string) :
  join (String sep EmptyString) (split sep s) = s.
Proof.
  induction s as [|c rest IH]; [done|]. cbn [split].
  destruct (split_cons sep rest) as (seg & segs & Hs). rewrite Hs in *.
  destruct (Ascii.eqb c sep) eqn:E.
  - apply Ascii.eqb_eq in E as ->. rewrite join_cons, IH. done.
  - destruct segs as [|seg' segs].
    + simpl in *. by rewrite IH.
    + rewrite join_cons in *. rewrite <- IH. done.
Qed.

Lemma split_chars (sep : ascii) (s : string) :
  Forall (fun seg => forall c, In c (list_ascii_of_string seg) ->
                               In c (list_ascii_of_string s) /\ c <> sep)
         (split sep s).
Proof.
  induction s as [|c rest IH]; cbn [split].
  - constructor; [|constructor]. intros c [].
  - destruct (Ascii.eqb c sep) eqn:E.
    + constructor; [intros c' []|].
      eapply Forall_impl; [exact IH|]. simpl. intros seg Hseg c' Hc'.
      destruct (Hseg c' Hc'). auto.
    + apply Ascii.eqb_neq in E.
      destruct (split sep rest) as [|seg segs]; [constructor; [|constructor]|].
      * simpl. intros c' [<-|[]]. auto.
      * apply Forall_cons in IH as [Hseg Hsegs]. constructor.
        -- simpl. intros c' [<-|Hc']; [auto|]. destruct (Hseg c' Hc'). auto.
        -- eapply Forall_impl; [exact Hsegs|]. simpl. intros seg' Hseg' c' Hc'.
           destruct (Hseg' c' Hc'). auto.
Qed.

(** X15. The segments of an accepted path: there is at least one, each
    is made of word characters and [$] only, so it is used as a plain
    property name, and joined with dots they give the path back. *)
Theorem parsePath_segments (path : string) (segments : list string) :
  parsePath path = Some segments ->
  segments <> [] /\
  join "." segments = path /\
  Forall (fun seg => forall c, In c (list_ascii_of_string seg) ->
                               name_char c = true) segments.
Proof.
  unfold parsePath. destruct (bailRE_test path) eqn:Hb; [done|].
  intros [= <-]. split; [|split].
  - by destruct (split_cons "." path) as (seg & segs & ->).
  - apply join_split.
  - eapply Forall_impl; [apply split_chars|]. simpl. intros seg Hseg c Hc.
    destruct (Hseg c Hc) as [Hin Hne].
    pose proof (proj1 (bailRE_test_false path) Hb c Hin) as Hpc.
    unfold path_char in Hpc. unfold name_char.
    apply Ascii.eqb_neq in Hne. rewrite Hne, orb_false_r in Hpc.
    destruct (is_word c); [done|]. simpl in *. done.
Qed.

Lemma parsePath_segments_witness :
  parsePath "a.$b.c_1" = Some ["a"; "$b"; "c_1"] /\
  join "." ["a"; "$b"; "c_1"] = "a.$b.c_1".
Proof.
  assert (parsePath "a.$b.c_1" = Some ["a"; "$b"; "c_1"]) as H
      by reflexivity.
  split; [exact H|].
  exact (proj1 (proj2 (parsePath_segments _ _ H))).
Defined.

(** X16. The getter of a path walks segment by segment: the getter of
    [pre ++ post] is the getter of [pre] followed, when that returns, by
    the getter of [post] on its result; an exception of a property read
    under [pre] ends both. *)
Theorem path_getter_app
        (prop : value -> string -> completion value) (pre post : list string)
        (obj : value) :
  path_getter prop (pre ++ post) obj =
  match path_getter prop pre obj with
  | Normal v => path_getter prop post v
  | Throw e => Throw e
  end.
Proof.
  revert obj. induction pre as [|seg pre IH]; intros obj; simpl; [done|].
  destruct (truthy obj) eqn:Ht; simpl.
  - rewrite get_prop_truthy by done. destruct (prop obj seg); [apply IH|done].
  - by destruct post.
Qed.

End PathMore.

(** ** Normalization of children *)

Module NormalizeFacts.
Import Normalize.

Lemma child_nested_ind (P : child -> Prop) :
  P CUndef ->
  (forall b, P (CBool b)) ->
  (forall s, P (CPrim s)) ->
  (forall v, P (CNode v)) ->
  (forall vl items, Forall P items -> P (CArray vl items)) ->
  forall c, P c.
Proof.
  intros HU HB HP HN HA. fix IH 1. intros [|b|s|v|vl items].
  - exact HU.
  - apply HB.
  - apply HP.
  - apply HN.
  - apply HA. induction items as [|c items IHitems]; constructor;
      [apply IH|exact IHitems].
Qed.

Lemma text_merged_app (l1 l2 : list vnode) :
  text_merged (l1 ++ l2) =
  text_merged l1 && text_merged l2 &&
  negb (isTextNode (last l1) && isTextNode (head l2)).
Proof.
  induction l1 as [|a [|b l1] IH].
  - simpl. by rewrite andb_true_r.
  - destruct l2 as [|b l2]; simpl.
    + by rewrite andb_false_r.
    + apply andb_comm.
  - change (text_merged ((a :: b :: l1) ++ l2))
      with (negb (isTextNode (Some a) && isTextNode (Some b)) &&
            text_merged ((b :: l1) ++ l2)).
    rewrite IH.
    change (text_merged (a :: b :: l1))
      with (negb (isTextNode (Some a) && isTextNode (Some b)) &&
            text_merged (b :: l1)).
    change (last (a :: b :: l1)) with (last (b :: l1)).
    by rewrite !andb_assoc.
Qed.

Lemma set_last_snoc (x l : vnode) (init : list vnode) :
  set_last x (init ++ [l]) = init ++ [x].
Proof.
  unfold set_last. rewrite length_app. simpl.
  replace (pred (length init + 1)) with (length init + 0) by lia.
  by rewrite insert_app_r.
Qed.

Lemma last_Some_snoc (res : list vnode) (l : vnode) :
  last res = Some l -> exists init, res = init ++ [l].
Proof.
  intros Hl. destruct res as [|a res _] using rev_ind; [done|].
  rewrite last_snoc in Hl. injection Hl as ->. by exists res.
Qed.

Lemma isTextNode_last (res : list vnode) :
  isTextNode (last res) = true -> exists init l, res = init ++ [l].
Proof.
  destruct (last res) as [l|] eqn:Hl; [|done]. intros _.
  destruct (last_Some_snoc res l Hl) as (init & ->). by exists init, l.
Qed.

Lemma text_merged_set_last (x : vnode) (res : list vnode) :
  isTextNode (last res) = true ->
  text_merged res = true ->
  exists init,
    set_last x res = init ++ [x] /\ text_merged (init ++ [x]) = true /\
    last (set_last x res) = Some x.
Proof.
  intros Hl Hm. destruct (isTextNode_last res Hl) as (init & l & ->).
  rewrite last_snoc in Hl. exists init. rewrite set_last_snoc.
  split; [done|]. split; [|by rewrite last_snoc].
  rewrite text_merged_app in Hm. rewrite text_merged_app.
  change (text_merged [l]) with true in Hm.
  change (head [l]) with (Some l) in Hm.
  change (text_merged [x]) with true.
  rewrite Hl, !andb_true_r in Hm. apply andb_true_iff in Hm as [-> Hb].
  apply negb_true_iff in Hb. by rewrite Hb.
Qed.

Lemma text_merged_tail (l : list vnode) :
  text_merged l = true ->
  text_merged (tail l) = true /\
  (isTextNode (head l) = true -> isTextNode (head (tail l)) = false).
Proof.
  destruct l as [|a [|b l]]; simpl; [done..|].
  intros [Hab Hm]%andb_true_iff. split; [done|]. intros Ha.
  apply negb_true_iff in Hab. by rewrite Ha in Hab.
Qed.

Section WithVNode.
Variable createTextVNode : string -> vnode.

Lemma for_each_cons (f : child -> nat -> list vnode -> list vnode)
      (c : child) (rest : list child) (i : nat) (res : list vnode) :
  for_each f (c :: rest) i res = for_each f rest (S i) (f c i res).
Proof. done. Qed.

Lemma for_each_merged (f : child -> nat -> list vnode -> list vnode)
      (items : list child) :
  Forall (fun c => forall i res, text_merged res = true ->
                                 text_merged (f c i res) = true) items ->
  forall i res, text_merged res = true ->
                text_merged (for_each f items i res) = true.
Proof.
  induction 1 as [|c items Hc _ IH]; intros i res Hres; simpl; auto.
Qed.

Lemma visit_merged (c : child) :
  forall (vl : bool) (ni : option string) (i : nat) (res : list vnode),
    text_merged res = true ->
    text_merged (visit createTextVNode c vl ni i res) = true.
Proof.
  induction c as [|b|s|v|vl' items IH] using child_nested_ind;
    intros vl ni i res Hres; cbn [visit]; try done.
  - destruct (isTextNode (last res)) eqn:Hl.
    + by destruct (text_merged_set_last
                     (createTextVNode (text_of (last res) +:+ s)) res Hl Hres)
        as (init & -> & Hm & _).
    + destruct (bool_decide (s <> EmptyString)); [|done].
      rewrite text_merged_app, Hres, Hl. done.
  - destruct (isTextNode (Some v) && isTextNode (last res)) eqn:Hboth.
    + apply andb_true_iff in Hboth as [_ Hl].
      by destruct (text_merged_set_last
                     (createTextVNode (text_of (last res) +:+ text_of (Some v)))
                     res Hl Hres) as (init & -> & Hm & _).
    + match goal with |- context [res ++ [?x]] => set (v' := x) end.
      assert (isTextNode (Some v') = isTextNode (Some v)) as Hv'.
      { subst v'. by destruct (_ && _ && _ && _). }
      rewrite text_merged_app, Hres.
      change (head [v']) with (Some v'). change (text_merged [v']) with true.
      by rewrite Hv', (andb_comm (isTextNode (last res))), Hboth.
  - destruct items as [|c0 items]; [done|].
    set (c := for_each _ (c0 :: items) 0 []).
    assert (text_merged c = true) as Hc.
    { subst c. apply for_each_merged; [|done].
      eapply Forall_impl; [exact IH|]. simpl. intros c1 Hc1 j r. apply Hc1. }
    clearbody c.
    destruct (isTextNode (head c) && isTextNode (last res)) eqn:Hboth.
    + apply andb_true_iff in Hboth as [Hh Hl].
      destruct (text_merged_set_last
                  (createTextVNode (text_of (last res) +:+ text_of (head c)))
                  res Hl Hres) as (init & Heq & Hm & Hlast).
      destruct (text_merged_tail c Hc) as (Ht & Hht).
      rewrite text_merged_app, Heq, Hm, Ht, (Hht Hh). simpl.
      by rewrite andb_false_r.
    + rewrite text_merged_app, Hres, Hc.
      by rewrite (andb_comm (isTextNode (last res))), Hboth.
Qed.

Lemma normalized_merged
      (vl : bool) (children : list child) (nestedIndex : option string) :
  text_merged (normalizeArrayChildren createTextVNode vl children nestedIndex)
  = true.
Proof.
  unfold normalizeArrayChildren. apply for_each_merged; [|done].
  apply Forall_forall. intros c _ i res. apply visit_merged.
Qed.

Lemma for_each_nodes (vl : bool) (l : list vnode) :
  forall (i : nat) (res : list vnode),
    text_merged (res ++ l) = true ->
    for_each (fun c i res => visit createTextVNode c vl None i res)
             (map CNode l) i res = res ++ l.
Proof.
  induction l as [|v l IH]; intros i res Hm.
  - simpl. by rewrite app_nil_r.
  - assert (isTextNode (Some v) && isTextNode (last res) = false) as Hno.
    { rewrite text_merged_app in Hm. change (head (v :: l)) with (Some v) in Hm.
      apply andb_true_iff in Hm as [_ Hb]. apply negb_true_iff in Hb.
      by rewrite andb_comm. }
    change (map CNode (v :: l)) with (CNode v :: map CNode l).
    rewrite for_each_cons. cbn [visit]. rewrite Hno, andb_false_r.
    rewrite IH; by rewrite <- app_assoc.
Qed.

End WithVNode.

(** X18. What [normalizeChildren] returns for an array never has two
    text nodes next to each other, whatever the children, their nesting
    and the text nodes [createTextVNode] makes; for a primitive it is one
    text node. *)
Theorem normalizeChildren_merges_text
        (mk : string -> vnode) (children : child) (res : list vnode) :
  normalizeChildren mk children = Some res ->
  text_merged res = true /\
  (isArray children = false -> exists s, res = [mk s]).
Proof.
  destruct children as [|b|s|v|vl items]; simpl; try done.
  - intros [= <-]. split; [done|]. by eauto.
  - intros [= <-]. split; [done|]. by eauto.
  - intros [= <-]. split; [apply normalized_merged|done].
Qed.

Lemma normalizeChildren_merges_text_witness :
  normalizeChildren plain_text
    (CArray false
       [CPrim "a"; CArray false [CPrim "b"; CNode (element "p" 1)];
        CNode (plain_text "c"); CUndef; CPrim "d"]) =
    Some [plain_text "ab"; element "p" 1; plain_text "cd"] /\
  text_merged [plain_text "ab"; element "p" 1; plain_text "cd"] = true.
Proof.
  assert (normalizeChildren plain_text
            (CArray false
               [CPrim "a"; CArray false [CPrim "b"; CNode (element "p" 1)];
                CNode (plain_text "c"); CUndef; CPrim "d"]) =
          Some [plain_text "ab"; element "p" 1; plain_text "cd"]) as H
      by reflexivity.
  split; [exact H|].
  exact (proj1 (normalizeChildren_merges_text _ _ _ H)).
Defined.

(** X19. Normalizing is idempotent: the result of
    [normalizeArrayChildren], normalized again as the children of some
    node, comes back unchanged. *)
Theorem normalizeArrayChildren_idempotent
        (mk mk' : string -> vnode) (vl vl' : bool) (children : list child)
        (nestedIndex : option string) :
  normalizeArrayChildren mk' vl'
    (map CNode (normalizeArrayChildren mk vl children nestedIndex)) None =
  normalizeArrayChildren mk vl children nestedIndex.
Proof.
  unfold normalizeArrayChildren at 1. rewrite for_each_nodes; [done|].
  apply normalized_merged.
Qed.

Lemma for_each_elements (mk : string -> vnode) (ni : option string)
      (items : list child) :
  forallb is_element items = true ->
  forall (i : nat) (res : list vnode),
    map CNode (for_each (fun c i res => visit mk c false ni i res) items i res)
    = map CNode res ++ items.
Proof.
  induction items as [|c items IH]; intros Hall i res.
  - simpl. by rewrite app_nil_r.
  - apply andb_true_iff in Hall as [Hc Hall].
    destruct c as [| | |v|]; try done. cbn [is_element] in Hc.
    apply negb_true_iff in Hc.
    rewrite for_each_cons. cbn [visit]. rewrite Hc. cbn [andb].
    rewrite IH by done. rewrite map_app. cbn [map]. by rewrite <- app_assoc.
Qed.

Lemma flat_map_no_array (children : list child) :
  existsb isArray children = false ->
  flat_map (fun c => match c with
                     | CArray _ items => items
                     | _ => [c]
                     end) children = children.
Proof.
  induction children as [|c children IH]; [done|]. simpl.
  intros [Hc Hall]%orb_false_iff. rewrite IH by done. by destruct c.
Qed.

(** X20. On children that are elements and one-level arrays of elements,
    as functional components return them, the full normalization does
    what the simple one does: the arrays are spliced in, and nothing else
    changes. *)
Theorem normalizations_agree_on_elements
        (mk : string -> vnode) (children : list child) :
  forallb one_level children = true ->
  map CNode (normalizeArrayChildren mk false children None) =
  simpleNormalizeChildren children.
Proof.
  intros Hall.
  assert (forall i res,
            map CNode (for_each (fun c i res => visit mk c false None i res)
                         children i res) =
            map CNode res ++
            flat_map (fun c => match c with
                               | CArray _ items => items
                               | _ => [c]
                               end) children) as Hflat.
  { induction children as [|c children IH]; intros i res.
    - simpl. by rewrite app_nil_r.
    - apply andb_true_iff in Hall as [Hc Hall].
      rewrite for_each_cons, IH by done. cbn [flat_map].
      rewrite app_assoc. f_equal.
      destruct c as [| | |v|vl items]; try done.
      + cbn [one_level is_element] in Hc. apply negb_true_iff in Hc.
        cbn [visit]. rewrite Hc. cbn [andb]. by rewrite map_app.
      + cbn [one_level] in Hc. apply andb_true_iff in Hc as [Hvl Hitems].
        apply negb_true_iff in Hvl. subst vl.
        cbn [visit]. destruct items as [|c0 items]; [by rewrite app_nil_r|].
        match goal with
        | |- context [isTextNode (head ?x)] => set (c := x)
        end.
        assert (map CNode c = c0 :: items) as Hin.
        { exact (for_each_elements mk _ (c0 :: items) Hitems 0 []). }
        clearbody c.
        assert (isTextNode (head c) = false) as ->.
        { destruct c as [|v c]; [done|]. simpl in Hin. injection Hin as <- _.
          cbn [forallb] in Hitems. apply andb_true_iff in Hitems as [Hv _].
          cbn [is_element] in Hv. by apply negb_true_iff in Hv. }
        cbn [andb]. by rewrite map_app, Hin. }
  unfold normalizeArrayChildren, simpleNormalizeChildren. rewrite Hflat.
  simpl. destruct (existsb isArray children) eqn:E; [done|].
  by rewrite flat_map_no_array.
Qed.

Lemma normalizations_agree_on_elements_witness :
  forallb one_level
    [CNode (element "p" 1);
     CArray false [CNode (element "a" 2); CNode (element "b" 3)]] = true /\
  map CNode
    (normalizeArrayChildren plain_text false
       [CNode (element "p" 1);
        CArray false [CNode (element "a" 2); CNode (element "b" 3)]] None) =
  [CNode (element "p" 1); CNode (element "a" 2); CNode (element "b" 3)].
Proof.
  split; [reflexivity|].
  exact (normalizations_agree_on_elements plain_text
           [CNode (element "p" 1);
            CArray false [CNode (element "a" 2); CNode (element "b" 3)]]
           eq_refl).
Defined.

End NormalizeFacts.

(** ** Injections *)

Module InjectFacts.
Import Js Inject.

Lemma component_chain_ind (P : component -> Prop) :
  (forall p, P (Component p None)) ->
  (forall p c, P c -> P (Component p (Some c))) ->
  forall c, P c.
Proof.
  intros Hroot Hchild. fix IH 1. intros [p [c|]].
  - apply Hchild, IH.
  - apply Hroot.
Qed.

Lemma provided_for_unfold (k : string) (c : component) :
  provided_for k c =
  match provides k c with
  | Some v => Some v
  | None =>
      match parent_of c with
      | Some c' => provided_for k c'
      | None => None
      end
  end.
Proof. by destruct c. Qed.

Lemma ancestors_unfold (c : component) :
  ancestors c =
  c :: match parent_of c with
       | Some p => ancestors p
       | None => []
       end.
Proof. by destruct c. Qed.

Lemma provided_for_none (k : string) (c : component) :
  provided_for k c = None <->
  Forall (fun a => provides k a = None) (ancestors c).
Proof.
  induction c as [p|p c IH] using component_chain_ind;
    rewrite provided_for_unfold, ancestors_unfold; simpl parent_of.
  - destruct (provides k (Component p None)) eqn:E.
    + split; [done|]. intros [H _]%Forall_cons. congruence.
    + split; [|done]. intros _. by repeat constructor.
  - destruct (provides k (Component p (Some c))) eqn:E.
    + split; [done|]. intros [H _]%Forall_cons. congruence.
    + rewrite IH. split; [by constructor|]. by intros [_ ?]%Forall_cons.
Qed.

Lemma provided_for_nearest (k : string) (c : component) (v : value) :
  provided_for k c = Some v <->
  exists pre a post,
    ancestors c = pre ++ a :: post /\
    Forall (fun x => provides k x = None) pre /\
    provides k a = Some v.
Proof.
  induction c as [p|p c IH] using component_chain_ind;
    rewrite provided_for_unfold, ancestors_unfold; simpl parent_of.
  - destruct (provides k (Component p None)) as [v'|] eqn:E.
    + split.
      * intros [= ->]. exists [], (Component p None), []. done.
      * intros (pre & a & post & Heq & Hpre & Ha).
        destruct pre as [|x pre]; simpl in Heq.
        -- injection Heq as <- _. congruence.
        -- injection Heq as <- Heq. apply Forall_cons in Hpre as [Hx _].
           congruence.
    + split; [done|]. intros (pre & a & post & Heq & Hpre & Ha).
      destruct pre as [|x [|y pre]]; simpl in Heq; try done.
      injection Heq as <- _. congruence.
  - destruct (provides k (Component p (Some c))) as [v'|] eqn:E.
    + split.
      * intros [= ->]. exists [], (Component p (Some c)), (ancestors c). done.
      * intros (pre & a & post & Heq & Hpre & Ha).
        destruct pre as [|x pre]; simpl in Heq.
        -- injection Heq as <- _. congruence.
        -- injection Heq as <- Heq. apply Forall_cons in Hpre as [Hx _].
           congruence.
    + rewrite IH. split.
      * intros (pre & a & post & Heq & Hpre & Ha).
        exists (Component p (Some c) :: pre), a, post.
        split; [by rewrite Heq|]. split; [by constructor|done].
      * intros (pre & a & post & Heq & Hpre & Ha).
        destruct pre as [|x pre]; simpl in Heq.
        -- injection Heq as <- _. congruence.
        -- injection Heq as <- Heq. apply Forall_cons in Hpre as [_ Hpre].
           by exists pre, a, post.
Qed.

Section WithCalls.
Variable call : nat -> completion value.
Variable development : bool.

Lemma resolve_keys_warnings (keys : list (string * injection))
      (vm : component) :
  forall acc o,
    resolve_keys call development keys vm acc = Normal o ->
    forall k, k ∈ warnings acc -> k ∈ warnings o.
Proof.
  induction keys as [|[key0 entry0] keys IH]; intros acc o Hres k Hk.
  - by injection Hres as <-.
  - cbn [resolve_keys] in Hres.
    destruct (provided_for (from entry0) vm); [by apply (IH _ _ Hres)|].
    destruct (default_of entry0) as [[| | | | | |f|]|];
      try (by apply (IH _ _ Hres)).
    + destruct (call f); [by apply (IH _ _ Hres)|done].
    + apply (IH _ _ Hres). simpl. destruct development; [|done].
      apply elem_of_app. by left.
Qed.

Lemma resolve_keys_step (key0 : string) (entry0 : injection)
      (keys : list (string * injection)) (vm : component) (acc o : outcome) :
  resolve_keys call development ((key0, entry0) :: keys) vm acc = Normal o ->
  exists acc',
    resolve_keys call development keys vm acc' = Normal o /\
    (forall k, k <> key0 -> result acc' !! k = result acc !! k) /\
    match provided_for (from entry0) vm with
    | Some v => result acc' !! key0 = Some v
    | None =>
        match default_value call entry0 with
        | Some (Normal v) => result acc' !! key0 = Some v
        | Some (Throw _) => False
        | None =>
            result acc' !! key0 = result acc !! key0 /\
            (development = true -> key0 ∈ warnings acc')
        end
    end.
Proof.
  cbn [resolve_keys]. unfold default_value.
  assert (forall v,
            (forall k, k <> key0 ->
                       <[key0 := v]> (result acc) !! k = result acc !! k) /\
            <[key0 := v]> (result acc) !! key0 = Some v) as Hins.
  { intros v. split; [|by rewrite lookup_insert_eq].
    intros k Hne. by rewrite lookup_insert_ne. }
  destruct (provided_for (from entry0) vm) as [v|].
  { intros Hres. eexists. split; [exact Hres|]. apply Hins. }
  destruct (default_of entry0) as [[| | | | | |f|]|];
    try (intros Hres; eexists; split; [exact Hres|]; apply Hins).
  - destruct (call f) as [v|e]; [|done].
    intros Hres. eexists. split; [exact Hres|]. apply Hins.
  - intros Hres. eexists. split; [exact Hres|]. simpl.
    split; [done|]. split; [done|]. intros ->.
    apply elem_of_app. right. by left.
Qed.

Lemma resolve_keys_spec (keys : list (string * injection)) (vm : component) :
  forall acc o,
    resolve_keys call development keys vm acc = Normal o ->
    NoDup keys.*1 ->
    (forall k, k ∉ keys.*1 -> result o !! k = result acc !! k) /\
    (forall key entry,
       (key, entry) ∈ keys ->
       match provided_for (from entry) vm with
       | Some v => result o !! key = Some v
       | None =>
           match default_value call entry with
           | Some (Normal v) => result o !! key = Some v
           | Some (Throw _) => False
           | None =>
               result o !! key = result acc !! key /\
               (development = true -> key ∈ warnings o)
           end
       end).
Proof.
  induction keys as [|[key0 entry0] keys IH]; intros acc o Hres Hnd.
  - injection Hres as <-. split; [done|]. by intros ?? ?%elem_of_nil.
  - cbn [fmap list_fmap fst] in Hnd. apply NoDup_cons in Hnd as [Hnin Hnd].
    destruct (resolve_keys_step key0 entry0 keys vm acc o Hres)
      as (acc' & Hres' & Hother & Hkey0).
    destruct (IH acc' o Hres' Hnd) as (Hout & Hin). split.
    + intros k [Hne Hk]%not_elem_of_cons. rewrite (Hout k Hk). by apply Hother.
    + intros key entry [[= -> ->]|Hmem]%elem_of_cons.
      * rewrite (Hout key0 Hnin).
        destruct (provided_for (from entry0) vm); [done|].
        destruct (default_value call entry0) as [[v|e]|]; [done..|].
        destruct Hkey0 as (Hr & Hdev). split; [done|]. intros Hd.
        by apply (resolve_keys_warnings keys vm acc' o Hres'), Hdev.
      * assert (key <> key0) as Hne.
        { intros ->. apply Hnin. apply list_elem_of_fmap.
          by exists (key0, entry). }
        specialize (Hin key entry Hmem).
        destruct (provided_for (from entry) vm); [done|].
        destruct (default_value call entry) as [[v|e]|]; [done..|].
        by rewrite <- (Hother key Hne).
Qed.

End WithCalls.

(** X21. [resolveInject] gives a key the value of the nearest component,
    from the instance upwards, that provides the entry's [from] key, also
    when the entry has a default; without a provider it gives the
    default, calling it when it is a function; without either the key is
    left out of the result and, in development, a warning names it. *)
Theorem resolveInject_nearest_provider
        (call : nat -> completion value) (development : bool)
        (keys : list (string * injection)) (vm : component) (o : outcome)
        (key : string) (entry : injection) :
  NoDup keys.*1 ->
  (key, entry) ∈ keys ->
  resolveInject call development (Some keys) vm = Normal (Some o) ->
  (forall pre a post v,
     ancestors vm = pre ++ a :: post ->
     Forall (fun x => provides (from entry) x = None) pre ->
     provides (from entry) a = Some v ->
     result o !! key = Some v) /\
  (Forall (fun x => provides (from entry) x = None) (ancestors vm) ->
   match default_value call entry with
   | Some (Normal v) => result o !! key = Some v
   | Some (Throw _) => False
   | None =>
       result o !! key = None /\ (development = true -> key ∈ warnings o)
   end).
Proof.
  intros Hnd Hin Hres. unfold resolveInject in Hres.
  destruct (resolve_keys call development keys vm (Outcome ∅ [])) as [o'|e]
    eqn:Hk; [|done].
  injection Hres as ->.
  destruct (resolve_keys_spec call development keys vm _ _ Hk Hnd) as (_ & Hspec).
  specialize (Hspec key entry Hin). split.
  - intros pre a post v Heq Hpre Ha.
    assert (provided_for (from entry) vm = Some v) as Hp.
    { apply provided_for_nearest. by exists pre, a, post. }
    by rewrite Hp in Hspec.
  - intros Hnone. apply provided_for_none in Hnone. rewrite Hnone in Hspec.
    destruct (default_value call entry) as [[v|e]|]; [done..|].
    simpl in Hspec. by rewrite lookup_empty in Hspec.
Qed.

Lemma resolveInject_nearest_provider_witness :
  let keys := [("theme", Injection "theme" (Some (VStr "none")));
               ("locale", Injection "lang" None);
               ("size", Injection "size" (Some (VFun 0)))] in
  exists o,
    resolveInject (fun _ => Normal (VNum 3)) true (Some keys) leaf
      = Normal (Some o) /\
    result o !! "theme" = Some (VStr "dark").
Proof.
  set (keys := [("theme", Injection "theme" (Some (VStr "none")));
                ("locale", Injection "lang" None);
                ("size", Injection "size" (Some (VFun 0)))]).
  set (o := Outcome {[ "theme" := VStr "dark"; "locale" := VStr "en";
                       "size" := VNum 3 ]} []).
  assert (resolveInject (fun _ => Normal (VNum 3)) true (Some keys) leaf
          = Normal (Some o)) as Hres.
  { vm_compute. reflexivity. }
  assert (NoDup keys.*1) as Hnd.
  { simpl. repeat constructor; set_solver. }
  assert (("theme", Injection "theme" (Some (VStr "none"))) ∈ keys) as Hin
      by left.
  exists o. split; [exact Hres|].
  refine (proj1 (resolveInject_nearest_provider _ true keys leaf o "theme" _
                   Hnd Hin Hres) [leaf] middle [root] (VStr "dark") eq_refl _ eq_refl).
  repeat constructor.
Defined.

End InjectFacts.

(** ** Namespaces of created elements *)

Module CreateElementFacts.
Import CreateElement.

Lemma vnode_nested_ind (P : vnode -> Prop) :
  (forall tag ns, P (VNode tag ns None)) ->
  (forall tag ns l, Forall P l -> P (VNode tag ns (Some l))) ->
  forall v, P v.
Proof.
  intros HN HS. fix IH 1. intros [tag ns [l|]].
  - apply HS. induction l as [|c l IHl]; constructor; [apply IH|exact IHl].
  - apply HN.
Qed.

Lemma tag_of_applyNS (v : vnode) (ns : option string) (force : bool) :
  tag_of (applyNS v ns force) = tag_of v.
Proof. by destruct v. Qed.

Lemma ns_of_applyNS (v : vnode) (ns : option string) (force : bool) :
  ns_of (applyNS v ns force) = ns.
Proof. by destruct v. Qed.

Lemma visited_applyNS (f : bool) (v : vnode) (ns : option string) (force : bool) :
  visited f (applyNS v ns force) =
  bool_decide (is_Some (tag_of v)) &&
  (negb (bool_decide (is_Some ns)) ||
   (f && negb (bool_decide (tag_of v = Some "svg")))).
Proof. unfold visited. by rewrite tag_of_applyNS, ns_of_applyNS. Qed.




(** X22. [applyNS] is idempotent: applied again with the same namespace
    and the same [force] it changes nothing. *)
Theorem applyNS_idempotent
        (v : vnode) (ns : option string) (force : bool) :
  applyNS (applyNS v ns force) ns force = applyNS v ns force.
Proof.
  revert ns force.
  induction v as [tag n0|tag n0 l IH] using vnode_nested_ind;
    intros ns force; [done|].
  cbn [applyNS option_map]. do 2 f_equal. rewrite map_map.
  set (inner := if bool_decide (tag = Some "foreignObject") then _ else _).
  clearbody inner.
  induction IH as [|c l Hc _ IHl]; [done|].
  cbn [map]. rewrite IHl. f_equal.
  destruct (visited inner.2 c) eqn:Hv; cbv iota; [|by rewrite Hv].
  rewrite Hc. by destruct (visited inner.2 (applyNS c inner.1 inner.2)).
Qed.



End CreateElementFacts.

(** ** Props *)

Module PropsFacts.
Import Js Props.

Lemma append_cons (c : ascii) (s t : string) :
  String c s +:+ t = String c (s +:+ t).
Proof. done. Qed.

Lemma skip_spaces_app (spaces s : string) :
  (forall c, In c (list_ascii_of_string spaces) -> is_space c = true) ->
  skip_spaces (spaces +:+ s) = skip_spaces s.
Proof.
  induction spaces as [|c spaces IH]; intros Hall; [done|].
  rewrite append_cons. cbn [skip_spaces].
  rewrite (Hall c) by (by left). apply IH. intros c' Hc'. apply Hall. by right.
Qed.

Lemma skip_spaces_split (s : string) :
  exists spaces,
    s = spaces +:+ skip_spaces s /\
    (forall c, In c (list_ascii_of_string spaces) -> is_space c = true).
Proof.
  induction s as [|c s (spaces & Heq & Hall)].
  - by exists EmptyString.
  - cbn [skip_spaces]. destruct (is_space c) eqn:Hc.
    + exists (String c spaces). rewrite append_cons, <- Heq. split; [done|].
      intros c' [<-|Hc']; auto.
    + exists EmptyString. split; [done|]. intros c' [].
Qed.

Lemma strip_prefix_spec (p s rest : string) :
  strip_prefix p s = Some rest <-> s = p +:+ rest.
Proof.
  revert s. induction p as [|a p IH]; intros s; simpl.
  - split; [by intros [= ->]|by intros ->].
  - destruct s as [|b s]; [done|].
    destruct (Ascii.eqb a b) eqn:E.
    + apply Ascii.eqb_eq in E as ->. rewrite IH. split; [by intros ->|].
      by intros [= ->].
    + apply Ascii.eqb_neq in E. split; [done|]. intros [= Hab _]. congruence.
Qed.

Lemma take_word_split (s : string) :
  exists rest,
    s = take_word s +:+ rest /\
    (forall c, In c (list_ascii_of_string (take_word s)) ->
               Path.is_word c = true) /\
    match rest with
    | String c _ => Path.is_word c = false
    | EmptyString => True
    end.
Proof.
  induction s as [|c s (rest & Heq & Hall & Hrest)].
  - by exists EmptyString.
  - cbn [take_word]. destruct (Path.is_word c) eqn:Hc.
    + exists rest. rewrite append_cons, <- Heq. split; [done|].
      split; [|done]. intros c' [<-|Hc']; auto.
    + exists (String c s). split; [done|]. split; [intros c' []|done].
Qed.

Lemma take_word_app (name rest : string) :
  (forall c, In c (list_ascii_of_string name) -> Path.is_word c = true) ->
  match rest with
  | String c _ => Path.is_word c = false
  | EmptyString => True
  end ->
  take_word (name +:+ rest) = name.
Proof.
  intros Hall Hrest. induction name as [|c name IH].
  - destruct rest as [|c rest]; [done|]. simpl. by rewrite Hrest.
  - rewrite append_cons. cbn [take_word]. rewrite (Hall c) by (by left).
    f_equal. apply IH. intros c' Hc'. apply Hall. by right.
Qed.

Lemma match_function_declares (text name : string) :
  match_function text = Some name <-> declares name text.
Proof.
  unfold match_function, declares. split.
  - destruct (skip_spaces_split text) as (spaces & Heq & Hspaces).
    destruct (strip_prefix "function " (skip_spaces text)) as [rest|] eqn:Hp;
      [|done].
    apply strip_prefix_spec in Hp.
    destruct (take_word_split rest) as (rest' & Hrest & Hword & Hstop).
    destruct (take_word rest) as [|c w] eqn:Hw; [done|].
    intros [= <-]. exists spaces, rest'.
    split; [by rewrite Heq at 1; rewrite Hp, Hrest|]. done.
  - intros (spaces & rest & -> & Hspaces & Hne & Hword & Hstop).
    rewrite skip_spaces_app by done.
    change (skip_spaces ("function " +:+ name +:+ rest))
      with ("function " +:+ name +:+ rest).
    assert (strip_prefix "function " ("function " +:+ name +:+ rest) =
            Some (name +:+ rest)) as -> by by apply strip_prefix_spec.
    rewrite take_word_app by done. by destruct name.
Qed.

(** X24. [getType] reads the name of a constructor off its text: it
    returns a non-empty name exactly when the text is, after white space,
    [function], one space and that name, the name being the longest run
    of word characters there; it returns [''] for anything else. *)
Theorem getType_reads_the_declared_name (text name : string) :
  (getType (TOne text) = name /\ name <> EmptyString) <-> declares name text.
Proof.
  unfold getType. cbn [toString]. rewrite <- match_function_declares. split.
  - intros [Hg Hne]. destruct (match_function text) as [n|]; simpl in *;
      congruence.
  - intros Hm. rewrite Hm. simpl. split; [done|].
    apply match_function_declares in Hm as (spaces & rest & _ & _ & Hne & _).
    done.
Qed.

Lemma first_same_spec (ty : type_spec) (l : list string) (i : Z) :
  (first_same ty l i = (-1)%Z /\
   Forall (fun t => isSameType (TOne t) ty = false) l) \/
  (exists pre t post,
     l = pre ++ t :: post /\
     Forall (fun t => isSameType (TOne t) ty = false) pre /\
     isSameType (TOne t) ty = true /\
     first_same ty l i = (i + Z.of_nat (length pre))%Z).
Proof.
  revert i. induction l as [|t l IH]; intros i; cbn [first_same].
  - left. by split.
  - destruct (isSameType (TOne t) ty) eqn:E.
    + right. exists [], t, l. simpl. split; [done|]. split; [done|].
      split; [done|]. lia.
    + destruct (IH (i + 1)%Z) as [[Hm Hall]|(pre & t' & post & -> & Hpre & Ht & Hm)].
      * left. split; [done|]. by constructor.
      * right. exists (t :: pre), t', post. split; [done|].
        split; [by constructor|]. split; [done|].
        rewrite Hm. simpl length. lia.
Qed.

Lemma first_split_unique (P : string -> bool) (pre pre' : list string)
      (t t' : string) (post post' : list string) :
  pre ++ t :: post = pre' ++ t' :: post' ->
  Forall (fun x => P x = false) pre -> P t = true ->
  Forall (fun x => P x = false) pre' -> P t' = true ->
  pre = pre'.
Proof.
  revert pre'. induction pre as [|x pre IH]; intros [|x' pre'] Heq Hpre Ht Hpre' Ht';
    simpl in Heq.
  - done.
  - injection Heq as -> _. apply Forall_cons in Hpre' as [Hx _]. congruence.
  - injection Heq as -> _. apply Forall_cons in Hpre as [Hx _]. congruence.
  - injection Heq as -> Heq. apply Forall_cons in Hpre as [_ Hpre].
    apply Forall_cons in Hpre' as [_ Hpre']. f_equal. by apply IH.
Qed.

Lemma getType_Boolean : getType Boolean = "Boolean".
Proof. reflexivity. Qed.

Lemma getType_String : getType String' = "String".
Proof. reflexivity. Qed.

Lemma isSameType_name (t : string) (ty : type_spec) :
  isSameType (TOne t) ty = true <-> getType (TOne t) = getType ty.
Proof. unfold isSameType. apply String.eqb_eq. Qed.

Lemma isSameType_not_name (t : string) (ty : type_spec) :
  isSameType (TOne t) ty = false <-> getType (TOne t) <> getType ty.
Proof. unfold isSameType. apply String.eqb_neq. Qed.

(** X25. The boolean casting of [validateProp] for a prop with an array
    of types: an empty string, or the hyphenated name of the prop, is
    cast to [true] exactly when some type of the array is [Boolean] and
    no [String] comes before the first of them; otherwise the value
    passed stays.  A prop that is not passed and has no default becomes
    [false] exactly when some type is [Boolean]. *)
Theorem boolean_cast_follows_type_order
        (hyphenate : string -> string) (key : string) (fns : list string)
        (dflt : option value) (v : value) :
  let prop := PropOptions (TMany fns) dflt in
  let boolean_first :=
    exists pre b post,
      fns = pre ++ b :: post /\ getType (TOne b) = "Boolean" /\
      Forall (fun t => getType (TOne t) <> "Boolean" /\
                       getType (TOne t) <> "String") pre in
  (v = VStr EmptyString \/ v = VStr (hyphenate key) ->
   (cast_boolean hyphenate key prop (Some v) = VBool true <-> boolean_first) /\
   (cast_boolean hyphenate key prop (Some v) = VBool true \/
    cast_boolean hyphenate key prop (Some v) = v)) /\
  (cast_boolean hyphenate key prop None =
   if bool_decide (is_Some dflt) then VUndefined
   else if bool_decide (Exists (fun t => getType (TOne t) = "Boolean") fns)
        then VBool false else VUndefined).
Proof.
  intros prop boolean_first. subst prop. unfold cast_boolean.
  cbn [type default_of getTypeIndex].
  destruct (first_same_spec Boolean fns 0)
    as [[Hb Hnob]|(preb & b & postb & Hfns & Hpreb & Hisb & Hb)]; rewrite Hb.
  - (* no Boolean among the types *)
    assert (~ Exists (fun t => getType (TOne t) = "Boolean") fns) as Hnone.
    { rewrite Exists_exists. intros (t & Hin & Ht).
      rewrite Forall_forall in Hnob. specialize (Hnob t Hin).
      apply isSameType_not_name in Hnob. by rewrite getType_Boolean in Hnob. }
    split.
    + intros Hv. simpl. split; [|by right]. split.
      * destruct Hv as [-> | ->]; done.
      * intros (pre & b & post & -> & Hbool & _). destruct Hnone.
        apply Exists_exists. exists b. split; [set_solver|done].
    + simpl. destruct (bool_decide (is_Some dflt)); [done|].
      by rewrite bool_decide_eq_false_2.
  - (* the first Boolean is at [length preb] *)
    assert ((-1 <? 0 + Z.of_nat (length preb))%Z = true) as -> by lia.
    apply isSameType_name in Hisb. rewrite getType_Boolean in Hisb.
    assert (Forall (fun t => getType (TOne t) <> "Boolean") preb) as Hpreb'.
    { eapply Forall_impl; [exact Hpreb|]. simpl. intros t Ht.
      apply isSameType_not_name in Ht. by rewrite getType_Boolean in Ht. }
    split.
    + intros Hv.
      assert (strict_eq v (VStr EmptyString)
              || strict_eq v (VStr (hyphenate key)) = true) as Heq.
      { destruct Hv as [-> | ->]; simpl;
          rewrite ?String.eqb_refl, ?orb_true_r; done. }
      assert (bool_decide (is_Some (Some v)) = true) as Hsome
          by by apply bool_decide_eq_true_2.
      rewrite Hsome. cbn [negb andb default]. change (id v) with v.
      rewrite Heq.
      destruct (first_same_spec String' fns 0)
        as [[Hs Hnos]|(pres & s & posts & Hfns' & Hpres & Hiss & Hs)];
        rewrite Hs.
      * (* no String at all *)
        cbn [Z.ltb Z.compare orb]. split; [|by left]. split; [intros _|done].
        exists preb, b, postb. split; [done|]. split; [done|].
        apply Forall_forall. intros t Hin. split.
        -- rewrite Forall_forall in Hpreb'. by apply Hpreb'.
        -- rewrite Forall_forall in Hnos.
           assert (t ∈ fns) as Hin' by (rewrite Hfns; set_solver).
           specialize (Hnos t Hin'). apply isSameType_not_name in Hnos.
           by rewrite getType_String in Hnos.
      * (* the first String is at [length pres] *)
        apply isSameType_name in Hiss. rewrite getType_String in Hiss.
        assert ((0 + Z.of_nat (length pres) <? 0)%Z = false) as -> by lia.
        cbn [orb].
        destruct (0 + Z.of_nat (length preb) <? 0 + Z.of_nat (length pres))%Z
          eqn:Hlt.
        -- split; [|by left]. split; [intros _|done].
           exists preb, b, postb. split; [done|]. split; [done|].
           apply Forall_forall. intros t Hin. split.
           ++ rewrite Forall_forall in Hpreb'. by apply Hpreb'.
           ++ (* [t] lies before the first String *)
              assert (length preb < length pres)%nat as Hlen by lia.
              assert (preb = take (length preb) pres) as Hpre.
              { assert (take (length preb) fns = preb) as <-.
                { by rewrite Hfns, take_app_length. }
                rewrite Hfns'. rewrite take_app_le by lia.
                by rewrite length_take_le by lia. }
              assert (t ∈ pres) as Hin'.
              { rewrite Hpre in Hin. by apply elem_of_take in Hin as (? & ?%list_elem_of_lookup_2 & _). }
              rewrite Forall_forall in Hpres. specialize (Hpres t Hin').
              apply isSameType_not_name in Hpres.
              by rewrite getType_String in Hpres.
        -- split.
           ++ split.
              ** destruct Hv as [-> | ->]; done.
              ** intros (pre & b' & post & Hfns'' & Hbool & Hpre).
                 assert (pre = preb) as ->.
                 { apply (first_split_unique
                            (fun t => String.eqb (getType (TOne t)) "Boolean")
                            pre preb b' b post postb).
                   - by rewrite <- Hfns'', <- Hfns.
                   - eapply Forall_impl; [exact Hpre|]. simpl.
                     intros t [Ht _]. by apply String.eqb_neq.
                   - by apply String.eqb_eq.
                   - eapply Forall_impl; [exact Hpreb'|]. simpl.
                     intros t Ht. by apply String.eqb_neq.
                   - by apply String.eqb_eq. }
                 (* the first String lies in [preb] or is [b] *)
                 assert (length pres <= length preb)%nat as Hlen by lia.
                 assert (fns !! length pres = Some s) as Hlook.
                 { rewrite Hfns'. by rewrite list_lookup_middle. }
                 rewrite Hfns in Hlook.
                 destruct (decide (length pres = length preb)) as [Heq'|Hne'].
                 --- rewrite Heq', list_lookup_middle in Hlook by done.
                     injection Hlook as ->. congruence.
                 --- rewrite lookup_app_l in Hlook by lia.
                     apply list_elem_of_lookup_2 in Hlook.
                     rewrite Forall_forall in Hpre.
                     destruct (Hpre s Hlook) as [_ Hcontra]. done.
           ++ by right.
    + cbn [default negb]. rewrite (bool_decide_eq_false_2 (is_Some None))
        by (intros [? ?]; done).
      cbn [negb andb].
      destruct (bool_decide (is_Some dflt)); cbn [negb].
      * simpl. done.
      * rewrite bool_decide_eq_true_2; [done|].
        apply Exists_exists. exists b. split; [rewrite Hfns; set_solver|done].
Qed.

Lemma boolean_cast_follows_type_order_witness :
  let fns := ["function Number() {}"; "function Boolean() {}";
              "function String() {}"] in
  cast_boolean no_hyphenation "disabled" (PropOptions (TMany fns) None)
    (Some (VStr "disabled")) = VBool true.
Proof.
  set (fns := ["function Number() {}"; "function Boolean() {}";
               "function String() {}"]).
  assert (VStr "disabled" = VStr EmptyString \/
          VStr "disabled" = VStr (no_hyphenation "disabled")) as Hv
      by (by right).
  refine (proj2 (proj1 (proj1 (boolean_cast_follows_type_order no_hyphenation
                   "disabled" fns None (VStr "disabled")) Hv)) _).
  exists ["function Number() {}"], "function Boolean() {}",
         ["function String() {}"].
  split; [reflexivity|]. split; [reflexivity|].
  constructor; [|constructor]. split; vm_compute; discriminate.
Defined.

Lemma append_assoc (a b c : string) : (a +:+ b) +:+ c = a +:+ b +:+ c.
Proof. induction a as [|x a IH]; [done|]. rewrite !append_cons. by rewrite IH. Qed.

Lemma declares_prefix (name text more : string) :
  declares name text ->
  match more with
  | String c _ => Path.is_word c = false
  | EmptyString => True
  end ->
  declares name (text +:+ more).
Proof.
  intros (spaces & rest & -> & Hspaces & Hne & Hword & Hstop) Hmore.
  exists spaces, (rest +:+ more). rewrite !append_assoc.
  split; [done|]. split; [done|]. split; [done|]. split; [done|].
  by destruct rest.
Qed.

Lemma getType_array_head (name first : string) (rest : list string) :
  declares name first -> getType (TMany (first :: rest)) = name.
Proof.
  intros Hd. unfold getType. cbn [toString].
  assert (declares name (Path.join "," (first :: rest))) as Hjoin.
  { destruct rest as [|second rest]; [done|].
    change (Path.join "," (first :: second :: rest))
      with (first +:+ "," +:+ Path.join "," (second :: rest)).
    by apply declares_prefix. }
  apply match_function_declares in Hjoin. by rewrite Hjoin.
Qed.

Lemma cast_boolean_absent_with_default
      (hyphenate : string -> string) (key : string) (ty : type_spec)
      (def : value) :
  cast_boolean hyphenate key (PropOptions ty (Some def)) None = VUndefined.
Proof.
  unfold cast_boolean. cbn [type default_of].
  destruct (-1 <? getTypeIndex Boolean ty)%Z; [|done].
  rewrite (bool_decide_eq_true_2 (is_Some (Some def))) by done.
  by rewrite andb_false_r.
Qed.

(** X26. A prop that is not passed and has a function for default, on
    creation: it is never cast to a boolean; the function is called as
    a factory unless [getType(prop.type)] is ['Function'], which for an
    array of types looks at the first type only; the value is handed to
    [observe] with observing switched on and [shouldObserve] is put
    back; an exception of the factory leaves [validateProp] before
    anything is observed. *)
Theorem default_factory_unless_first_type_is_Function
        (hyphenate : string -> string) (call : nat -> completion value)
        (key : string) (first : string) (rest : list string) (f : nat)
        (o : observing) (name : string) :
  declares name first ->
  validateProp hyphenate call key
    (PropOptions (TMany (first :: rest)) (Some (VFun f))) None None o =
  if String.eqb name "Function"
  then (Normal (VFun f),
        Observing (shouldObserve o) (observed o ++ [(VFun f, true)]))
  else match call f with
       | Normal v =>
           (Normal v, Observing (shouldObserve o) (observed o ++ [(v, true)]))
       | Throw e => (Throw e, o)
       end.
Proof.
  intros Hd. unfold validateProp.
  rewrite cast_boolean_absent_with_default. cbn [strict_eq].
  unfold getPropDefaultValue. cbn [default_of type].
  rewrite (getType_array_head name first rest Hd).
  destruct (String.eqb name "Function"); cbn [negb]; [done|].
  by destruct (call f).
Qed.

Lemma default_factory_unless_first_type_is_Function_witness :
  declares "String" "function String() { [native code] }" /\
  validateProp no_hyphenation (fun _ => Normal (VStr "made")) "title"
    (PropOptions
       (TMany ["function String() { [native code] }";
               "function Function() { [native code] }"])
       (Some (VFun 0))) None None (Observing false []) =
  (Normal (VStr "made"), Observing false [(VStr "made", true)]).
Proof.
  assert (declares "String" "function String() { [native code] }") as Hd.
  { exists EmptyString, "() { [native code] }". split; [reflexivity|].
    split; [intros c []|]. split; [done|]. split; [|reflexivity].
    intros c Hc. simpl in Hc.
    repeat (destruct Hc as [<-|Hc]; [reflexivity|]). destruct Hc. }
  split; [exact Hd|].
  exact (default_factory_unless_first_type_is_Function no_hyphenation
           (fun _ => Normal (VStr "made")) "title" _
           ["function Function() { [native code] }"] 0 (Observing false [])
           "String" Hd).
Defined.

End PropsFacts.
